(** * SPM analytics: the telemetry analysis pipeline of [app.py] and
      [streamlit_app.py], embedded in Rocq.

    The two programs are Streamlit scripts over pandas frames.  A frame
    is modelled by the list of its rows, a row by a record of the
    columns that the analysis reads; the optional columns of the
    telemetry and the columns of the reference tables, whose absence the
    programs test or trip over, are kept track of.

    Numbers that the Python code holds in float64 are modelled as real
    numbers.  Three operations whose rounding decides what the programs
    do or show, the two bounds of the bounding box of a signal and the
    mean of a column, are parameters of the model ([Float64]); the other
    operations are the exact ones.  NaN is modelled by [None]: the square
    root of a negative number, and the cells that are empty in the file, of
    the incremental distances, of the station codes and of the
    coordinates of the master.  Timestamps ([datetime64[ns]]) are
    integers, in nanoseconds.  Exceptions are the left summand of
    [result].

    The definitions come first, in the order of the components; the
    properties follow. *)

From Stdlib Require Import Reals Lra Lia List ZArith NArith String Ascii Bool Machin.
From Stdlib Require Import Permutation Sorted DecimalString.
Import ListNotations.
Open Scope R_scope.

(** ** Comparisons of floats, as booleans *)

Definition Rleb (x y : R) : bool := if Rle_dec x y then true else false.
Definition Rltb (x y : R) : bool := if Rlt_dec x y then true else false.

(** ** Rounded arithmetic

    [sig['Latitude'] - 0.01] and [sig['Latitude'] + 0.01] are float64
    operations on the float nearest to 0.01, and [Series.mean] is a
    float64 sum divided by a count: their results are rounded, the mean
    in a way that depends on the order of the summation.  The three
    operations are parameters of the model. *)

Record Float64 := mkFloat64 {
  minus_001 : R -> R;        (* the float64 value of [x - 0.01] *)
  plus_001 : R -> R;         (* the float64 value of [x + 0.01] *)
  mean : list R -> R         (* [Series.mean] of a column that is not empty *)
}.

(** What IEEE 754 arithmetic gives for the bounds of a coordinate in
    degrees: below 512 the floats are less than [2 ^ -43] apart, and 0.01
    is within [2 ^ -60] of its float. *)
Definition rounds (fl : Float64) : Prop :=
  forall x, Rabs x <= 360 ->
    Rabs (minus_001 fl x - (x - 0.01)) <= / 10 ^ 12
    /\ Rabs (plus_001 fl x - (x + 0.01)) <= / 10 ^ 12.

(** ** Geodesic distance: [haversine_vectorized] *)

Module Geodesic.

(** [R = 6371000  # Earth radius in meters] *)
Definition R_earth : R := 6371000.

(** [np.radians] *)
Definition radians (d : R) : R := d * PI / 180.

(** [np.sqrt]: NaN on a negative argument. *)
Definition np_sqrt (x : R) : option R :=
  if Rle_dec 0 x then Some (sqrt x) else None.

(** [np.arctan2 y x], the angle of the point [(x, y)] in (-PI, PI]. *)
Definition np_arctan2 (y x : R) : R :=
  if Rlt_dec 0 x then atan (y / x)
  else if Rlt_dec x 0 then
         (if Rle_dec 0 y then atan (y / x) + PI else atan (y / x) - PI)
  else if Rlt_dec 0 y then PI / 2
  else if Rlt_dec y 0 then - (PI / 2)
  else 0.

(** The value [a] of the source.  [phi1] and [phi2] are computed by the
    source and never used: the cosines are taken of [lat1] and [lat2],
    the latitudes in degrees. *)
Definition hav_a (lat1 lon1 lat2 lon2 : R) : R :=
  let dphi := radians (lat2 - lat1) in
  let dlambda := radians (lon2 - lon1) in
  sin (dphi / 2) ^ 2 + cos lat1 * cos lat2 * sin (dlambda / 2) ^ 2.

(** [c = 2 * np.arctan2(np.sqrt(a), np.sqrt(1-a)); return R * c] *)
Definition hav_of_a (a : R) : option R :=
  match np_sqrt a, np_sqrt (1 - a) with
  | Some s, Some t => Some (R_earth * (2 * np_arctan2 s t))
  | _, _ => None
  end.

Definition haversine_vectorized (lat1 lon1 lat2 lon2 : R) : option R :=
  hav_of_a (hav_a lat1 lon1 lat2 lon2).

(** The haversine formula of the specification, for comparison: the
    cosines are taken of the latitudes in radians. *)
Definition formula_a (lat1 lon1 lat2 lon2 : R) : R :=
  let phi1 := radians lat1 in
  let phi2 := radians lat2 in
  let dphi := radians (lat2 - lat1) in
  let dlambda := radians (lon2 - lon1) in
  sin (dphi / 2) ^ 2 + cos phi1 * cos phi2 * sin (dlambda / 2) ^ 2.

Definition haversine_formula (lat1 lon1 lat2 lon2 : R) : option R :=
  hav_of_a (formula_a lat1 lon1 lat2 lon2).

End Geodesic.


(** ** Sorting, as pandas documents it

    [DataFrame.sort_values] is called by the source with its default
    [kind='quicksort'].  What the library promises of it is that the
    result is the rows of the frame, ordered by the key; the sort is a
    parameter of the model, under this contract. *)

Definition sorts_by {A : Type} (le : A -> A -> Prop)
           (sort : list A -> list A) : Prop :=
  forall l, Permutation (sort l) l /\ Sorted le (sort l).

(** ** Telemetry normalizer *)

Module Telemetry.

(** One row of the locomotive CSV.  [Logging_Time] is the parsed
    timestamp, in nanoseconds; [distFromPrevLatLng] and [stationCode]
    are the cells of the two optional columns, [None] when the cell is
    empty (NaN). *)
Record Row := mkRow {
  Logging_Time : Z;
  Latitude : R;
  Longitude : R;
  Speed : R;
  distFromPrevLatLng : option R;
  stationCode : option string
}.

(** The frame: its rows, and which of the two optional columns it has.
    The fields [distFromPrevLatLng] and [stationCode] of a row are read
    only when the frame has the column. *)
Record Frame := mkFrame {
  has_distFromPrevLatLng : bool;
  has_stationCode : bool;
  rows : list Row
}.

Definition by_Logging_Time (r1 r2 : Row) : Prop :=
  (Logging_Time r1 <= Logging_Time r2)%Z.

(** [df = df.sort_values('Logging Time')] *)
Definition sort_frame (sort_values : list Row -> list Row) (f : Frame) : Frame :=
  mkFrame (has_distFromPrevLatLng f) (has_stationCode f) (sort_values (rows f)).

(** [Series.cumsum] ([skipna=True]): a missing value is left out of the
    sum and stays missing in the result. *)
Fixpoint cumsum_from (acc : R) (l : list (option R)) : list (option R) :=
  match l with
  | [] => []
  | Some x :: t => Some (acc + x) :: cumsum_from (acc + x) t
  | None :: t => None :: cumsum_from acc t
  end.

Definition cumsum (l : list (option R)) : list (option R) := cumsum_from 0 l.

(** [col / 1000]; NaN stays NaN. *)
Definition div_1000 (c : option R) : option R :=
  option_map (fun s => s / 1000) c.

(** The values of a column that are not missing ([dropna]). *)
Fixpoint present (l : list (option R)) : list R :=
  match l with
  | [] => []
  | Some x :: t => x :: present t
  | None :: t => present t
  end.

(** [np.arange(n)] *)
Definition arange (n : nat) : list R := map INR (seq 0 n).

(** [app.py]:
    [if 'distFromPrevLatLng' in loco_df.columns:
         loco_df['Distance_km'] = loco_df['distFromPrevLatLng'].cumsum() / 1000
     else:
         loco_df['Distance_km'] = np.arange(len(loco_df)) * 0.01] *)
Definition Distance_km (loco_df : Frame) : list (option R) :=
  if has_distFromPrevLatLng loco_df
  then map div_1000 (cumsum (map distFromPrevLatLng (rows loco_df)))
  else map (fun i => Some (i * 0.01)) (arange (List.length (rows loco_df))).

(** [streamlit_app.py]:
    [if 'distFromPrevLatLng' not in df.columns:
         df['distFromPrevLatLng'] = 0
     df['cum_dist_km'] = df['distFromPrevLatLng'].cumsum() / 1000] *)
Definition cum_dist_km (df : Frame) : list (option R) :=
  let d := if has_distFromPrevLatLng df
           then map distFromPrevLatLng (rows df)
           else map (fun _ => Some 0) (rows df) in
  map div_1000 (cumsum d).

(** The two normalizers, from the uploaded frame. *)
Definition normalize_app (sort_values : list Row -> list Row) (f : Frame)
  : list (option R) :=
  Distance_km (sort_frame sort_values f).

Definition normalize_streamlit (sort_values : list Row -> list Row) (f : Frame)
  : list (option R) :=
  cum_dist_km (sort_frame sort_values f).

(** What the specification asks of the fallback, in its words: the
    per-step distance is the geodesic distance between consecutive
    points, the cumulative distance its running sum in kilometers.  The
    first point has no predecessor and contributes 0; NaN propagates. *)
Fixpoint spec_geodesic_steps (prev : option Row) (l : list Row) : list (option R) :=
  match l with
  | [] => []
  | p :: t =>
      (match prev with
       | None => Some 0
       | Some q => Geodesic.haversine_vectorized
                     (Latitude q) (Longitude q) (Latitude p) (Longitude p)
       end) :: spec_geodesic_steps (Some p) t
  end.

Fixpoint spec_running_km (acc : option R) (l : list (option R)) : list (option R) :=
  match l with
  | [] => []
  | x :: t =>
      let acc' := match acc, x with
                  | Some a, Some d => Some (a + d)
                  | _, _ => None
                  end in
      option_map (fun s => s / 1000) acc' :: spec_running_km acc' t
  end.

Definition spec_fallback_km (l : list Row) : list (option R) :=
  spec_running_km (Some 0) (spec_geodesic_steps None l).

(** [a <= b] on two cells: a comparison with NaN is false. *)
Definition cell_le (a b : option R) : Prop :=
  match a, b with
  | Some x, Some y => x <= y
  | _, _ => False
  end.

(** A column is non-decreasing: each value is at most the next one. *)
Definition non_decreasing (l : list (option R)) : Prop :=
  forall i a b, nth_error l i = Some a -> nth_error l (S i) = Some b ->
                cell_le a b.

End Telemetry.

(** ** Segmentation engine *)

Module Segmentation.
Import Telemetry.

(** [Series.shift()]: every value one place down, NaN at the top, the
    last value dropped. *)
Definition shift {A : Type} (col : list A) : list (option A) :=
  removelast (None :: map Some col).

(** [col != col.shift()], elementwise.  The NaN that [shift] puts at the
    top differs from every value. *)
Definition ne_shift {A : Type} (ne : A -> A -> bool) (col : list A) : list bool :=
  map (fun p => match snd p with
                | None => true
                | Some y => ne (fst p) y
                end)
      (combine col (shift col)).

(** [.cumsum()] of a column of booleans. *)
Fixpoint cumsum_bool_from (acc : nat) (l : list bool) : list nat :=
  match l with
  | [] => []
  | b :: t =>
      let acc' := (acc + (if b then 1 else 0))%nat in
      acc' :: cumsum_bool_from acc' t
  end.

Definition cumsum_bool (l : list bool) : list nat := cumsum_bool_from 0 l.

(** [!=] on two cells of the station-code column: a missing cell (NaN)
    differs from every cell, a missing one included. *)
Definition ne_cell (a b : option string) : bool :=
  match a, b with
  | Some x, Some y => negb (String.eqb x y)
  | _, _ => true
  end.

(** [groupby]: the keys in ascending order, once each, and under each key
    the rows that have it, in the order of the frame. *)
Fixpoint insert_key (k : nat) (ks : list nat) : list nat :=
  match ks with
  | [] => [k]
  | h :: t =>
      if (k <? h)%nat then k :: ks
      else if (k =? h)%nat then ks
      else h :: insert_key k t
  end.

Definition group_keys (ks : list nat) : list nat := fold_right insert_key [] ks.

Definition groupby {A : Type} (key : A -> nat) (l : list A) : list (nat * list A) :=
  map (fun k => (k, filter (fun r => (key r =? k)%nat) l))
      (group_keys (map key l)).

(** The number of points of the intervals, summed. *)
Definition point_count {A : Type} (groups : list (nat * list A)) : nat :=
  list_sum (map (fun g => List.length (snd g)) groups).

(** Aggregates.  They are applied to groups, which are never empty. *)
Definition agg_min (l : list Z) : Z :=
  match l with [] => 0%Z | h :: t => fold_left Z.min t h end.

Definition agg_max (l : list Z) : Z :=
  match l with [] => 0%Z | h :: t => fold_left Z.max t h end.

Definition agg_max_R (l : list R) : R :=
  match l with [] => 0 | h :: t => fold_left Rmax t h end.

(** *** The station specialization ([app.py], tab 1)

    [loco_df['section_grp'] =
       (loco_df['last/cur stationCode'] != loco_df['last/cur stationCode'].shift()).cumsum()] *)
Definition section_grp (loco_df : list Row) : list nat :=
  cumsum_bool (ne_shift ne_cell (map stationCode loco_df)).

(** [loco_df.groupby(['section_grp', 'last/cur stationCode'])]: rows whose
    station code is missing are left out by [groupby] ([dropna=True]).
    Within one [section_grp] the station code is the same (lemma
    [section_grp_same_station] below), so the groups of the pair of keys
    are the groups of [section_grp]. *)
Definition has_station (r : Row) : bool :=
  match stationCode r with Some _ => true | None => false end.

Definition section_groups (loco_df : list Row) : list (nat * list (nat * Row)) :=
  groupby fst (filter (fun p => has_station (snd p))
                      (combine (section_grp loco_df) loco_df)).

Record SectStat := mkSectStat {
  sect_section_grp : nat;
  sect_stationCode : option string;
  sect_Start : Z;
  sect_End : Z;
  sect_Avg_Speed : R;
  sect_Max_Speed : R
}.

Definition sect_agg (fl : Float64) (g : nat * list (nat * Row)) : SectStat :=
  let rs := map snd (snd g) in
  mkSectStat (fst g)
             (match rs with [] => None | r :: _ => stationCode r end)
             (agg_min (map Logging_Time rs))
             (agg_max (map Logging_Time rs))
             (mean fl (map Speed rs))
             (agg_max_R (map Speed rs)).

(** [sect_stats]; [None] is the branch "Station codes not found in data". *)
Definition sect_stats (fl : Float64) (loco_df : Frame) : option (list SectStat) :=
  if has_stationCode loco_df
  then Some (map (sect_agg fl) (section_groups (rows loco_df)))
  else None.

(** *** The stoppage specialization (both programs)

    [df['is_stopped'] = df['Speed'] < stop_thresh
     df['stop_grp'] = (df['is_stopped'] != df['is_stopped'].shift()).cumsum()] *)
Definition is_stopped (stop_thresh : R) (r : Row) : bool :=
  Rltb (Speed r) stop_thresh.

Definition stop_grp (stop_thresh : R) (loco_df : list Row) : list nat :=
  cumsum_bool (ne_shift xorb (map (is_stopped stop_thresh) loco_df)).

(** [df[df['is_stopped']].groupby('stop_grp')] *)
Definition stop_groups (stop_thresh : R) (loco_df : list Row)
  : list (nat * list (nat * Row)) :=
  groupby fst (filter (fun p => is_stopped stop_thresh (snd p))
                      (combine (stop_grp stop_thresh loco_df) loco_df)).

Record Stop := mkStop {
  stop_grp_id : nat;
  StartTime : Z;
  EndTime : Z;
  Lat : R;
  Lon : R
}.

(** [.agg(StartTime=('Logging Time','min'), EndTime=('Logging Time','max'),
          Lat=('Latitude','mean'), Lon=('Longitude','mean'))] *)
Definition stop_agg (fl : Float64) (g : nat * list (nat * Row)) : Stop :=
  let rs := map snd (snd g) in
  mkStop (fst g)
         (agg_min (map Logging_Time rs))
         (agg_max (map Logging_Time rs))
         (mean fl (map Latitude rs))
         (mean fl (map Longitude rs)).

Definition stops (fl : Float64) (stop_thresh : R) (loco_df : list Row)
  : list Stop :=
  map (stop_agg fl) (stop_groups stop_thresh loco_df).

(** [(EndTime - StartTime).dt.total_seconds() / 60]; the timestamps are
    in nanoseconds. *)
Definition Duration_min (s : Stop) : R :=
  IZR (EndTime s - StartTime s) / 1000000000 / 60.

(** [stops[stops['Duration_min'] >= stop_dur]] *)
Definition retained (stop_dur : R) (l : list Stop) : list Stop :=
  filter (fun s => Rleb stop_dur (Duration_min s)) l.

Definition by_Duration_desc (s1 s2 : Stop) : Prop :=
  Duration_min s2 <= Duration_min s1.

Definition by_Start (s1 s2 : Stop) : Prop := (StartTime s1 <= StartTime s2)%Z.

End Segmentation.

(** ** Exceptions

    The Python exceptions that the modelled statements can raise, and
    the monad of the computations that can raise them. *)

Inductive exn : Type :=
| KeyError (column : string)   (* a column that the frame does not have *)
| ParserError                  (* [pd.read_csv] cannot read the file *)
| AllNaN.                      (* [idxmin] of a column of NaN *)

Definition result (A : Type) : Type := (exn + A)%type.

Definition ret {A : Type} (a : A) : result A := inr a.
Definition raise {A : Type} (e : exn) : result A := inl e.

Definition bind {A B : Type} (c : result A) (k : A -> result B) : result B :=
  match c with
  | inl e => inl e
  | inr a => k a
  end.

Notation "x <- c ;; k" := (bind c (fun x => k))
  (at level 61, c at next level, right associativity).

(** [try: body except Exception as e: handler(e)] *)
Definition try_except {A : Type} (body : result A) (handler : exn -> result A)
  : result A :=
  match body with
  | inl e => handler e
  | inr a => inr a
  end.

(** ** Signal reference mapper *)

Module Mapper.

(** A Python [str]: the sequence of its code points. *)
Definition pystr : Type := list N.

(** The [str] of a string of the model, whose characters are code
    points below 256. *)
Definition codes (s : string) : pystr :=
  map N_of_ascii (list_ascii_of_string s).

(** [==] on two [str]. *)
Fixpoint pystr_eqb (a b : pystr) : bool :=
  match a, b with
  | [], [] => true
  | x :: a', y :: b' => N.eqb x y && pystr_eqb a' b'
  | _, _ => false
  end.

(** The type that [pd.read_csv] gives to an identifier column: [int64]
    when every cell is an integer, [float64] when every cell is a number
    or empty, [object] otherwise. *)
Inductive dtype : Type := int64 | float64 | object.

(** A cell of a column of the type: an integer; a float, given by the
    text that [str] makes of it ("12.0" for 12), or NaN; a [str], or NaN
    for an empty cell. *)
Definition cell (d : dtype) : Type :=
  match d with
  | int64 => Z
  | float64 => option pystr
  | object => option pystr
  end.

(** [.astype(str)] *)
Definition astype_str (d : dtype) : cell d -> pystr :=
  match d with
  | int64 => fun n => codes (NilZero.string_of_int (Z.to_int n))
  | float64 => fun c => match c with Some repr => repr | None => codes "nan" end
  | object => fun c => match c with Some s => s | None => codes "nan" end
  end.

(** [str.isspace] of a character, that is what [str.strip()] removes:
    the controls 9 to 13 and 28 to 31, the space, and the white space of
    Unicode, U+0085, U+00A0, U+1680, U+2000 to U+200A, U+2028, U+2029,
    U+202F, U+205F and U+3000. *)
Definition is_space (c : N) : bool :=
  ((9 <=? c) && (c <=? 13) || (28 <=? c) && (c <=? 32)
   || (c =? 133) || (c =? 160) || (c =? 5760)
   || (8192 <=? c) && (c <=? 8202)
   || (c =? 8232) || (c =? 8233) || (c =? 8239) || (c =? 8287)
   || (c =? 12288))%N.

Fixpoint lstrip (s : pystr) : pystr :=
  match s with
  | [] => []
  | c :: t => if is_space c then lstrip t else s
  end.

Fixpoint rstrip (s : pystr) : pystr :=
  match s with
  | [] => []
  | c :: t =>
      match rstrip t with
      | [] => if is_space c then [] else [c]
      | t' => c :: t'
      end
  end.

(** [str.strip()] *)
Definition strip (s : pystr) : pystr := rstrip (lstrip s).

(** [col.astype(str).str.strip()] *)
Definition normalize_id (d : dtype) (c : cell d) : pystr :=
  strip (astype_str d c).

(** The signal list and the OHE master, as read: the names of their
    columns, the type of their identifier column, and their rows.  The
    fields of a row are read only when the table has the column. *)
Record SigCsv (d : dtype) := mkSigCsv {
  csv_SIGNAL_NAME : string;
  csv_OHE_FROM : cell d
}.
Arguments csv_SIGNAL_NAME {d} _.
Arguments csv_OHE_FROM {d} _.

Record OheCsv (d : dtype) := mkOheCsv {
  csv_OHEMas : cell d;
  csv_Latitude : option R;      (* [None]: a missing cell *)
  csv_Longitude : option R
}.
Arguments csv_OHEMas {d} _.
Arguments csv_Latitude {d} _.
Arguments csv_Longitude {d} _.

Record SigTable := mkSigTable {
  sig_columns : list string;
  sig_dtype : dtype;
  sig_csv : list (SigCsv sig_dtype)
}.

Record OheTable := mkOheTable {
  ohe_columns : list string;
  ohe_dtype : dtype;
  ohe_csv : list (OheCsv ohe_dtype)
}.

(** The rows after
    [ohe_df['OHEMas'] = ohe_df['OHEMas'].astype(str).str.strip()
     sig_df['OHE FROM'] = sig_df['OHE FROM'].astype(str).str.strip()]:
    the identifiers are [str]. *)
Record SigRow := mkSigRow {
  SIGNAL_NAME : string;
  OHE_FROM : pystr
}.

Record OheRow := mkOheRow {
  OHEMas : pystr;
  ohe_Latitude : option R;
  ohe_Longitude : option R
}.

Definition sig_rows (sig_df : SigTable) : list SigRow :=
  map (fun r => mkSigRow (csv_SIGNAL_NAME r)
                         (normalize_id (sig_dtype sig_df) (csv_OHE_FROM r)))
      (sig_csv sig_df).

Definition ohe_rows (ohe_df : OheTable) : list OheRow :=
  map (fun r => mkOheRow (normalize_id (ohe_dtype ohe_df) (csv_OHEMas r))
                         (csv_Latitude r) (csv_Longitude r))
      (ohe_csv ohe_df).

(** An uploaded file, which [pd.read_csv] can read or not. *)
Inductive upload (T : Type) : Type :=
| Unreadable
| Csv (t : T).
Arguments Unreadable {T}.
Arguments Csv {T} t.

(** [load_data(file)] *)
Definition load_data {T : Type} (file : upload T) : result T :=
  match file with
  | Unreadable => raise ParserError
  | Csv t => ret t
  end.

Definition has_column (name : string) (columns : list string) : bool :=
  existsb (String.eqb name) columns.

(** [df[name]] *)
Definition require (name : string) (columns : list string) : result unit :=
  if has_column name columns then ret tt else raise (KeyError name).

(** A row of [merged]: the row of the signal list, and the coordinates
    of the row of the master that it is joined to, NaN when there is
    none. *)
Record Merged := mkMerged {
  m_signal : SigRow;
  m_Latitude : option R;
  m_Longitude : option R
}.

Definition id_match (s : SigRow) (o : OheRow) : bool :=
  pystr_eqb (OHE_FROM s) (OHEMas o).

(** [sig_df.merge(ohe_df[['OHEMas','Latitude','Longitude']],
                  left_on='OHE FROM', right_on='OHEMas', how='left')] *)
Definition merge_left (sig : list SigRow) (ohe : list OheRow) : list Merged :=
  flat_map (fun s =>
              match filter (id_match s) ohe with
              | [] => [mkMerged s None None]
              | matches =>
                  map (fun o => mkMerged s (ohe_Latitude o) (ohe_Longitude o))
                      matches
              end) sig.

(** The statements from [load_data] to [merge]; the two assignments
    that normalize the identifiers are in [ohe_rows] and [sig_rows].  A
    column of the signal list that is named like a coordinate column of
    the master is renamed by [merge] (suffix [_x]), so that [dropna] does
    not find it. *)
Definition merged (signal_file : upload SigTable) (ohe_file : upload OheTable)
  : result (list string * list Merged) :=
  sig_df <- load_data signal_file ;;
  ohe_df <- load_data ohe_file ;;
  _ <- require "OHEMas" (ohe_columns ohe_df) ;;
  _ <- require "OHE FROM" (sig_columns sig_df) ;;
  _ <- require "Latitude" (ohe_columns ohe_df) ;;
  _ <- require "Longitude" (ohe_columns ohe_df) ;;
  ret (sig_columns sig_df, merge_left (sig_rows sig_df) (ohe_rows ohe_df)).

Definition dropna_subset (name : string) (sig_cols : list string) : result unit :=
  if has_column name sig_cols then raise (KeyError name) else ret tt.

(** A mapped signal of [app.py]: both coordinates are known. *)
Record Signal := mkSignal {
  signal_row : SigRow;
  sig_Latitude : R;
  sig_Longitude : R
}.

Definition keep_lat_lon (m : Merged) : list Signal :=
  match m_Latitude m, m_Longitude m with
  | Some la, Some lo => [mkSignal (m_signal m) la lo]
  | _, _ => []
  end.

(** A mapped signal of [streamlit_app.py]: the latitude is known. *)
Record SignalLat := mkSignalLat {
  lat_signal_row : SigRow;
  lat_Latitude : R;
  lat_Longitude : option R
}.

Definition keep_lat (m : Merged) : list SignalLat :=
  match m_Latitude m with
  | Some la => [mkSignalLat (m_signal m) la (m_Longitude m)]
  | None => []
  end.

(** The tables that [app.py] maps without exception: the columns that
    it reads are there, and the signal list has no coordinate column of
    its own. *)
Definition well_formed (sig : SigTable) (ohe : OheTable) : bool :=
  has_column "OHEMas" (ohe_columns ohe)
  && has_column "OHE FROM" (sig_columns sig)
  && has_column "Latitude" (ohe_columns ohe)
  && has_column "Longitude" (ohe_columns ohe)
  && negb (has_column "Latitude" (sig_columns sig))
  && negb (has_column "Longitude" (sig_columns sig)).

(** What the programs tell the user. *)
Inductive message : Type :=
| success_mapped (n : nat)     (* "Successfully mapped n signals." *)
| error_mapping (e : exn).     (* "Error mapping signals: e" *)

End Mapper.

(** The stoppage analysis of [app.py] (tab 2), from the uploaded frame:
    [valid_stops = stops[stops['Duration_min'] >= stop_dur]
                     .sort_values('Duration_min', ascending=False)] *)
Module App.
Import Telemetry Segmentation Mapper.

Definition valid_stops (fl : Float64) (sort_values : list Row -> list Row)
           (sort_stops : list Stop -> list Stop)
           (stop_thresh stop_dur : R) (loco_file : Frame) : list Stop :=
  let loco_df := sort_frame sort_values loco_file in
  sort_stops (retained stop_dur (stops fl stop_thresh (rows loco_df))).

(** [signals_mapped = merged.dropna(subset=['Latitude', 'Longitude'])] *)
Definition map_signals (signal_file : upload SigTable) (ohe_file : upload OheTable)
  : result (list Signal) :=
  m <- merged signal_file ohe_file ;;
  _ <- dropna_subset "Latitude" (fst m) ;;
  _ <- dropna_subset "Longitude" (fst m) ;;
  ret (flat_map keep_lat_lon (snd m)).

(** Step 2 of [app.py], "Process Reference Data (if provided)": the
    mapped signals and the messages shown.
    [signals_mapped = pd.DataFrame()
     if signal_file and ohe_file:
         try: ...; st.success(f"Successfully mapped {len(signals_mapped)} signals.")
         except Exception as e: st.error(f"Error mapping signals: {e}")] *)
Definition reference_step (signal_file : option (upload SigTable))
           (ohe_file : option (upload OheTable))
  : result (list Signal * list message) :=
  let signals_mapped : list Signal := [] in
  match signal_file, ohe_file with
  | Some sf, Some of_ =>
      try_except
        (signals_mapped <- map_signals sf of_ ;;
         ret (signals_mapped, [success_mapped (List.length signals_mapped)]))
        (fun e => ret (signals_mapped, [error_mapping e]))
  | _, _ => ret (signals_mapped, [])
  end.

(** *** Signal proximity and speed check (tab 3) *)

Record SignalPass := mkPass {
  pass_Signal : string;
  Pass_Time : Z;
  pass_Speed : R;
  Distance_to_Signal : R
}.

(** [Series.between(lo, hi)], both ends included. *)
Definition between (x lo hi : R) : bool := Rleb lo x && Rleb x hi.

(** [loco_df['Latitude'].between(sig['Latitude']-0.01, sig['Latitude']+0.01)
     & loco_df['Longitude'].between(sig['Longitude']-0.01, sig['Longitude']+0.01)]:
    the bounds are the floats that the two operations give. *)
Definition in_box (fl : Float64) (sig : Signal) (p : Row) : bool :=
  between (Latitude p) (minus_001 fl (sig_Latitude sig))
          (plus_001 fl (sig_Latitude sig))
  && between (Longitude p) (minus_001 fl (sig_Longitude sig))
             (plus_001 fl (sig_Longitude sig)).

Definition nearby (fl : Float64) (loco_df : list Row) (sig : Signal) : list Row :=
  filter (in_box fl sig) loco_df.

(** [haversine_vectorized(nearby['Latitude'], nearby['Longitude'],
                          sig['Latitude'], sig['Longitude'])] *)
Definition dist_to (sig : Signal) (p : Row) : option R :=
  Geodesic.haversine_vectorized (Latitude p) (Longitude p)
                                (sig_Latitude sig) (sig_Longitude sig).

(** [nearby.loc[nearby['dist'].idxmin()]]: the first row of the least
    distance, NaN left aside; none when every distance is NaN. *)
Fixpoint idxmin (l : list (Row * option R)) : option (Row * R) :=
  match l with
  | [] => None
  | (p, None) :: t => idxmin t
  | (p, Some d) :: t =>
      match idxmin t with
      | Some (q, e) => if Rltb e d then Some (q, e) else Some (p, d)
      | None => Some (p, d)
      end
  end.

(** The body of the loop over the mapped signals.  [columns] are the
    columns of [signals_mapped], those of the signal list among them:
    [sig['SIGNAL NAME']], which is read when a pass is recorded, raises
    [KeyError] without the column, and nothing catches it. *)
Definition match_signal (fl : Float64) (columns : list string)
           (loco_df : list Row) (sig : Signal)
  : result (option SignalPass) :=
  match nearby fl loco_df sig with
  | [] => ret None
  | nb =>
      match idxmin (map (fun p => (p, dist_to sig p)) nb) with
      | None => raise AllNaN
      | Some (closest, dist) =>
          if Rltb dist 200
          then _ <- require "SIGNAL NAME" columns ;;
               ret (Some (mkPass (SIGNAL_NAME (signal_row sig))
                                 (Logging_Time closest) (Speed closest) dist))
          else ret None
      end
  end.

(** [results = []; for _, sig in signals_mapped.iterrows(): ...]: the
    first exception ends the loop. *)
Fixpoint results (fl : Float64) (columns : list string)
         (loco_df : list Row) (signals_mapped : list Signal)
  : result (list SignalPass) :=
  match signals_mapped with
  | [] => ret []
  | sig :: t =>
      r <- match_signal fl columns loco_df sig ;;
      rs <- results fl columns loco_df t ;;
      ret (match r with Some pass => pass :: rs | None => rs end)
  end.

Inductive TrainType : Type := Coaching | Vande_Bharat | Freight.

(** [limit = 60 if train_type == "Coaching" else 40] *)
Definition limit (train_type : TrainType) : R :=
  match train_type with
  | Coaching => 60
  | _ => 40
  end.

(** [violations = sig_res_df[sig_res_df['Speed'] > limit]] *)
Definition violations (train_type : TrainType) (sig_res_df : list SignalPass)
  : list SignalPass :=
  filter (fun r => Rltb (limit train_type) (pass_Speed r)) sig_res_df.


End App.

(** The stoppage analysis of [streamlit_app.py]: the thresholds are
    constants, the retained stoppages are ordered by their start.  The
    column [Location], a rendering of [Lat] and [Lon] for the display, is
    left out. *)
Module Streamlit.
Import Telemetry Segmentation Mapper.

Definition stop_thresh : R := 2.
Definition min_dur_min : R := 2.

Definition valid_stops (fl : Float64) (sort_values : list Row -> list Row)
           (sort_stops : list Stop -> list Stop)
           (loco_file : Frame) : list Stop :=
  let df := sort_frame sort_values loco_file in
  sort_stops (retained min_dur_min (stops fl stop_thresh (rows df))).

(** [mapped_sigs = merged.dropna(subset=['Latitude'])] *)
Definition mapped_sigs (signal_file : upload SigTable) (ohe_file : upload OheTable)
  : result (list SignalLat) :=
  m <- merged signal_file ohe_file ;;
  _ <- dropna_subset "Latitude" (fst m) ;;
  ret (flat_map keep_lat (snd m)).

(** Step 3, "Logic: Signals (If available)": the value of
    [violations_df] after it.
    [violations_df = pd.DataFrame()
     if signal_file and ohe_file:
         ...
         mapped_sigs = merged.dropna(subset=['Latitude'])
         # ... [Code for signal checking would go here] ...] *)
Definition signals_step (signal_file : option (upload SigTable))
           (ohe_file : option (upload OheTable))
  : result (list App.SignalPass) :=
  let violations_df : list App.SignalPass := [] in
  match signal_file, ohe_file with
  | Some sf, Some of_ =>
      mapped_sigs <- mapped_sigs sf of_ ;;
      ret violations_df
  | _, _ => ret violations_df
  end.

(** *** The report *)

(** The form of the page. *)
Record TripDetails := mkTripDetails {
  lp_name : string; lp_id : string;
  alp_name : string; alp_id : string;
  cli : string;
  train_no : string; loco_no : string;
  type : App.TrainType;
  section : string;
  date : string;
  stop_dur : R
}.

(** The statistics of the trip; [None] is NaN, of an empty column. *)
Record Stats := mkStats {
  dist : option R;
  duration : option R;
  avg_speed : option R;
  max_speed : option R
}.

(** [Series.max()] of the values that are not missing. *)
Definition series_max (l : list R) : option R :=
  match l with [] => None | h :: t => Some (fold_left Rmax t h) end.

(** [Series.mean()] *)
Definition series_mean (fl : Float64) (l : list R) : option R :=
  match l with [] => None | _ => Some (mean fl l) end.

(** [(max - min).total_seconds() / 3600] of the timestamps. *)
Definition hours (l : list Z) : option R :=
  match l with
  | [] => None
  | _ => Some (IZR (agg_max l - agg_min l) / 1000000000 / 3600)
  end.

(** A section of the report: the table of a frame, or a paragraph. *)
Inductive block (A : Type) : Type :=
| Table (table_rows : list A)
| Paragraph (html : string).
Arguments Table {A} table_rows.
Arguments Paragraph {A} html.

Definition is_empty {A : Type} (l : list A) : bool :=
  match l with [] => true | _ => false end.

(** The report, section by section; the markup around the sections is
    constant. *)
Record HtmlReport := mkHtmlReport {
  crew_and_train : TripDetails;
  trip_summary : Stats;
  stoppage_count : nat;
  stoppage_analysis : block Stop;
  speed_violations : block App.SignalPass
}.

(** [generate_html_report(trip_details, stats, stoppages, violations)] *)
Definition generate_html_report (trip_details : TripDetails) (stats : Stats)
           (stoppages : list Stop) (violations : list App.SignalPass) : HtmlReport :=
  mkHtmlReport trip_details stats (List.length stoppages)
    (if negb (is_empty stoppages) then Table stoppages
     else Paragraph "<p>No significant stoppages.</p>")
    (if negb (is_empty violations) then Table violations
     else Paragraph
            "<p>No signal speed violations detected (or no signal data provided).</p>").

(** The trip details of the report: the form, and [min_dur_min]. *)
Definition trip_details_of (form : TripDetails) : TripDetails :=
  mkTripDetails (lp_name form) (lp_id form) (alp_name form) (alp_id form)
                (cli form) (train_no form) (loco_no form) (type form)
                (section form) (date form) min_dur_min.

(** The analysis, up to the call of [generate_html_report]: its four
    arguments. *)
Definition report_arguments (fl : Float64) (sort_values : list Row -> list Row)
           (sort_stops : list Stop -> list Stop)
           (form : TripDetails) (loco_file : Frame)
           (signal_file : option (upload SigTable))
           (ohe_file : option (upload OheTable))
  : result (TripDetails * Stats * list Stop * list App.SignalPass) :=
  let df := sort_frame sort_values loco_file in
  let valid_stops := valid_stops fl sort_values sort_stops loco_file in
  violations_df <- signals_step signal_file ohe_file ;;
  let stats := mkStats (series_max (present (cum_dist_km df)))
                       (hours (map Logging_Time (rows df)))
                       (series_mean fl (map Speed (rows df)))
                       (series_max (map Speed (rows df))) in
  ret (trip_details_of form, stats, valid_stops, violations_df).

Definition analyze (fl : Float64) (sort_values : list Row -> list Row)
           (sort_stops : list Stop -> list Stop)
           (form : TripDetails) (loco_file : Frame)
           (signal_file : option (upload SigTable))
           (ohe_file : option (upload OheTable)) : result HtmlReport :=
  args <- report_arguments fl sort_values sort_stops form loco_file
                           signal_file ohe_file ;;
  let '(trip_details, stats, stoppages, violations) := args in
  ret (generate_html_report trip_details stats stoppages violations).

End Streamlit.

(** ** Scenarios of the specification *)

(** One minute, in nanoseconds, and five timestamps one minute apart. *)
Definition minute : Z := 60000000000.

Definition scenario_times (t0 : Z) : list Z :=
  [t0; t0 + minute; t0 + 2 * minute; t0 + 3 * minute; t0 + 4 * minute]%Z.

(** The telemetry of the stoppage scenario: speeds 50, 1, 1, 1, 60 at
    one-minute intervals. *)
Definition scenario_row (t : Z) (speed : R) : Telemetry.Row :=
  Telemetry.mkRow t 0 0 speed (Some 0) None.

Definition scenario_frame : Telemetry.Frame :=
  Telemetry.mkFrame false false
    [scenario_row 0 50; scenario_row minute 1; scenario_row (2 * minute) 1;
     scenario_row (3 * minute) 1; scenario_row (4 * minute) 60].

(** Two stoppages: the train stands for a minute, moves for a minute,
    and stands for a minute. *)
Definition two_stops_frame : Telemetry.Frame :=
  Telemetry.mkFrame false false
    [scenario_row 0 1; scenario_row minute 1; scenario_row (2 * minute) 50;
     scenario_row (3 * minute) 1; scenario_row (4 * minute) 1].

(** Two rows of the scenario, the later one first. *)
Definition unordered_frame : Telemetry.Frame :=
  Telemetry.mkFrame false false [scenario_row minute 1; scenario_row 0 50].

(** A point that moves, with a station code, and a point without one. *)
Definition moving_row : Telemetry.Row :=
  Telemetry.mkRow 0 0 0 50 (Some 0) (Some "A"%string).

Definition uncoded_row : Telemetry.Row :=
  Telemetry.mkRow 0 0 0 1 (Some 0) None.

(** Two points 0.0005 degrees of latitude apart, in a frame without the
    column of incremental distances. *)
Definition two_points_frame : Telemetry.Frame :=
  Telemetry.mkFrame false false
    [Telemetry.mkRow 0 0 0 10 None None;
     Telemetry.mkRow minute 0.0005 0 10 None None].

(** A frame with the column of incremental distances, none negative. *)
Definition forward_frame : Telemetry.Frame :=
  Telemetry.mkFrame true false
    [Telemetry.mkRow 0 0 0 10 (Some 5) None;
     Telemetry.mkRow minute 0 0 10 (Some 3) None].

(** A frame whose second incremental distance is negative. *)
Definition backward_frame : Telemetry.Frame :=
  Telemetry.mkFrame true false
    [Telemetry.mkRow 0 0 0 10 (Some 5) None;
     Telemetry.mkRow minute 0 0 10 (Some (-3)) None].

(** A frame whose second cell of incremental distance is empty. *)
Definition gap_frame : Telemetry.Frame :=
  Telemetry.mkFrame true false
    [Telemetry.mkRow 0 0 0 10 (Some 5) None;
     Telemetry.mkRow minute 0 0 10 None None;
     Telemetry.mkRow (2 * minute) 0 0 10 (Some 3) None].

(** The OHE master and three signal lists: one whose identifier is in
    the master up to surrounding blanks, one whose identifier is not in
    the master, one without the column of identifiers. *)
Definition master_table : Mapper.OheTable :=
  Mapper.mkOheTable ["OHEMas"; "Latitude"; "Longitude"]%string Mapper.object
    [Mapper.mkOheCsv Mapper.object (Some (Mapper.codes "A1")) (Some 0) (Some 0)].

Definition matched_signals : Mapper.SigTable :=
  Mapper.mkSigTable ["SIGNAL NAME"; "OHE FROM"]%string Mapper.object
    [Mapper.mkSigCsv Mapper.object "S1" (Some (Mapper.codes " A1 "))].

Definition unmatched_signals : Mapper.SigTable :=
  Mapper.mkSigTable ["SIGNAL NAME"; "OHE FROM"]%string Mapper.object
    [Mapper.mkSigCsv Mapper.object "S1" (Some (Mapper.codes "B7"))].

Definition signals_without_id : Mapper.SigTable :=
  Mapper.mkSigTable ["SIGNAL NAME"]%string Mapper.object
    [Mapper.mkSigCsv Mapper.object "S1" None].

(** The signal at (0, 0) and a telemetry point 0.0005 degrees north of
    it, passed at 70 km/h. *)
Definition signal_at_origin : Mapper.Signal :=
  Mapper.mkSignal (Mapper.mkSigRow "S1" (Mapper.codes "A1")) 0 0.

Definition fast_point : Telemetry.Row :=
  Telemetry.mkRow 0 0.0005 0 70 None None.

Definition fast_frame : Telemetry.Frame :=
  Telemetry.mkFrame false false [fast_point].

(** A signal at the latitude of 1 degree and a telemetry point 0.003
    degrees east of it, about 333 m away. *)
Definition signal_at_1 : Mapper.Signal :=
  Mapper.mkSignal (Mapper.mkSigRow "S2" (Mapper.codes "A2")) 1 0.



Definition east_point : Telemetry.Row :=
  Telemetry.mkRow 0 1 0.003 70 None None.


Definition blank_form : Streamlit.TripDetails :=
  Streamlit.mkTripDetails "" "" "" "" "" "" "" App.Coaching "" "" 0.

(** ** Auxiliary definitions of the proofs *)

(** The sum of a column. *)
Definition total (l : list R) : R := fold_right Rplus 0 l.

(** The sum of the values that are not missing among the first [i + 1]
    of a column. *)
Definition prefix_sum (l : list (option R)) (i : nat) : R :=
  total (Telemetry.present (firstn (S i) l)).

(** The running sum at the row [i], in kilometers: NaN where the cell
    of the row is missing. *)
Definition running_km (l : list (option R)) (i : nat) : option R :=
  match nth_error l i with
  | Some (Some _) => Some (prefix_sum l i / 1000)
  | _ => None
  end.

(** The running sums of a column without missing values. *)
Fixpoint running_sums (acc : R) (l : list R) : list R :=
  match l with
  | [] => []
  | x :: t => (acc + x) :: running_sums (acc + x) t
  end.

(** A column of numbers is non-decreasing. *)
Definition ascending (l : list R) : Prop :=
  forall i a b, nth_error l i = Some a -> nth_error l (S i) = Some b -> a <= b.

(** An incremental distance that is there and is not negative; one that
    is not negative if it is there. *)
Definition measured (c : option R) : Prop :=
  match c with Some x => 0 <= x | None => False end.

Definition forward (c : option R) : Prop :=
  match c with Some x => 0 <= x | None => True end.

(** Exact arithmetic, an instance of the contract [rounds]. *)
Definition exact_mean (l : list R) : R := total l / INR (List.length l).

Definition exact_arith : Float64 :=
  mkFloat64 (fun x => x - 0.01) (fun x => x + 0.01) exact_mean.


(** [ne_shift], by recursion on the column, the previous value at hand. *)
Fixpoint flags_from {A : Type} (ne : A -> A -> bool) (prev : option A)
         (col : list A) : list bool :=
  match col with
  | [] => []
  | x :: t =>
      (match prev with None => true | Some y => ne x y end)
        :: flags_from ne (Some x) t
  end.

(** The rows of the groups, one key after the other. *)
Definition rows_of_groups {A : Type} (groups : list (nat * list A)) : list A :=
  List.concat (map snd groups).

(** The rows of a frame under each key of a list, one key after the other. *)
Definition pieces {A : Type} (key : A -> nat) (l : list A) (ks : list nat) : list A :=
  List.concat (map (fun k => filter (fun r => (key r =? k)%nat) l) ks).

(** The signal pass that the loop of [app.py] records for the point [p]
    at the distance [d]. *)
Definition pass_of (sig : Mapper.Signal) (p : Telemetry.Row) (d : R) : App.SignalPass :=
  App.mkPass (Mapper.SIGNAL_NAME (Mapper.signal_row sig))
             (Telemetry.Logging_Time p) (Telemetry.Speed p) d.

(** An insertion sort: an instance of the contract [sorts_by]. *)
Fixpoint insert_by {A : Type} (leb : A -> A -> bool) (x : A) (l : list A) : list A :=
  match l with
  | [] => [x]
  | h :: t => if leb x h then x :: l else h :: insert_by leb x t
  end.

Definition insertion_sort {A : Type} (leb : A -> A -> bool) (l : list A) : list A :=
  fold_right (insert_by leb) [] l.

Definition time_leb (r1 r2 : Telemetry.Row) : bool :=
  (Telemetry.Logging_Time r1 <=? Telemetry.Logging_Time r2)%Z.

(** The comparison of a sort that puts a row after the rows of the same
    timestamp. *)
Definition time_ltb (r1 r2 : Telemetry.Row) : bool :=
  (Telemetry.Logging_Time r1 <? Telemetry.Logging_Time r2)%Z.

Definition duration_desc_leb (s1 s2 : Segmentation.Stop) : bool :=
  Rleb (Segmentation.Duration_min s2) (Segmentation.Duration_min s1).

Definition start_leb (s1 s2 : Segmentation.Stop) : bool :=
  (Segmentation.StartTime s1 <=? Segmentation.StartTime s2)%Z.

(** The statistics and the stoppages of [fast_frame]. *)
Definition fast_stats (fl : Float64) : Streamlit.Stats :=
  let df := Telemetry.sort_frame (insertion_sort time_leb) fast_frame in
  Streamlit.mkStats
    (Streamlit.series_max (Telemetry.present (Telemetry.cum_dist_km df)))
    (Streamlit.hours (map Telemetry.Logging_Time (Telemetry.rows df)))
    (Streamlit.series_mean fl (map Telemetry.Speed (Telemetry.rows df)))
    (Streamlit.series_max (map Telemetry.Speed (Telemetry.rows df))).

Definition fast_stoppages (fl : Float64) : list Segmentation.Stop :=
  Streamlit.valid_stops fl (insertion_sort time_leb) (insertion_sort start_leb)
                        fast_frame.

(** ** Key figures of the trip

    [app.py]:
    [total_dist = loco_df['Distance_km'].max()
     avg_spd = loco_df['Speed'].mean()
     max_spd = loco_df['Speed'].max()
     duration = (loco_df['Logging Time'].max() - loco_df['Logging Time'].min())
                  .total_seconds() / 3600]
    and the same figures of [streamlit_app.py], of [cum_dist_km].  The
    maximum leaves the missing values out; the maximum and the mean of a
    column without values are NaN, [None]. *)

Module Kpi.
Import Telemetry.

Definition total_dist (loco_df : Frame) : option R :=
  Streamlit.series_max (present (Distance_km loco_df)).

Definition avg_spd (fl : Float64) (loco_df : Frame) : option R :=
  Streamlit.series_mean fl (map Speed (rows loco_df)).

Definition max_spd (loco_df : Frame) : option R :=
  Streamlit.series_max (map Speed (rows loco_df)).

Definition duration (loco_df : Frame) : option R :=
  Streamlit.hours (map Logging_Time (rows loco_df)).

(** [stats] of [streamlit_app.py]. *)
Definition stats (fl : Float64) (df : Frame) : Streamlit.Stats :=
  Streamlit.mkStats (Streamlit.series_max (present (cum_dist_km df)))
                    (Streamlit.hours (map Logging_Time (rows df)))
                    (Streamlit.series_mean fl (map Speed (rows df)))
                    (Streamlit.series_max (map Speed (rows df))).

End Kpi.

(** ** Further auxiliary definitions *)

(** The mapped signal of [app.py] that a mapped signal of
    [streamlit_app.py] stands for, when its longitude is known. *)
Definition with_longitude (g : Mapper.SignalLat) : list Mapper.Signal :=
  match Mapper.lat_Longitude g with
  | Some lo => [Mapper.mkSignal (Mapper.lat_signal_row g) (Mapper.lat_Latitude g) lo]
  | None => []
  end.

(** The tables that [streamlit_app.py] maps without exception: a
    column [Longitude] of the signal list does no harm there. *)
Definition well_formed_streamlit (sig : Mapper.SigTable) (ohe : Mapper.OheTable) : bool :=
  Mapper.has_column "OHEMas" (Mapper.ohe_columns ohe)
  && Mapper.has_column "OHE FROM" (Mapper.sig_columns sig)
  && Mapper.has_column "Latitude" (Mapper.ohe_columns ohe)
  && Mapper.has_column "Longitude" (Mapper.ohe_columns ohe)
  && negb (Mapper.has_column "Latitude" (Mapper.sig_columns sig)).

(** A frame with the column of station codes: one row at the station
    "A", then a row without code. *)
Definition station_frame : Telemetry.Frame :=
  Telemetry.mkFrame false true [moving_row; uncoded_row].

(** The summary of its first section. *)
Definition station_section (fl : Float64) : Segmentation.SectStat :=
  Segmentation.sect_agg fl (1%nat, [(1%nat, moving_row)]).

(** A master with two rows of the identifier "A1" up to blanks, the
    second without longitude. *)
Definition doubled_master : Mapper.OheTable :=
  Mapper.mkOheTable ["OHEMas"; "Latitude"; "Longitude"]%string Mapper.object
    [Mapper.mkOheCsv Mapper.object (Some (Mapper.codes "A1")) (Some 0) (Some 0);
     Mapper.mkOheCsv Mapper.object (Some (Mapper.codes "A1 ")) (Some 1) None].

(* ------------------------------------------------------------------ *)
(** * Properties *)

(** ** Comparisons *)

Lemma Rleb_true (x y : R) : Rleb x y = true <-> x <= y.
Proof. unfold Rleb; destruct (Rle_dec x y); split; intros; try easy. Qed.

Lemma Rleb_false (x y : R) : Rleb x y = false <-> y < x.
Proof.
  unfold Rleb; destruct (Rle_dec x y); split; intros; try easy; lra.
Qed.

Lemma Rltb_true (x y : R) : Rltb x y = true <-> x < y.
Proof. unfold Rltb; destruct (Rlt_dec x y); split; intros; try easy. Qed.

Lemma Rltb_false (x y : R) : Rltb x y = false <-> y <= x.
Proof.
  unfold Rltb; destruct (Rlt_dec x y); split; intros; try easy; lra.
Qed.

Lemma Rabs_le_inv (a b : R) : Rabs a <= b -> - b <= a <= b.
Proof. unfold Rabs. destruct (Rcase_abs a); lra. Qed.

(** ** Facts about the geodesic distance *)

Module GeodesicFacts.
Import Geodesic.

Lemma radians_0 : radians 0 = 0.
Proof. unfold radians; lra. Qed.

Lemma radians_opp (d : R) : radians (- d) = - radians d.
Proof. unfold radians; lra. Qed.

Lemma sin_half_sqr_opp (x : R) : sin (- x / 2) ^ 2 = sin (x / 2) ^ 2.
Proof.
  replace (- x / 2) with (- (x / 2)) by lra.
  rewrite sin_neg; ring.
Qed.

Lemma hav_a_sym (lat1 lon1 lat2 lon2 : R) :
  hav_a lat1 lon1 lat2 lon2 = hav_a lat2 lon2 lat1 lon1.
Proof.
  unfold hav_a; cbv zeta.
  replace (lat1 - lat2) with (- (lat2 - lat1)) by lra.
  replace (lon1 - lon2) with (- (lon2 - lon1)) by lra.
  rewrite !radians_opp, !sin_half_sqr_opp; ring.
Qed.

Lemma hav_a_self (lat lon : R) : hav_a lat lon lat lon = 0.
Proof.
  unfold hav_a; cbv zeta.
  replace (lat - lat) with 0 by lra; replace (lon - lon) with 0 by lra.
  rewrite radians_0.
  replace (0 / 2) with 0 by lra.
  rewrite sin_0; ring.
Qed.

(** The distance is symmetric, NaN included. *)
Lemma haversine_sym (lat1 lon1 lat2 lon2 : R) :
  haversine_vectorized lat1 lon1 lat2 lon2 =
  haversine_vectorized lat2 lon2 lat1 lon1.
Proof. unfold haversine_vectorized; now rewrite hav_a_sym. Qed.

Lemma np_arctan2_0_1 : np_arctan2 0 1 = 0.
Proof.
  unfold np_arctan2.
  destruct (Rlt_dec 0 1) as [_ | H]; [ | lra ].
  replace (0 / 1) with 0 by lra.
  apply atan_0.
Qed.

(** The distance from a point to itself is 0. *)
Lemma haversine_self (lat lon : R) :
  haversine_vectorized lat lon lat lon = Some 0.
Proof.
  unfold haversine_vectorized, hav_of_a, np_sqrt.
  rewrite hav_a_self.
  replace (1 - 0) with 1 by lra.
  destruct (Rle_dec 0 0) as [_ | H]; [ | lra ].
  destruct (Rle_dec 0 1) as [_ | H]; [ | lra ].
  rewrite sqrt_0, sqrt_1, np_arctan2_0_1.
  f_equal; lra.
Qed.

(** For an angle [t] of the first quadrant, [arctan2] recovers [t] from
    the square roots of [sin t ^ 2] and of its complement. *)
Lemma hav_of_sin_sqr (t : R) :
  0 <= t <= PI / 2 ->
  hav_of_a (sin t ^ 2) = Some (R_earth * (2 * t)).
Proof.
  intros [H0 H1].
  assert (Hs : 0 <= sin t) by (apply sin_ge_0; lra).
  assert (Hc : 0 <= cos t) by (apply cos_ge_0; lra).
  assert (E : 1 - sin t ^ 2 = cos t ^ 2).
  { generalize (sin2_cos2 t); unfold Rsqr; lra. }
  unfold hav_of_a, np_sqrt.
  destruct (Rle_dec 0 (sin t ^ 2)) as [_ | H]; [ | exfalso; apply H; nra ].
  destruct (Rle_dec 0 (1 - sin t ^ 2)) as [_ | H];
    [ | exfalso; apply H; rewrite E; nra ].
  rewrite E.
  replace (sin t ^ 2) with (Rsqr (sin t)) by (unfold Rsqr; ring).
  replace (cos t ^ 2) with (Rsqr (cos t)) by (unfold Rsqr; ring).
  rewrite !sqrt_Rsqr by assumption.
  do 3 f_equal.
  unfold np_arctan2.
  destruct (Rlt_dec 0 (cos t)) as [Hpos | Hnpos].
  - assert (Ht : t < PI / 2).
    { destruct (Rle_lt_or_eq_dec _ _ H1) as [Hlt | Heq]; [ exact Hlt | ].
      rewrite Heq, cos_PI2 in Hpos; lra. }
    change (sin t / cos t) with (tan t).
    apply atan_tan; lra.
  - assert (Hz : cos t = 0) by lra.
    destruct (Rlt_dec (cos t) 0) as [Hneg | _]; [ lra | ].
    assert (Ht : t = PI / 2).
    { destruct (Rle_lt_or_eq_dec _ _ H1) as [Hlt | Heq]; [ | exact Heq ].
      assert (0 < cos t) by (apply cos_gt_0; lra).
      lra. }
    subst t. rewrite sin_PI2.
    destruct (Rlt_dec 0 1) as [_ | H]; [ reflexivity | lra ].
Qed.

Lemma PI_bounds : 3.14 < PI < 3.15.
Proof.
  generalize (PI_2_3_7_ineq 1).
  unfold sum_f_R0, tg_alt, PI_2_3_7_tg, Ratan_seq; simpl.
  intros [Hl Hu]. split; lra.
Qed.

(** Two points of one meridian no more than 180 degrees apart: the
    distance is the radius times the difference of the latitudes, in
    radians. *)
Lemma haversine_meridian (lat1 lat2 lon : R) :
  -180 <= lat2 - lat1 <= 180 ->
  haversine_vectorized lat1 lon lat2 lon
  = Some (R_earth * Rabs (radians (lat2 - lat1))).
Proof.
  intros Hd. generalize PI_bounds; intros HPI.
  unfold haversine_vectorized.
  set (d := radians (lat2 - lat1)).
  assert (Hd' : - PI <= d <= PI).
  { unfold d, radians. split; nra. }
  assert (Ea : hav_a lat1 lon lat2 lon = sin (Rabs d / 2) ^ 2).
  { unfold hav_a; cbv zeta. fold d.
    replace (lon - lon) with 0 by lra. rewrite radians_0.
    replace (0 / 2) with 0 by lra. rewrite sin_0.
    unfold Rabs. destruct (Rcase_abs d).
    - rewrite sin_half_sqr_opp. ring.
    - ring. }
  rewrite Ea, hav_of_sin_sqr.
  - do 2 f_equal. lra.
  - unfold Rabs. destruct (Rcase_abs d); lra.
Qed.

(** The distance of the source between the points (1, 0) and (1, 180),
    and the haversine formula there. *)
Lemma haversine_1_0_1_180 :
  haversine_vectorized 1 0 1 180 = Some (R_earth * (PI - 2)).
Proof.
  generalize PI2_1; intros HPI.
  unfold haversine_vectorized.
  assert (Ea : hav_a 1 0 1 180 = sin (PI / 2 - 1) ^ 2).
  { unfold hav_a; cbv zeta.
    replace (1 - 1) with 0 by lra. rewrite radians_0.
    replace (0 / 2) with 0 by lra. rewrite sin_0.
    replace (radians (180 - 0) / 2) with (PI / 2) by (unfold radians; lra).
    rewrite sin_PI2, sin_shift. ring. }
  rewrite Ea, hav_of_sin_sqr; [ | lra ].
  do 2 f_equal. lra.
Qed.

Lemma formula_1_0_1_180 :
  haversine_formula 1 0 1 180 = Some (R_earth * (PI - PI / 90)).
Proof.
  generalize PI_bounds; intros HPI.
  unfold haversine_formula.
  assert (Ea : formula_a 1 0 1 180 = sin (PI / 2 - radians 1) ^ 2).
  { unfold formula_a; cbv zeta.
    replace (1 - 1) with 0 by lra. rewrite radians_0.
    replace (0 / 2) with 0 by lra. rewrite sin_0.
    replace (radians (180 - 0) / 2) with (PI / 2) by (unfold radians; lra).
    rewrite sin_PI2, sin_shift. ring. }
  rewrite Ea, hav_of_sin_sqr; [ | unfold radians; lra ].
  do 2 f_equal. unfold radians. lra.
Qed.

(** *** The distance is defined within the bounding box *)

Lemma sin_lower (a : R) : 0 <= a <= 1 -> a / 2 <= sin a.
Proof.
  intros [H0 H1].
  destruct (pre_sin_bound a 0 H0 ltac:(lra)) as [Hl _].
  unfold sin_approx, sin_term in Hl; simpl in Hl.
  assert (a * a <= 1) by nra.
  assert (a * (a * a) <= a) by nra.
  lra.
Qed.

Lemma sin_sqr_le (x : R) : -1 <= x <= 1 -> sin x ^ 2 <= x ^ 2.
Proof.
  intros [Hl Hu]. generalize PI_bounds; intros HPI.
  destruct (Rle_lt_dec 0 x) as [Hx | Hx].
  - assert (0 <= sin x) by (apply sin_ge_0; lra).
    assert (sin x <= x).
    { destruct (Req_dec x 0) as [-> | Hn]; [ rewrite sin_0; lra | ].
      left; apply sin_lt_x; lra. }
    nra.
  - assert (x < sin x) by (apply sin_gt_x; lra).
    assert (sin x <= 0).
    { replace x with (- (- x)) by lra. rewrite sin_neg.
      assert (0 <= sin (- x)) by (apply sin_ge_0; lra). lra. }
    nra.
Qed.

Lemma sin_sqr_ge (x : R) : -1 <= x <= 1 -> x ^ 2 / 4 <= sin x ^ 2.
Proof.
  intros [Hl Hu].
  destruct (Rle_lt_dec 0 x) as [Hx | Hx].
  - assert (x / 2 <= sin x) by (apply sin_lower; lra). nra.
  - assert (H : - x / 2 <= sin (- x)) by (apply sin_lower; lra).
    rewrite sin_neg in H. nra.
Qed.

Lemma cos_prod_lower (x y : R) : - sin ((x - y) / 2) ^ 2 <= cos x * cos y.
Proof.
  generalize (cos_minus x y) (cos_plus x y) (COS_bound (x + y))
             (cos_2a_sin ((x - y) / 2)).
  replace (2 * ((x - y) / 2)) with (x - y) by lra.
  intros. lra.
Qed.

(** Whatever the signs of the cosines of the degrees, [a] stays between
    0 and 1 when both differences are at most 0.01 degrees. *)
Lemma hav_a_in_box (lat1 lon1 lat2 lon2 : R) :
  -0.01 <= lat2 - lat1 <= 0.01 -> -0.01 <= lon2 - lon1 <= 0.01 ->
  0 <= hav_a lat1 lon1 lat2 lon2 <= 1.
Proof.
  intros Hd He. unfold hav_a, radians; cbv zeta.
  generalize PI_bounds; intros HPI.
  set (d := lat2 - lat1) in *. set (e := lon2 - lon1) in *.
  set (u := d * PI / 180 / 2). set (v := e * PI / 180 / 2).
  assert (Hu : -1 <= u <= 1) by (unfold u; split; nra).
  assert (Hv : -1 <= v <= 1) by (unfold v; split; nra).
  assert (Su := sin_sqr_le u Hu). assert (Sv := sin_sqr_le v Hv).
  assert (Lu := sin_sqr_ge u Hu).
  assert (Hh : -1 <= (lat1 - lat2) / 2 <= 1) by (unfold d in Hd; split; lra).
  assert (Sh := sin_sqr_le _ Hh).
  assert (Cl := cos_prod_lower lat1 lat2).
  assert (Cu : cos lat1 * cos lat2 <= 1).
  { generalize (COS_bound lat1) (COS_bound lat2). intros. nra. }
  assert (Pv : 0 <= sin v ^ 2) by nra.
  assert (Pu : 0 <= sin u ^ 2) by nra.
  assert (Ev : v ^ 2 <= 1 / 100000000).
  { unfold v. assert (-0.0001 <= e * PI / 180 / 2 <= 0.0001) by (split; nra). nra. }
  assert (Eu : u ^ 2 <= 1 / 100000000).
  { unfold u. assert (-0.0001 <= d * PI / 180 / 2 <= 0.0001) by (split; nra). nra. }
  assert (Ed : ((lat1 - lat2) / 2) ^ 2 = d ^ 2 / 4) by (unfold d; field).
  assert (Eu2 : u ^ 2 = d ^ 2 * (PI ^ 2 / 129600)) by (unfold u; field).
  assert (HP : 9 <= PI ^ 2) by nra.
  assert (Hd2 : 0 <= d ^ 2) by nra.
  split.
  - assert (K1 : cos lat1 * cos lat2 * sin v ^ 2
                 >= - (d ^ 2 / 4) * (1 / 100000000)).
    { assert (cos lat1 * cos lat2 * sin v ^ 2
              >= - sin ((lat1 - lat2) / 2) ^ 2 * sin v ^ 2) by nra.
      assert (sin ((lat1 - lat2) / 2) ^ 2 * sin v ^ 2
              <= (d ^ 2 / 4) * (1 / 100000000)).
      { rewrite <- Ed. apply Rmult_le_compat; nra. }
      lra. }
    assert (K2 : sin u ^ 2 >= d ^ 2 * (9 / 129600) / 4).
    { rewrite Eu2 in Lu. nra. }
    nra.
  - assert (cos lat1 * cos lat2 * sin v ^ 2 <= sin v ^ 2) by nra.
    lra.
Qed.

Lemma hav_of_a_defined (a : R) :
  0 <= a <= 1 -> exists d, hav_of_a a = Some d.
Proof.
  intros [H0 H1]. unfold hav_of_a, np_sqrt.
  destruct (Rle_dec 0 a); [ | lra ].
  destruct (Rle_dec 0 (1 - a)); [ | lra ].
  eexists; reflexivity.
Qed.

Lemma haversine_in_box (lat1 lon1 lat2 lon2 : R) :
  -0.01 <= lat2 - lat1 <= 0.01 -> -0.01 <= lon2 - lon1 <= 0.01 ->
  exists d, haversine_vectorized lat1 lon1 lat2 lon2 = Some d.
Proof.
  intros Hd He. apply hav_of_a_defined. now apply hav_a_in_box.
Qed.

(** The same in a box of 0.02 degrees, which holds the box of the
    matcher whatever the rounding of its bounds. *)
Lemma hav_a_in_wide_box (lat1 lon1 lat2 lon2 : R) :
  -0.02 <= lat2 - lat1 <= 0.02 -> -0.02 <= lon2 - lon1 <= 0.02 ->
  0 <= hav_a lat1 lon1 lat2 lon2 <= 1.
Proof.
  intros Hd He. unfold hav_a, radians; cbv zeta.
  generalize PI_bounds; intros HPI.
  set (d := lat2 - lat1) in *. set (e := lon2 - lon1) in *.
  set (u := d * PI / 180 / 2). set (v := e * PI / 180 / 2).
  assert (Hu : -1 <= u <= 1) by (unfold u; split; nra).
  assert (Hv : -1 <= v <= 1) by (unfold v; split; nra).
  assert (Su := sin_sqr_le u Hu). assert (Sv := sin_sqr_le v Hv).
  assert (Lu := sin_sqr_ge u Hu).
  assert (Hh : -1 <= (lat1 - lat2) / 2 <= 1) by (unfold d in Hd; split; lra).
  assert (Sh := sin_sqr_le _ Hh).
  assert (Cl := cos_prod_lower lat1 lat2).
  assert (Cu : cos lat1 * cos lat2 <= 1).
  { generalize (COS_bound lat1) (COS_bound lat2). intros. nra. }
  assert (Pv : 0 <= sin v ^ 2) by nra.
  assert (Pu : 0 <= sin u ^ 2) by nra.
  assert (Ev : v ^ 2 <= 1 / 10000000).
  { unfold v. assert (-0.0002 <= e * PI / 180 / 2 <= 0.0002) by (split; nra). nra. }
  assert (Eu : u ^ 2 <= 1 / 10000000).
  { unfold u. assert (-0.0002 <= d * PI / 180 / 2 <= 0.0002) by (split; nra). nra. }
  assert (Ed : ((lat1 - lat2) / 2) ^ 2 = d ^ 2 / 4) by (unfold d; field).
  assert (Eu2 : u ^ 2 = d ^ 2 * (PI ^ 2 / 129600)) by (unfold u; field).
  assert (HP : 9 <= PI ^ 2) by nra.
  assert (Hd2 : 0 <= d ^ 2) by nra.
  split.
  - assert (K1 : cos lat1 * cos lat2 * sin v ^ 2
                 >= - (d ^ 2 / 4) * (1 / 10000000)).
    { assert (cos lat1 * cos lat2 * sin v ^ 2
              >= - sin ((lat1 - lat2) / 2) ^ 2 * sin v ^ 2) by nra.
      assert (sin ((lat1 - lat2) / 2) ^ 2 * sin v ^ 2
              <= (d ^ 2 / 4) * (1 / 10000000)).
      { rewrite <- Ed. apply Rmult_le_compat; nra. }
      lra. }
    assert (K2 : sin u ^ 2 >= d ^ 2 * (9 / 129600) / 4).
    { rewrite Eu2 in Lu. nra. }
    nra.
  - assert (cos lat1 * cos lat2 * sin v ^ 2 <= sin v ^ 2) by nra.
    lra.
Qed.

(** *** The arcsine form of the distance *)

Lemma sin_lower3 (a : R) : 0 <= a <= 4 -> a - a * a * a / 6 <= sin a.
Proof.
  intros [H0 H1].
  destruct (pre_sin_bound a 0 H0 H1) as [Hl _].
  unfold sin_approx, sin_term in Hl; simpl in Hl. lra.
Qed.

Lemma cos_bounds4 (a : R) :
  -2 <= a <= 2 -> 1 - a * a / 2 <= cos a <= 1 - a * a / 2 + a * a * a * a / 24.
Proof.
  intros [H0 H1].
  destruct (pre_cos_bound a 0 H0 H1) as [Hl Hu].
  unfold cos_approx, cos_term in Hl, Hu; simpl in Hl, Hu. split; lra.
Qed.

(** Where it is defined the distance is [R * 2 * asin (sqrt a)]: the
    [arctan2] of the source is the arcsine of the haversine formula. *)
Lemma hav_of_a_asin (a : R) :
  0 <= a <= 1 -> hav_of_a a = Some (R_earth * (2 * asin (sqrt a))).
Proof.
  intros [H0 H1]. generalize PI_bounds; intros HPI.
  assert (Hx0 : 0 <= sqrt a) by apply sqrt_pos.
  assert (Hx1 : sqrt a <= 1).
  { rewrite <- sqrt_1. apply sqrt_le_1; lra. }
  destruct (asin_bound (sqrt a)) as [Hl Hu].
  assert (Hs : sin (asin (sqrt a)) = sqrt a) by (apply sin_asin; lra).
  assert (Ht : 0 <= asin (sqrt a)).
  { destruct (Rle_lt_dec 0 (asin (sqrt a))) as [H | H]; [ exact H | ].
    assert (sin (asin (sqrt a)) < 0) by (apply sin_lt_0_var; lra). lra. }
  assert (Ea : a = sin (asin (sqrt a)) ^ 2).
  { rewrite Hs. simpl. rewrite Rmult_1_r. symmetry. now apply sqrt_sqrt. }
  rewrite Ea at 1. apply hav_of_sin_sqr. lra.
Qed.

Lemma asin_lt_angle (x y : R) :
  0 <= x <= 1 -> 0 <= y <= PI / 2 -> x < sin y -> asin x < y.
Proof.
  intros Hx Hy Hlt. generalize PI_bounds; intros HPI.
  destruct (asin_bound x) as [Hl Hu].
  apply sin_increasing_0; try lra.
  rewrite sin_asin; lra.
Qed.

Lemma angle_lt_asin (x z : R) :
  0 <= x <= 1 -> 0 <= z <= PI / 2 -> sin z < x -> z < asin x.
Proof.
  intros Hx Hz Hlt. generalize PI_bounds; intros HPI.
  destruct (asin_bound x) as [Hl Hu].
  apply sin_increasing_0; try lra.
  rewrite sin_asin; lra.
Qed.

(** The distance when [a] is the square of [c * sin w]. *)
Lemma hav_of_product (c w : R) :
  0 <= c <= 1 -> 0 <= w <= 1 ->
  hav_of_a ((c * sin w) ^ 2) = Some (R_earth * (2 * asin (c * sin w))).
Proof.
  intros Hc Hw. generalize PI_bounds; intros HPI.
  assert (Hs0 : 0 <= sin w) by (apply sin_ge_0; lra).
  assert (Hs1 : sin w <= 1) by (generalize (SIN_bound w); lra).
  assert (Hp : 0 <= c * sin w <= 1) by (split; nra).
  rewrite hav_of_a_asin by (split; nra).
  do 4 f_equal.
  replace ((c * sin w) ^ 2) with (Rsqr (c * sin w)) by (unfold Rsqr; ring).
  apply sqrt_Rsqr; lra.
Qed.

(** A telemetry point 0.003 degrees east of a signal, at the latitude of
    1 degree: the source computes less than 182 m, the haversine formula
    more than 330 m. *)
Lemma haversine_east_code :
  exists d, haversine_vectorized 1 0.003 1 0 = Some d /\ d < 182.
Proof.
  generalize PI_bounds; intros HPI.
  set (w := 0.003 * PI / 360).
  assert (Hw : 0.0000261 < w < 0.00002625) by (unfold w; split; lra).
  destruct (cos_bounds4 1 ltac:(lra)) as [Cl Cu].
  assert (Ea : hav_a 1 0.003 1 0 = (cos 1 * sin w) ^ 2).
  { unfold hav_a, radians; cbv zeta.
    replace ((1 - 1) * PI / 180 / 2) with 0 by lra. rewrite sin_0.
    replace ((0 - 0.003) * PI / 180 / 2) with (- w) by (unfold w; lra).
    rewrite sin_neg. ring. }
  unfold haversine_vectorized. rewrite Ea, hav_of_product by lra.
  eexists; split; [ reflexivity | ].
  assert (Hs0 : 0 <= sin w) by (apply sin_ge_0; lra).
  assert (Hsw : sin w <= w).
  { left. apply sin_lt_x. lra. }
  set (y := 91 / 6371000).
  assert (Hy : 0.0000142 < y < 0.0000143) by (unfold y; split; lra).
  assert (Hsy : y - y * y * y / 6 <= sin y) by (apply sin_lower3; lra).
  assert (Hlt : cos 1 * sin w < sin y).
  { assert (cos 1 * sin w <= 0.5417 * 0.00002625) by (apply Rmult_le_compat; lra).
    assert (y * y * y <= 0.0000143 * 0.0000143 * 0.0000143).
    { assert (y * y <= 0.0000143 * 0.0000143) by nra. nra. }
    unfold y in *. lra. }
  assert (asin (cos 1 * sin w) < y).
  { apply asin_lt_angle; try lra. split; nra. }
  unfold R_earth, y in *. lra.
Qed.

Lemma haversine_east_formula :
  exists d, haversine_formula 1 0.003 1 0 = Some d /\ 330 < d.
Proof.
  generalize PI_bounds; intros HPI.
  set (w := 0.003 * PI / 360).
  assert (Hw : 0.00002616 < w < 0.00002625) by (unfold w; split; lra).
  destruct (cos_bounds4 (radians 1) ltac:(unfold radians; lra)) as [Cl Cu].
  assert (Hr : 0.0174 < radians 1 < 0.0175) by (unfold radians; lra).
  assert (Ea : formula_a 1 0.003 1 0 = (cos (radians 1) * sin w) ^ 2).
  { unfold formula_a; cbv zeta.
    replace (radians (1 - 1) / 2) with 0 by (unfold radians; lra). rewrite sin_0.
    replace (radians (0 - 0.003) / 2) with (- w) by (unfold w, radians; lra).
    rewrite sin_neg. ring. }
  assert (Hc1 : cos (radians 1) <= 1) by (generalize (COS_bound (radians 1)); lra).
  assert (Hc0 : 0.9998 <= cos (radians 1)) by nra.
  unfold haversine_formula. rewrite Ea, hav_of_product by lra.
  eexists; split; [ reflexivity | ].
  assert (Hs0 : 0 <= sin w) by (apply sin_ge_0; lra).
  assert (Hs1 : sin w <= 1) by (generalize (SIN_bound w); lra).
  assert (Hsw : w - w * w * w / 6 <= sin w) by (apply sin_lower3; lra).
  assert (Hsw' : 0.00002615 <= sin w).
  { assert (w * w <= 0.0001 * 0.0001) by nra.
    assert (w * w * w <= 0.0001 * 0.0001 * 0.0001) by nra. lra. }
  set (z := 165 / 6371000).
  assert (Hz : 0.0000258 < z < 0.0000259) by (unfold z; split; lra).
  assert (Hsz : sin z < z) by (apply sin_lt_x; lra).
  assert (Hlt : sin z < cos (radians 1) * sin w) by nra.
  assert (z < asin (cos (radians 1) * sin w)).
  { apply angle_lt_asin; try lra. split; nra. }
  unfold R_earth, z in *. lra.
Qed.
(** C1: the code is not the haversine formula.  [haversine_vectorized]
    converts the latitudes to radians ([phi1], [phi2]) and then takes the
    cosines of the latitudes in degrees.  Between the points (1, 0) and
    (1, 180), which the great circle over the pole joins in 178 degrees,
    the formula gives [R * PI * 178 / 180], about 19 793 km, and the code
    gives [R * (PI - 2)], about 7 273 km.  Between the points (1, 0.003)
    and (1, 0), which the matcher compares, the formula gives more than
    330 m and the code less than 182 m.  The distance from a point to
    itself is 0 and the distance is symmetric, as claimed. *)
Theorem haversine_cosines_of_degrees :
  haversine_vectorized 1 0 1 180 = Some (R_earth * (PI - 2))
  /\ haversine_formula 1 0 1 180 = Some (R_earth * (PI * 178 / 180))
  /\ R_earth * (PI * 178 / 180) - R_earth * (PI - 2) > 12000000
  /\ (exists d d',
         haversine_vectorized 1 0.003 1 0 = Some d
         /\ haversine_formula 1 0.003 1 0 = Some d'
         /\ d < 182 /\ 330 < d')
  /\ (forall lat lon, haversine_vectorized lat lon lat lon = Some 0)
  /\ (forall lat1 lon1 lat2 lon2,
         haversine_vectorized lat1 lon1 lat2 lon2
         = haversine_vectorized lat2 lon2 lat1 lon1).
Proof.
  split; [ exact haversine_1_0_1_180 | ].
  split; [ rewrite formula_1_0_1_180; do 2 f_equal; lra | ].
  split; [ generalize PI_bounds; unfold R_earth; intros HPI; lra | ].
  split.
  - destruct haversine_east_code as (d & Hd & Hlt).
    destruct haversine_east_formula as (d' & Hd' & Hgt).
    exists d, d'. tauto.
  - split; [ exact haversine_self | exact haversine_sym ].
Qed.

End GeodesicFacts.

(** ** Sorting *)

Module SortFacts.

Section Insertion.
Context {A : Type} (leb : A -> A -> bool) (le : A -> A -> Prop).
Hypothesis leb_le : forall a b, leb a b = true -> le a b.
Hypothesis leb_false : forall a b, leb a b = false -> le b a.

Lemma insert_by_perm (x : A) (l : list A) :
  Permutation (insert_by leb x l) (x :: l).
Proof.
  induction l as [ | h t IH ]; simpl; [ reflexivity | ].
  destruct (leb x h); [ reflexivity | ].
  rewrite IH. apply perm_swap.
Qed.

Lemma insert_by_sorted (x : A) (l : list A) :
  Sorted le l -> Sorted le (insert_by leb x l).
Proof.
  induction l as [ | h t IH ]; simpl; intros Hs.
  - repeat constructor.
  - destruct (leb x h) eqn:E.
    + constructor; [ exact Hs | constructor; now apply leb_le ].
    + inversion Hs as [ | ? ? Ht Hh ]; subst.
      constructor; [ now apply IH | ].
      assert (Hhx : le h x) by now apply leb_false.
      destruct t as [ | h' t' ]; simpl.
      * now constructor.
      * destruct (leb x h'); constructor; [ exact Hhx | ].
        now inversion Hh.
Qed.

Lemma insertion_sort_sorts : sorts_by le (insertion_sort leb).
Proof.
  intros l; induction l as [ | x t [IHp IHs] ]; simpl.
  - split; [ reflexivity | constructor ].
  - split.
    + rewrite insert_by_perm. now constructor.
    + now apply insert_by_sorted.
Qed.
End Insertion.

(** A list whose keys increase strictly is left as it is by every sort
    of the contract. *)
Section Unique.
Context {A : Type} (key : A -> Z).

Let le (a b : A) : Prop := (key a <= key b)%Z.
Let lt (a b : A) : Prop := (key a < key b)%Z.

Lemma sorted_le_head (x : A) (l : list A) :
  Sorted le (x :: l) -> forall y, In y l -> (key x <= key y)%Z.
Proof.
  intros Hs.
  apply Sorted_StronglySorted in Hs.
  - inversion Hs as [ | ? ? _ Hall ]; subst.
    intros y Hy. rewrite Forall_forall in Hall. now apply Hall.
  - intros a b c; unfold le; lia.
Qed.

Lemma sorted_perm_unique (l l' : list A) :
  StronglySorted lt l -> Permutation l' l -> Sorted le l' -> l' = l.
Proof.
  intros Hl; revert l'.
  induction Hl as [ | x t Ht IH Hall ]; intros l' Hp Hs.
  - now apply Permutation_nil, Permutation_sym.
  - destruct l' as [ | y t' ].
    + apply Permutation_nil in Hp. discriminate.
    + assert (Hy : In y (x :: t)).
      { apply (Permutation_in _ Hp). now left. }
      assert (Hx : In x (y :: t')).
      { apply (Permutation_in _ (Permutation_sym Hp)). now left. }
      assert (E : y = x).
      { destruct Hy as [Hy | Hy]; [ now symmetry | ].
        destruct Hx as [Hx | Hx]; [ exact Hx | ].
        rewrite Forall_forall in Hall.
        generalize (Hall _ Hy); unfold lt; intros H1.
        generalize (sorted_le_head _ _ Hs _ Hx); intros H2. lia. }
      subst y. f_equal. apply IH.
      * now apply Permutation_cons_inv in Hp.
      * now inversion Hs.
Qed.
End Unique.

Lemma sorts_singleton {A : Type} (le : A -> A -> Prop) (sort : list A -> list A) (x : A) :
  sorts_by le sort -> sort [x] = [x].
Proof.
  intros H. destruct (H [x]) as [Hp _].
  apply Permutation_sym in Hp. now apply Permutation_length_1_inv in Hp.
Qed.

Lemma sorts_nil {A : Type} (le : A -> A -> Prop) (sort : list A -> list A) :
  sorts_by le sort -> sort [] = [].
Proof.
  intros H. destruct (H []) as [Hp _]. now apply Permutation_nil, Permutation_sym.
Qed.

(** The insertion sorts by timestamp, by duration and by start meet the
    contract. *)
Lemma time_sort_sorts :
  sorts_by Telemetry.by_Logging_Time (insertion_sort time_leb).
Proof.
  apply insertion_sort_sorts; unfold time_leb, Telemetry.by_Logging_Time.
  - intros a b H. now apply Z.leb_le.
  - intros a b H. apply Z.leb_gt in H. lia.
Qed.

Lemma duration_sort_sorts :
  sorts_by Segmentation.by_Duration_desc (insertion_sort duration_desc_leb).
Proof.
  apply insertion_sort_sorts; unfold duration_desc_leb, Segmentation.by_Duration_desc.
  - intros a b H. now apply Rleb_true.
  - intros a b H. apply Rleb_false in H. lra.
Qed.

Lemma start_sort_sorts :
  sorts_by Segmentation.by_Start (insertion_sort start_leb).
Proof.
  apply insertion_sort_sorts; unfold start_leb, Segmentation.by_Start.
  - intros a b H. now apply Z.leb_le.
  - intros a b H. apply Z.leb_gt in H. lia.
Qed.

Lemma time_sort_after_sorts :
  sorts_by Telemetry.by_Logging_Time (insertion_sort time_ltb).
Proof.
  apply insertion_sort_sorts; unfold time_ltb, Telemetry.by_Logging_Time.
  - intros a b H. apply Z.ltb_lt in H. lia.
  - intros a b H. now apply Z.ltb_ge in H.
Qed.

(** The contract leaves the order of rows with equal timestamps open:
    of two sorts that meet it, one keeps two such rows in their order
    and the other exchanges them.  The source asks [sort_values] for no
    stable algorithm ([kind] is left to its default), so that the order
    of such rows is that of the sorting code of the library. *)
Lemma tie_order_not_in_contract :
  sorts_by Telemetry.by_Logging_Time (insertion_sort time_leb)
  /\ sorts_by Telemetry.by_Logging_Time (insertion_sort time_ltb)
  /\ insertion_sort time_leb [scenario_row 0 50; scenario_row 0 1]
     = [scenario_row 0 50; scenario_row 0 1]
  /\ insertion_sort time_ltb [scenario_row 0 50; scenario_row 0 1]
     = [scenario_row 0 1; scenario_row 0 50].
Proof.
  split; [ exact time_sort_sorts | ].
  split; [ exact time_sort_after_sorts | ].
  split; reflexivity.
Qed.

End SortFacts.

(** ** Telemetry normalizer *)

Module TelemetryFacts.
Import Telemetry Geodesic GeodesicFacts.

Lemma prefix_sum_cons_Some (x : R) (t : list (option R)) (i : nat) :
  prefix_sum (Some x :: t) (S i) = x + prefix_sum t i.
Proof. reflexivity. Qed.

Lemma prefix_sum_cons_None (t : list (option R)) (i : nat) :
  prefix_sum (None :: t) (S i) = prefix_sum t i.
Proof. reflexivity. Qed.

(** The running sum, value by value: where the cell is there, the sum
    of the cells up to it that are there; NaN where it is missing. *)
Lemma cumsum_from_nth (acc : R) (l : list (option R)) (i : nat) :
  nth_error (cumsum_from acc l) i
  = match nth_error l i with
    | Some (Some _) => Some (Some (acc + prefix_sum l i))
    | Some None => Some None
    | None => None
    end.
Proof.
  revert acc i; induction l as [ | c t IH ]; intros acc i.
  - destruct i; reflexivity.
  - destruct c as [x | ], i as [ | i ]; cbn [cumsum_from nth_error].
    + do 2 f_equal. unfold prefix_sum, total; simpl. lra.
    + rewrite IH, prefix_sum_cons_Some.
      destruct (nth_error t i) as [[y | ] | ]; try reflexivity.
      do 2 f_equal. lra.
    + reflexivity.
    + rewrite IH, prefix_sum_cons_None. reflexivity.
Qed.

Lemma cumsum_from_length (acc : R) (l : list (option R)) :
  List.length (cumsum_from acc l) = List.length l.
Proof.
  revert acc; induction l as [ | [x | ] t IH ]; intros; simpl; auto.
Qed.

Lemma cumsum_km_nth (l : list (option R)) (i : nat) :
  nth_error (map div_1000 (cumsum l)) i
  = match nth_error l i with
    | Some _ => Some (running_km l i)
    | None => None
    end.
Proof.
  unfold cumsum, running_km. rewrite nth_error_map, cumsum_from_nth.
  destruct (nth_error l i) as [[x | ] | ]; try reflexivity.
  simpl. do 3 f_equal. lra.
Qed.

(** The cumulative distance as a list: at each row, the running sum in
    kilometers. *)
Lemma cumsum_km_running (l : list (option R)) :
  map div_1000 (cumsum l) = map (running_km l) (seq 0 (List.length l)).
Proof.
  apply nth_error_ext; intros i.
  rewrite cumsum_km_nth, nth_error_map, nth_error_seq.
  destruct (Nat.ltb_spec i (List.length l)) as [Hi | Hi].
  - destruct (nth_error l i) eqn:E; [ reflexivity | ].
    apply nth_error_None in E. lia.
  - apply nth_error_None in Hi. now rewrite Hi.
Qed.

Lemma non_decreasing_cumsum_from (acc : R) (l : list (option R)) :
  (hd_error l <> Some None) -> Forall measured (tl l) ->
  non_decreasing (cumsum_from acc l).
Proof.
  revert acc; induction l as [ | c t IH ]; intros acc Hhd Hall i a b Ha Hb.
  - destruct i; discriminate.
  - simpl in Hall.
    destruct c as [x | ]; [ | now contradiction Hhd ].
    destruct i as [ | i ]; cbn [cumsum_from nth_error] in Ha, Hb.
    + destruct t as [ | [y | ] t' ]; [ discriminate | | ];
        inversion Hall as [ | ? ? Hy Ht ]; subst; [ | destruct Hy ].
      simpl in Hb, Hy. injection Ha as <-. injection Hb as <-. simpl. lra.
    + apply (IH (acc + x)) with (i := i); auto.
      * destruct t as [ | [y | ] t' ]; simpl; try discriminate.
        inversion Hall as [ | ? ? Hy Ht ]; subst. destruct Hy.
      * destruct t; simpl; [ constructor | ]. now inversion Hall.
Qed.

Lemma non_decreasing_cumsum_inv (acc : R) (l : list (option R)) :
  (2 <= List.length l)%nat -> non_decreasing (cumsum_from acc l) ->
  hd_error l <> Some None /\ Forall measured (tl l).
Proof.
  revert acc; induction l as [ | c t IH ]; intros acc Hlen H; simpl in Hlen; [ lia | ].
  destruct t as [ | y t' ]; [ simpl in Hlen; lia | ].
  assert (H0 := H 0%nat).
  destruct c as [x | ], y as [y | ]; cbn [cumsum_from nth_error] in H0;
    try (now destruct (H0 _ _ eq_refl eq_refl)).
  assert (Hy : 0 <= y).
  { generalize (H0 _ _ eq_refl eq_refl). simpl. lra. }
  split; [ discriminate | ].
  simpl. constructor; [ exact Hy | ].
  destruct t' as [ | z t'' ]; [ constructor | ].
  apply (IH (acc + x)); [ simpl; lia | ].
  intros i a b Ha Hb. apply (H (S i)); assumption.
Qed.

Lemma non_decreasing_scale (l : list (option R)) :
  non_decreasing l <-> non_decreasing (map div_1000 l).
Proof.
  split; intros H i a b Ha Hb.
  - rewrite nth_error_map in Ha, Hb.
    destruct (nth_error l i) as [a' | ] eqn:Ea; [ | discriminate ].
    destruct (nth_error l (S i)) as [b' | ] eqn:Eb; [ | discriminate ].
    injection Ha as <-. injection Hb as <-.
    generalize (H _ _ _ Ea Eb).
    destruct a' as [x | ], b' as [y | ]; simpl; try tauto. lra.
  - generalize (H i (div_1000 a) (div_1000 b)).
    rewrite !nth_error_map, Ha, Hb. simpl. intros H'.
    generalize (H' eq_refl eq_refl).
    destruct a as [x | ], b as [y | ]; simpl; try tauto. lra.
Qed.

Lemma non_decreasing_arange (n : nat) :
  non_decreasing (map (fun i => Some (i * 0.01)) (arange n)).
Proof.
  intros i a b. unfold arange. rewrite !nth_error_map.
  destruct (nth_error (seq 0 n) i) as [x | ] eqn:Ex; [ | discriminate ].
  destruct (nth_error (seq 0 n) (S i)) as [y | ] eqn:Ey; [ | discriminate ].
  simpl. intros Ha Hb. injection Ha as <-. injection Hb as <-.
  assert (Hi : (i < List.length (seq 0 n))%nat)
    by (apply nth_error_Some; congruence).
  assert (Hj : (S i < List.length (seq 0 n))%nat)
    by (apply nth_error_Some; congruence).
  rewrite length_seq in Hi, Hj.
  rewrite nth_error_seq in Ex, Ey.
  destruct (Nat.ltb_spec i n); [ | lia ].
  destruct (Nat.ltb_spec (S i) n); [ | lia ].
  injection Ex as <-. injection Ey as <-.
  cbn [Nat.add cell_le]. rewrite S_INR. lra.
Qed.

Lemma Forall_tl {A : Type} (P : A -> Prop) (l : list A) :
  Forall P l -> Forall P (tl l).
Proof. destruct 1; simpl; [ constructor | assumption ]. Qed.

Lemma Forall_zeros {A : Type} (l : list A) :
  Forall measured (map (fun _ : A => Some 0) l).
Proof. induction l; simpl; constructor; auto; simpl; lra. Qed.

Lemma measured_head (l : list (option R)) :
  Forall measured l -> hd_error l <> Some None.
Proof.
  destruct 1 as [ | [x | ] t Hx Ht ]; simpl; try discriminate. destruct Hx.
Qed.

(** With the column of incremental distances and at least two rows, the
    cumulative distance of either program is non-decreasing exactly when
    no cell of the column is empty and no incremental distance after the
    first row is negative. *)
Lemma non_decreasing_iff (st : bool) (l : list Row) :
  (2 <= List.length l)%nat ->
  let f := mkFrame true st l in
  let cells := map distFromPrevLatLng l in
  (non_decreasing (Distance_km f)
   <-> hd_error cells <> Some None /\ Forall measured (tl cells))
  /\ (non_decreasing (cum_dist_km f)
   <-> hd_error cells <> Some None /\ Forall measured (tl cells)).
Proof.
  intros Hlen. unfold Distance_km, cum_dist_km; simpl.
  rewrite <- !non_decreasing_scale. unfold cumsum.
  assert (Hl : (2 <= List.length (map distFromPrevLatLng l))%nat)
    by now rewrite length_map.
  split; split;
    solve [ now apply non_decreasing_cumsum_inv
          | intros [H1 H2]; now apply non_decreasing_cumsum_from ].
Qed.

(** The cumulative distance of a frame whose incremental distances, if
    it has the column, are all there and are not negative. *)
Lemma non_decreasing_frame (f : Frame) :
  (has_distFromPrevLatLng f = true ->
   Forall (fun r => measured (distFromPrevLatLng r)) (rows f)) ->
  non_decreasing (Distance_km f) /\ non_decreasing (cum_dist_km f).
Proof.
  intros H. unfold Distance_km, cum_dist_km.
  destruct (has_distFromPrevLatLng f).
  - specialize (H eq_refl).
    assert (Hall : Forall measured (map distFromPrevLatLng (rows f)))
      by (rewrite Forall_map; exact H).
    split; apply (proj1 (non_decreasing_scale _)), non_decreasing_cumsum_from;
      solve [ now apply measured_head | now apply Forall_tl ].
  - split.
    + apply non_decreasing_arange.
    + apply (proj1 (non_decreasing_scale _)), non_decreasing_cumsum_from;
        [ apply measured_head | apply Forall_tl ]; apply Forall_zeros.
Qed.

(** C10, as the code has it.  Nothing in the normalizer rejects a
    negative incremental distance or fills an empty cell.  For every
    frame that has no column of incremental distances, or whose
    incremental distances are all there and none of them negative, the
    cumulative distance of both programs is non-decreasing, whatever the
    sort of the contract. *)
Theorem cumulative_distance_non_decreasing
        (sort_values : list Row -> list Row) (loco_file : Frame) :
  sorts_by by_Logging_Time sort_values ->
  (has_distFromPrevLatLng loco_file = true ->
   Forall (fun r => exists x, distFromPrevLatLng r = Some x /\ 0 <= x)
          (rows loco_file)) ->
  non_decreasing (normalize_app sort_values loco_file)
  /\ non_decreasing (normalize_streamlit sort_values loco_file).
Proof.
  intros Hsort Hpos. unfold normalize_app, normalize_streamlit.
  apply non_decreasing_frame. simpl. intros Hc.
  destruct (Hsort (rows loco_file)) as [Hp _].
  eapply Permutation_Forall; [ apply Permutation_sym; exact Hp | ].
  eapply Forall_impl; [ | now apply Hpos ].
  intros r (x & E & Hx). now rewrite E.
Qed.

(** A frame with the incremental distances 5 and 3. *)
Lemma cumulative_distance_witness :
  non_decreasing (normalize_app (insertion_sort time_leb) forward_frame)
  /\ non_decreasing (normalize_streamlit (insertion_sort time_leb) forward_frame).
Proof.
  apply (cumulative_distance_non_decreasing (insertion_sort time_leb) forward_frame).
  - exact SortFacts.time_sort_sorts.
  - intros _. simpl.
    repeat constructor; eexists; (split; [ reflexivity | lra ]).
Defined.

(** C10, as it is stated, fails: with the incremental distances 5 and
    -3 the cumulative distance falls from 0.005 km to 0.002 km. *)
Lemma cumulative_distance_decreases :
  normalize_app (insertion_sort time_leb) backward_frame
  = [Some ((0 + 5) / 1000); Some ((0 + 5 + -3) / 1000)]
  /\ ~ non_decreasing (normalize_app (insertion_sort time_leb) backward_frame)
  /\ ~ non_decreasing (normalize_streamlit (insertion_sort time_leb) backward_frame).
Proof.
  assert (E : normalize_app (insertion_sort time_leb) backward_frame
              = [Some ((0 + 5) / 1000); Some ((0 + 5 + -3) / 1000)])
    by reflexivity.
  assert (E' : normalize_streamlit (insertion_sort time_leb) backward_frame
              = [Some ((0 + 5) / 1000); Some ((0 + 5 + -3) / 1000)])
    by reflexivity.
  split; [ exact E | ].
  rewrite E'. rewrite E.
  split; intros H;
    generalize (H 0%nat _ _ eq_refl eq_refl); simpl; lra.
Qed.

(** An empty cell of the column stays NaN in the cumulative distance,
    which then is not non-decreasing although no incremental distance is
    negative: with the cells 5, empty and 3 the cumulative distance is
    0.005 km, NaN and 0.008 km in both programs. *)
Lemma cumulative_distance_with_gap :
  normalize_app (insertion_sort time_leb) gap_frame
  = [Some ((0 + 5) / 1000); None; Some ((0 + 5 + 3) / 1000)]
  /\ normalize_streamlit (insertion_sort time_leb) gap_frame
     = normalize_app (insertion_sort time_leb) gap_frame
  /\ Forall (fun r => forward (distFromPrevLatLng r)) (rows gap_frame)
  /\ ~ non_decreasing (normalize_app (insertion_sort time_leb) gap_frame).
Proof.
  assert (E : normalize_app (insertion_sort time_leb) gap_frame
              = [Some ((0 + 5) / 1000); None; Some ((0 + 5 + 3) / 1000)])
    by reflexivity.
  split; [ exact E | ]. split; [ reflexivity | ].
  split; [ simpl; repeat constructor; simpl; lra | ].
  rewrite E. intros H. exact (H 0%nat _ _ eq_refl eq_refl).
Qed.

Lemma two_points_sorted :
  rows (sort_frame (insertion_sort time_leb) two_points_frame)
  = rows two_points_frame.
Proof. reflexivity. Qed.

Lemma two_points_geodesic :
  haversine_vectorized 0 0 0.0005 0 = Some (R_earth * (0.0005 * PI / 180)).
Proof.
  rewrite haversine_meridian by lra.
  do 2 f_equal. unfold radians.
  generalize PI_bounds; intros HPI.
  rewrite Rabs_pos_eq; lra.
Qed.

(** C2: the first half holds, the fallback is not the one of the claim.
    With the column of incremental distances, the cumulative distance of
    both programs is the running sum divided by 1000, of the cells that
    are not empty, and NaN at an empty cell.  Without it, [app.py]
    invents 0.01 km a row (its comment announces a "simple haversine
    step") and [streamlit_app.py] takes every step to be 0: for two
    points 0.0005 degrees of latitude apart, about 55.6 m, the cumulative
    distances are [0; 0.01] and [0; 0], not [0; 0.0556]. *)
Theorem cumulative_distance_fallback_is_not_geodesic :
  (forall (st : bool) (l : list Row),
      Distance_km (mkFrame true st l)
      = map (running_km (map distFromPrevLatLng l)) (seq 0 (List.length l))
      /\ cum_dist_km (mkFrame true st l) = Distance_km (mkFrame true st l))
  /\ (forall (l : list (option R)) (i : nat) (x : R),
         Forall (fun c => c <> None) l -> nth_error l i = Some (Some x) ->
         running_km l i
         = Some (fold_right Rplus 0 (firstn (S i) (present l)) / 1000))
  /\ normalize_app (insertion_sort time_leb) two_points_frame
     = [Some (0 * 0.01); Some (1 * 0.01)]
  /\ normalize_streamlit (insertion_sort time_leb) two_points_frame
     = [Some ((0 + 0) / 1000); Some ((0 + 0 + 0) / 1000)]
  /\ (exists d : R,
         spec_fallback_km (rows (sort_frame (insertion_sort time_leb) two_points_frame))
         = [Some ((0 + 0) / 1000); Some d]
         /\ 0.055 < d < 0.056).
Proof.
  split; [ | split; [ | split; [ | split ] ] ].
  - intros st l. unfold Distance_km, cum_dist_km; simpl. split; [ | reflexivity ].
    rewrite cumsum_km_running, length_map. reflexivity.
  - intros l i x Hall Hi. unfold running_km, prefix_sum, total. rewrite Hi.
    do 3 f_equal. clear Hi. revert i.
    induction Hall as [ | [y | ] t Hy Ht IH ]; intros i;
      [ now destruct i | | now contradiction Hy ].
    destruct i as [ | i ]; [ reflexivity | ].
    change (firstn (S (S i)) (Some y :: t)) with (Some y :: firstn (S i) t).
    cbn [present]. change (firstn (S (S i)) (y :: present t))
      with (y :: firstn (S i) (present t)).
    f_equal. apply (IH i).
  - reflexivity.
  - reflexivity.
  - rewrite two_points_sorted.
    exists ((0 + 0 + R_earth * (0.0005 * PI / 180)) / 1000). split.
    + unfold spec_fallback_km, two_points_frame; simpl.
      now rewrite two_points_geodesic.
    + generalize PI_bounds; unfold R_earth; intros HPI. lra.
Qed.

End TelemetryFacts.

(** ** Segmentation *)

Module SegmentationFacts.
Import Telemetry Segmentation.

(** *** The group counter *)

Lemma ne_shift_from {A : Type} (ne : A -> A -> bool) (d : option A) (col : list A) :
  map (fun p => match snd p with None => true | Some y => ne (fst p) y end)
      (combine col (removelast (d :: map Some col)))
  = flags_from ne d col.
Proof.
  revert d; induction col as [ | x t IH ]; intros d; [ reflexivity | ].
  change (removelast (d :: map Some (x :: t)))
    with (d :: removelast (Some x :: map Some t)).
  simpl combine. simpl map. simpl flags_from.
  f_equal. apply IH.
Qed.

Lemma ne_shift_flags {A : Type} (ne : A -> A -> bool) (col : list A) :
  ne_shift ne col = flags_from ne None col.
Proof. apply ne_shift_from. Qed.

Lemma flags_from_length {A : Type} (ne : A -> A -> bool) (d : option A) (col : list A) :
  List.length (flags_from ne d col) = List.length col.
Proof. revert d; induction col; intros; simpl; auto. Qed.

Lemma cumsum_bool_from_length (acc : nat) (l : list bool) :
  List.length (cumsum_bool_from acc l) = List.length l.
Proof. revert acc; induction l; intros; simpl; auto. Qed.

Lemma cumsum_bool_from_ge (acc : nat) (l : list bool) :
  Forall (le acc) (cumsum_bool_from acc l).
Proof.
  revert acc; induction l as [ | b t IH ]; intros acc; simpl; constructor.
  - lia.
  - eapply Forall_impl; [ | apply IH ]. simpl; intros; lia.
Qed.

Lemma cumsum_bool_from_sorted (acc : nat) (l : list bool) :
  StronglySorted le (cumsum_bool_from acc l).
Proof.
  revert acc; induction l as [ | b t IH ]; intros acc; simpl; constructor.
  - apply IH.
  - apply cumsum_bool_from_ge.
Qed.

(** *** Frames with a column of group numbers *)

Lemma combine_fst {A B : Type} (l : list A) (l' : list B) :
  List.length l = List.length l' -> map fst (combine l l') = l.
Proof.
  revert l'; induction l as [ | a t IH ]; intros [ | b t' ]; simpl; intros H;
    try discriminate; [ reflexivity | ].
  f_equal; apply IH; lia.
Qed.

Lemma combine_filter_snd {A B : Type} (P : B -> bool) (l : list A) (l' : list B) :
  List.length l = List.length l' ->
  map snd (filter (fun p => P (snd p)) (combine l l')) = filter P l'.
Proof.
  revert l'; induction l as [ | a t IH ]; intros [ | b t' ]; simpl; intros H;
    try discriminate; [ reflexivity | ].
  destruct (P b); simpl; [ f_equal | ]; apply IH; lia.
Qed.

Lemma filter_sorted {A : Type} (key : A -> nat) (P : A -> bool) (l : list A) :
  StronglySorted le (map key l) -> StronglySorted le (map key (filter P l)).
Proof.
  induction l as [ | x t IH ]; simpl; intros Hs; [ constructor | ].
  inversion Hs as [ | ? ? Ht Hall ]; subst.
  destruct (P x); simpl; [ constructor | ]; auto.
  rewrite Forall_forall in *.
  intros k Hk. apply Hall.
  rewrite in_map_iff in *. destruct Hk as (r & Hr & Hin).
  exists r; split; [ exact Hr | ].
  apply filter_In in Hin. tauto.
Qed.

(** *** The keys of [groupby] *)

Lemma insert_key_In (k x : nat) (ks : list nat) :
  In x (insert_key k ks) <-> x = k \/ In x ks.
Proof.
  induction ks as [ | h t IH ]; simpl.
  - intuition.
  - destruct (Nat.ltb_spec k h) as [Hlt | Hge]; simpl; [ intuition | ].
    destruct (Nat.eqb_spec k h) as [He | Hne]; simpl.
    + subst; intuition.
    + rewrite IH. intuition.
Qed.

Lemma insert_key_sorted (k : nat) (ks : list nat) :
  StronglySorted lt ks -> StronglySorted lt (insert_key k ks).
Proof.
  induction ks as [ | h t IH ]; simpl; intros Hs.
  - repeat constructor.
  - inversion Hs as [ | ? ? Ht Hall ]; subst.
    destruct (Nat.ltb_spec k h) as [Hlt | Hge].
    + constructor; [ exact Hs | ].
      constructor; [ exact Hlt | ].
      eapply Forall_impl; [ | exact Hall ]. simpl; intros; lia.
    + destruct (Nat.eqb_spec k h) as [He | Hne]; [ exact Hs | ].
      constructor; [ now apply IH | ].
      rewrite Forall_forall in *. intros x Hx.
      apply insert_key_In in Hx. destruct Hx as [-> | Hx]; [ lia | now apply Hall ].
Qed.

Lemma group_keys_In (x : nat) (ks : list nat) :
  In x (group_keys ks) <-> In x ks.
Proof.
  induction ks as [ | k t IH ]; simpl; [ tauto | ].
  rewrite insert_key_In, IH. intuition.
Qed.

Lemma group_keys_sorted (ks : list nat) : StronglySorted lt (group_keys ks).
Proof.
  induction ks; simpl; [ constructor | now apply insert_key_sorted ].
Qed.

Lemma strictly_sorted_NoDup (ks : list nat) : StronglySorted lt ks -> NoDup ks.
Proof.
  induction 1 as [ | h t Ht IH Hall ]; constructor; [ | exact IH ].
  intros Hin. rewrite Forall_forall in Hall. generalize (Hall _ Hin). lia.
Qed.

Lemma insert_key_least (k : nat) (ks : list nat) :
  Forall (le k) ks ->
  insert_key k ks = match ks with
                    | [] => [k]
                    | h :: _ => if (k =? h)%nat then ks else k :: ks
                    end.
Proof.
  destruct ks as [ | h t ]; simpl; [ reflexivity | ]; intros Hall.
  inversion Hall; subst.
  destruct (Nat.ltb_spec k h) as [Hlt | Hge];
    destruct (Nat.eqb_spec k h) as [He | Hne]; try reflexivity; lia.
Qed.

(** *** [groupby] cuts a frame ordered by its key into consecutive pieces *)

Section Groupby.
Context {A : Type} (key : A -> nat).

Lemma rows_of_groupby (l : list A) :
  rows_of_groups (groupby key l) = pieces key l (group_keys (map key l)).
Proof.
  unfold rows_of_groups, groupby, pieces. now rewrite map_map.
Qed.

Lemma pieces_cons_other (x : A) (l : list A) (ks : list nat) :
  ~ In (key x) ks -> pieces key (x :: l) ks = pieces key l ks.
Proof.
  induction ks as [ | k t IH ]; intros Hn; [ reflexivity | ].
  unfold pieces in *; simpl.
  destruct (Nat.eqb_spec (key x) k) as [He | Hne].
  - exfalso; apply Hn; now left.
  - f_equal. apply IH. intros Hin; apply Hn; now right.
Qed.

Lemma filter_key_absent (k : nat) (l : list A) :
  ~ In k (map key l) -> filter (fun r => (key r =? k)%nat) l = [].
Proof.
  induction l as [ | x t IH ]; simpl; intros Hn; [ reflexivity | ].
  destruct (Nat.eqb_spec (key x) k) as [He | Hne].
  - exfalso; apply Hn; now left.
  - apply IH. intros Hin; apply Hn; now right.
Qed.

Lemma pieces_sorted (l : list A) :
  StronglySorted le (map key l) ->
  pieces key l (group_keys (map key l)) = l.
Proof.
  induction l as [ | x t IH ]; [ reflexivity | ].
  simpl map. intros Hs.
  inversion Hs as [ | ? ? Ht Hall ]; subst.
  specialize (IH Ht).
  simpl group_keys.
  set (gk := group_keys (map key t)) in *.
  assert (Hgk : Forall (le (key x)) gk).
  { rewrite Forall_forall in *. intros k Hk. apply Hall.
    now apply group_keys_In. }
  assert (Hnd : StronglySorted lt gk) by apply group_keys_sorted.
  rewrite (insert_key_least _ _ Hgk).
  destruct gk as [ | h gt ] eqn:Egk.
  - destruct t as [ | y t' ].
    + unfold pieces; simpl. now rewrite Nat.eqb_refl.
    + exfalso.
      assert (Hin : In (key y) gk).
      { apply group_keys_In. now left. }
      now rewrite Egk in Hin.
  - inversion Hnd as [ | ? ? Hgt Hh ]; subst.
    assert (Hnot : ~ In (key x) gt).
    { intros Hin. rewrite Forall_forall in Hh. generalize (Hh _ Hin).
      inversion Hgk; subst. lia. }
    destruct (Nat.eqb_spec (key x) h) as [He | Hne].
    + change (pieces key (x :: t) (h :: gt))
        with (filter (fun r => (key r =? h)%nat) (x :: t)
                ++ pieces key (x :: t) gt).
      rewrite (pieces_cons_other _ _ _ Hnot).
      simpl. rewrite He, Nat.eqb_refl. simpl. f_equal.
      exact IH.
    + assert (Hnot' : ~ In (key x) (h :: gt)).
      { intros [Hin | Hin]; [ now apply Hne | now apply Hnot ]. }
      change (pieces key (x :: t) (key x :: h :: gt))
        with (filter (fun r => (key r =? key x)%nat) (x :: t)
                ++ pieces key (x :: t) (h :: gt)).
      rewrite (pieces_cons_other _ _ _ Hnot'), IH.
      simpl. rewrite Nat.eqb_refl.
      rewrite filter_key_absent; [ reflexivity | ].
      intros Hin. apply Hnot'. rewrite <- Egk. now apply group_keys_In.
Qed.

(** Every row of a frame ordered by its key is in one group, the groups
    taken in order give the frame back. *)
Lemma groupby_partition (l : list A) :
  StronglySorted le (map key l) -> rows_of_groups (groupby key l) = l.
Proof. intros Hs. rewrite rows_of_groupby. now apply pieces_sorted. Qed.

Lemma groupby_keys_NoDup (l : list A) : NoDup (map fst (groupby key l)).
Proof.
  unfold groupby. rewrite map_map. simpl. rewrite map_id.
  apply strictly_sorted_NoDup, group_keys_sorted.
Qed.

Lemma groupby_member (l : list A) (k : nat) (g : list A) (r : A) :
  In (k, g) (groupby key l) -> In r g -> key r = k /\ In r l.
Proof.
  unfold groupby. rewrite in_map_iff. intros (k' & E & _) Hr.
  inversion E; subst. apply filter_In in Hr. destruct Hr as [Hin Hk].
  apply Nat.eqb_eq in Hk. now split.
Qed.

Lemma point_count_length (groups : list (nat * list A)) :
  point_count groups = List.length (rows_of_groups groups).
Proof.
  unfold point_count, rows_of_groups.
  induction groups as [ | g t IH ]; simpl; [ reflexivity | ].
  rewrite length_app. now rewrite IH.
Qed.
End Groupby.


(** *** The two specializations *)

Lemma section_grp_length (loco_df : list Row) :
  List.length (section_grp loco_df) = List.length loco_df.
Proof.
  unfold section_grp, cumsum_bool.
  now rewrite cumsum_bool_from_length, ne_shift_flags, flags_from_length, length_map.
Qed.

Lemma stop_grp_length (stop_thresh : R) (loco_df : list Row) :
  List.length (stop_grp stop_thresh loco_df) = List.length loco_df.
Proof.
  unfold stop_grp, cumsum_bool.
  now rewrite cumsum_bool_from_length, ne_shift_flags, flags_from_length, length_map.
Qed.

(** The rows of the groups of a frame with a non-decreasing column of
    group numbers, of which only the rows that satisfy [P] are grouped:
    they are the rows that satisfy [P], in the order of the frame. *)
Lemma groups_of_filtered (P : Row -> bool) (ids : list nat) (l : list Row) :
  List.length ids = List.length l ->
  StronglySorted le ids ->
  map snd (rows_of_groups
             (groupby fst (filter (fun p => P (snd p)) (combine ids l))))
  = filter P l.
Proof.
  intros Hlen Hs.
  rewrite groupby_partition.
  - now apply combine_filter_snd.
  - apply filter_sorted. now rewrite combine_fst.
Qed.

Lemma stop_groups_rows (stop_thresh : R) (loco_df : list Row) :
  map snd (rows_of_groups (stop_groups stop_thresh loco_df))
  = filter (is_stopped stop_thresh) loco_df.
Proof.
  unfold stop_groups. apply groups_of_filtered.
  - apply stop_grp_length.
  - apply cumsum_bool_from_sorted.
Qed.

Lemma section_groups_rows (loco_df : list Row) :
  map snd (rows_of_groups (section_groups loco_df)) = filter has_station loco_df.
Proof.
  unfold section_groups. apply groups_of_filtered.
  - apply section_grp_length.
  - apply cumsum_bool_from_sorted.
Qed.

(** *** Within one [section_grp] the station code is the same *)

Lemma run_same_station (acc : nat) (c : option string) (l : list Row) (k : nat) (r : Row) :
  In (k, r) (combine (cumsum_bool_from acc
                        (flags_from ne_cell (Some c) (map stationCode l))) l) ->
  k = acc -> stationCode r = c.
Proof.
  revert c; induction l as [ | x t IH ]; intros c; simpl; [ tauto | ].
  intros [E | Hin] Hk.
  - inversion E; subst.
    destruct (ne_cell (stationCode r) c) eqn:Hne; [ lia | ].
    unfold ne_cell in Hne.
    destruct (stationCode r) as [a | ]; [ | discriminate ].
    destruct c as [b | ]; [ | discriminate ].
    apply negb_false_iff, String.eqb_eq in Hne. now subst.
  - destruct (ne_cell (stationCode x) c) eqn:Hne.
    + exfalso.
      generalize (cumsum_bool_from_ge (acc + 1)
                    (flags_from ne_cell (Some (stationCode x)) (map stationCode t))).
      rewrite Forall_forall. intros Hge.
      apply in_combine_l in Hin. generalize (Hge _ Hin). lia.
    + assert (Ex : stationCode x = c).
      { unfold ne_cell in Hne.
        destruct (stationCode x) as [a | ]; [ | discriminate ].
        destruct c as [b | ]; [ | discriminate ].
        apply negb_false_iff, String.eqb_eq in Hne. now subst. }
      replace (acc + 0)%nat with acc in Hin by lia.
      rewrite Ex in Hin. now apply IH.
Qed.

Lemma tagged_same_station (acc : nat) (d : option (option string)) (l : list Row)
      (k : nat) (r1 r2 : Row) :
  let tagged := combine (cumsum_bool_from acc
                           (flags_from ne_cell d (map stationCode l))) l in
  In (k, r1) tagged -> In (k, r2) tagged -> stationCode r1 = stationCode r2.
Proof.
  revert acc d; induction l as [ | x t IH ]; intros acc d; simpl; [ tauto | ].
  intros [E1 | H1] [E2 | H2].
  - inversion E1; inversion E2; now subst.
  - inversion E1; subst. symmetry.
    eapply run_same_station; [ exact H2 | reflexivity ].
  - inversion E2; subst.
    eapply run_same_station; [ exact H1 | reflexivity ].
  - eapply IH; eassumption.
Qed.

(** The rows of one group of [section_groups] have one station code: the
    groups of the pair of keys [(section_grp, station code)] are the
    groups of [section_grp]. *)
Lemma section_grp_same_station (loco_df : list Row) (k : nat)
      (g : list (nat * Row)) (p q : nat * Row) :
  In (k, g) (section_groups loco_df) -> In p g -> In q g ->
  stationCode (snd p) = stationCode (snd q).
Proof.
  unfold section_groups. intros Hg Hp Hq.
  destruct (groupby_member _ _ _ _ _ Hg Hp) as [Ep Hpin].
  destruct (groupby_member _ _ _ _ _ Hg Hq) as [Eq Hqin].
  apply filter_In in Hpin, Hqin.
  destruct Hpin as [Hpin _], Hqin as [Hqin _].
  destruct p as [kp rp], q as [kq rq]; simpl in *; subst.
  unfold section_grp, cumsum_bool in *. rewrite ne_shift_flags in *.
  eapply tagged_same_station; eassumption.
Qed.

Lemma stop_groups_count (stop_thresh : R) (loco_df : list Row) :
  point_count (stop_groups stop_thresh loco_df)
  = List.length (filter (is_stopped stop_thresh) loco_df).
Proof.
  rewrite point_count_length, <- stop_groups_rows. now rewrite length_map.
Qed.

Lemma section_groups_count (loco_df : list Row) :
  point_count (section_groups loco_df)
  = List.length (filter has_station loco_df).
Proof.
  rewrite point_count_length, <- section_groups_rows. now rewrite length_map.
Qed.

(** When no station code is missing, the sections are the whole frame. *)
Lemma section_groups_all (loco_df : list Row) :
  forallb has_station loco_df = true ->
  map snd (rows_of_groups (section_groups loco_df)) = loco_df
  /\ point_count (section_groups loco_df) = List.length loco_df.
Proof.
  intros Hall.
  assert (E : filter has_station loco_df = loco_df).
  { induction loco_df as [ | r t IH ]; simpl in *; [ reflexivity | ].
    apply andb_true_iff in Hall. destruct Hall as [Hr Ht].
    rewrite Hr. f_equal. now apply IH. }
  rewrite section_groups_rows, section_groups_count, E. now split.
Qed.

(** C7, as the code has it.  The intervals partition the rows that are
    grouped, not the input: for the station specialization the rows
    whose station code is not missing, for the stoppage specialization
    the rows whose speed is below the threshold.  The rows of the
    intervals, taken in order, are exactly these rows, each once; the
    point counts of the intervals add up to their number; no two
    intervals have the same group number. *)
Theorem segmentation_partitions_grouped_rows (loco_df : list Row) (stop_thresh : R) :
  (map snd (rows_of_groups (section_groups loco_df)) = filter has_station loco_df
   /\ point_count (section_groups loco_df)
      = List.length (filter has_station loco_df)
   /\ NoDup (map fst (section_groups loco_df)))
  /\
  (map snd (rows_of_groups (stop_groups stop_thresh loco_df))
   = filter (is_stopped stop_thresh) loco_df
   /\ point_count (stop_groups stop_thresh loco_df)
      = List.length (filter (is_stopped stop_thresh) loco_df)
   /\ NoDup (map fst (stop_groups stop_thresh loco_df))).
Proof.
  split; split.
  - apply section_groups_rows.
  - split; [ apply section_groups_count | apply groupby_keys_NoDup ].
  - apply stop_groups_rows.
  - split; [ apply stop_groups_count | apply groupby_keys_NoDup ].
Qed.

(** C7, as it is stated, fails: a point that moves is in no stoppage
    interval, a point without station code is in no section, and the
    point counts add up to 0, not to the length of the input. *)
Lemma segmentation_leaves_rows_out :
  point_count (stop_groups 2 [moving_row]) <> List.length [moving_row]
  /\ point_count (section_groups [uncoded_row]) <> List.length [uncoded_row].
Proof.
  rewrite stop_groups_count, section_groups_count.
  assert (E : is_stopped 2 moving_row = false).
  { unfold is_stopped, moving_row; simpl. apply Rltb_false; lra. }
  simpl. rewrite E. simpl. split; discriminate.
Qed.

End SegmentationFacts.

(** ** The stoppage scenario *)

Module StoppageScenario.
Import Telemetry Segmentation SegmentationFacts SortFacts.

Lemma Rltb_50_2 : Rltb 50 2 = false.
Proof. apply Rltb_false; lra. Qed.

Lemma Rltb_1_2 : Rltb 1 2 = true.
Proof. apply Rltb_true; lra. Qed.

Lemma Rltb_60_2 : Rltb 60 2 = false.
Proof. apply Rltb_false; lra. Qed.

(** The grouped stoppages of the scenario: the three points below the
    threshold make one group, from the second point to the fourth. *)
Lemma scenario_stops (fl : Float64) (loco_df : list Row) (t0 : Z) :
  map Speed loco_df = [50; 1; 1; 1; 60] ->
  map Logging_Time loco_df = scenario_times t0 ->
  exists lat lon,
    stops fl 2 loco_df = [mkStop 2 (t0 + minute) (t0 + 3 * minute) lat lon].
Proof.
  intros Hs Ht.
  destruct loco_df as [ | r0 [ | r1 [ | r2 [ | r3 [ | r4 [ | ? ? ] ] ] ] ] ];
    try discriminate.
  unfold scenario_times in Ht.
  injection Hs as S0 S1 S2 S3 S4. injection Ht as T0 T1 T2 T3 T4.
  assert (C : map (is_stopped 2) [r0; r1; r2; r3; r4]
              = [false; true; true; true; false]).
  { unfold is_stopped; simpl.
    now rewrite S0, S1, S2, S3, S4, Rltb_50_2, Rltb_1_2, Rltb_60_2. }
  injection C as C0 C1 C2 C3 C4.
  unfold stops, stop_groups, stop_grp.
  cbn [map]. rewrite C0, C1, C2, C3, C4.
  cbn [cumsum_bool cumsum_bool_from ne_shift shift map removelast combine
       fst snd xorb Nat.add filter].
  rewrite C0, C1, C2, C3, C4.
  cbn [groupby group_keys fold_right insert_key map fst snd filter Nat.eqb
       Nat.ltb Nat.leb].
  unfold stop_agg. cbn [map fst snd agg_min agg_max fold_left].
  rewrite T1, T2, T3.
  eexists _, _. f_equal.
  f_equal; unfold minute; lia.
Qed.

Lemma scenario_times_increase (loco_df : list Row) (t0 : Z) :
  map Logging_Time loco_df = scenario_times t0 ->
  StronglySorted (fun a b => (Logging_Time a < Logging_Time b)%Z) loco_df.
Proof.
  intros Ht.
  destruct loco_df as [ | r0 [ | r1 [ | r2 [ | r3 [ | r4 [ | ? ? ] ] ] ] ] ];
    try discriminate.
  unfold scenario_times, minute in Ht.
  injection Ht as T0 T1 T2 T3 T4.
  repeat (constructor; [ | repeat (constructor; try lia) ]).
  constructor.
Qed.

(** The stoppage of the scenario is two minutes long, and retained. *)
Lemma scenario_stop_duration (t0 : Z) (lat lon : R) :
  Duration_min (mkStop 2 (t0 + minute) (t0 + 3 * minute) lat lon) = 2.
Proof.
  unfold Duration_min; cbn [EndTime StartTime].
  replace (t0 + 3 * minute - (t0 + minute))%Z with 120000000000%Z
    by (unfold minute; lia).
  lra.
Qed.

Lemma scenario_stop_retained (s : Stop) :
  Duration_min s = 2 -> retained 2 [s] = [s].
Proof.
  intros D. unfold retained; simpl. rewrite D.
  replace (Rleb 2 2) with true; [ reflexivity | ].
  symmetry; apply Rleb_true; lra.
Qed.

Lemma scenario_frame_speeds : map Speed (rows scenario_frame) = [50; 1; 1; 1; 60].
Proof. reflexivity. Qed.

Lemma scenario_frame_times : map Logging_Time (rows scenario_frame) = scenario_times 0.
Proof. reflexivity. Qed.

(** C3, as the code has it.  For telemetry with the speeds 50, 1, 1, 1,
    60 at one-minute intervals, the threshold 2 km/h and the minimum
    duration 2 minutes, both programs retain exactly one stoppage; it
    starts at the second point and ends at the fourth, and its duration,
    the time from its first point to its last, is 2 minutes. *)
Theorem stoppage_scenario_one_stop_of_two_minutes
      (fl : Float64)
      (sort_values : list Row -> list Row)
      (sort_desc sort_start : list Stop -> list Stop)
      (loco_file : Frame) (t0 : Z) :
  sorts_by by_Logging_Time sort_values ->
  sorts_by by_Duration_desc sort_desc ->
  sorts_by by_Start sort_start ->
  map Speed (rows loco_file) = [50; 1; 1; 1; 60] ->
  map Logging_Time (rows loco_file) = scenario_times t0 ->
  exists s,
    App.valid_stops fl sort_values sort_desc 2 2 loco_file = [s]
    /\ Streamlit.valid_stops fl sort_values sort_start loco_file = [s]
    /\ StartTime s = (t0 + minute)%Z
    /\ EndTime s = (t0 + 3 * minute)%Z
    /\ Duration_min s = 2.
Proof.
  intros Hv Hd Hst Hs Ht.
  assert (E : sort_values (rows loco_file) = rows loco_file).
  { destruct (Hv (rows loco_file)) as [Hp Hso].
    apply (sorted_perm_unique Logging_Time); auto.
    now apply scenario_times_increase with t0. }
  destruct (scenario_stops fl _ _ Hs Ht) as (lat & lon & Hstops).
  set (s := mkStop 2 (t0 + minute) (t0 + 3 * minute) lat lon) in *.
  assert (D : Duration_min s = 2) by apply scenario_stop_duration.
  exists s.
  unfold App.valid_stops, Streamlit.valid_stops, Streamlit.min_dur_min,
    Streamlit.stop_thresh, sort_frame; simpl.
  rewrite E, Hstops, (scenario_stop_retained _ D).
  rewrite (sorts_singleton _ _ _ Hd), (sorts_singleton _ _ _ Hst).
  repeat split; auto.
Qed.

(** The scenario itself, from midnight, under the insertion sorts and
    the exact mean. *)
Lemma stoppage_scenario_witness :
  exists s,
    App.valid_stops exact_arith (insertion_sort time_leb)
                    (insertion_sort duration_desc_leb) 2 2 scenario_frame = [s]
    /\ Streamlit.valid_stops exact_arith (insertion_sort time_leb)
                             (insertion_sort start_leb) scenario_frame = [s]
    /\ StartTime s = (0 + minute)%Z
    /\ EndTime s = (0 + 3 * minute)%Z
    /\ Duration_min s = 2.
Proof.
  apply (stoppage_scenario_one_stop_of_two_minutes
           exact_arith (insertion_sort time_leb) (insertion_sort duration_desc_leb)
           (insertion_sort start_leb) scenario_frame 0%Z).
  - exact time_sort_sorts.
  - exact duration_sort_sorts.
  - exact start_sort_sorts.
  - reflexivity.
  - reflexivity.
Defined.

(** C3, as it is stated, fails: the retained stoppage of the scenario is
    not 3 minutes long. *)
Lemma stoppage_scenario_not_three_minutes :
  ~ (exists fl s,
        App.valid_stops fl (insertion_sort time_leb)
                        (insertion_sort duration_desc_leb) 2 2 scenario_frame = [s]
        /\ Duration_min s = 3).
Proof.
  intros (fl & s & Hs & Hd).
  destruct (scenario_stops fl _ 0%Z scenario_frame_speeds scenario_frame_times)
    as (lat & lon & Hstops).
  assert (D := scenario_stop_duration 0 lat lon).
  unfold App.valid_stops, sort_frame in Hs.
  change (rows (mkFrame (has_distFromPrevLatLng scenario_frame)
                        (has_stationCode scenario_frame)
                        (insertion_sort time_leb (rows scenario_frame))))
    with (rows scenario_frame) in Hs.
  rewrite Hstops, (scenario_stop_retained _ D) in Hs.
  injection Hs as <-.
  change (Duration_min (mkStop 2 (0 + minute) (0 + 3 * minute) lat lon) = 3) in Hd.
  lra.
Qed.

End StoppageScenario.

(** ** Signal proximity matcher ([app.py]) *)

Module MatcherFacts.
Import Telemetry Mapper App Geodesic GeodesicFacts.

Lemma between_spec (x lo hi : R) : between x lo hi = true <-> lo <= x <= hi.
Proof. unfold between. now rewrite andb_true_iff, !Rleb_true. Qed.

Lemma in_box_spec (fl : Float64) (sig : Signal) (p : Row) :
  in_box fl sig p = true <->
  (minus_001 fl (sig_Latitude sig) <= Latitude p <= plus_001 fl (sig_Latitude sig))
  /\ (minus_001 fl (sig_Longitude sig) <= Longitude p
      <= plus_001 fl (sig_Longitude sig)).
Proof. unfold in_box. now rewrite andb_true_iff, !between_spec. Qed.

Lemma tiny : 0 < / 10 ^ 12 < 0.001.
Proof.
  assert (E : 10 ^ 12 = 1000000000000) by (simpl; lra).
  rewrite E. split; [ apply Rinv_0_lt_compat; lra | ].
  apply Rmult_lt_reg_r with 1000000000000; [ lra | ].
  rewrite Rinv_l; lra.
Qed.

(** Under the contract of the rounding, the box of a signal whose
    coordinates are degrees is the box of 0.01 degrees up to
    [10 ^ -12]: a point in the box is at most [0.01 + 10 ^ -12] degrees
    from the signal in latitude and in longitude, and every point at most
    [0.01 - 10 ^ -12] degrees from it is in the box. *)
Lemma in_box_margin (fl : Float64) (sig : Signal) (p : Row) :
  rounds fl ->
  Rabs (sig_Latitude sig) <= 360 -> Rabs (sig_Longitude sig) <= 360 ->
  (in_box fl sig p = true ->
   Rabs (Latitude p - sig_Latitude sig) <= 0.01 + / 10 ^ 12
   /\ Rabs (Longitude p - sig_Longitude sig) <= 0.01 + / 10 ^ 12)
  /\ (Rabs (Latitude p - sig_Latitude sig) <= 0.01 - / 10 ^ 12 ->
      Rabs (Longitude p - sig_Longitude sig) <= 0.01 - / 10 ^ 12 ->
      in_box fl sig p = true).
Proof.
  intros Hr Hla Hlo.
  destruct (Hr _ Hla) as [A1 A2]. destruct (Hr _ Hlo) as [B1 B2].
  apply Rabs_le_inv in A1, A2, B1, B2.
  rewrite in_box_spec. split.
  - intros [H1 H2]. split; apply Rabs_le; lra.
  - intros H1 H2. apply Rabs_le_inv in H1, H2. split; lra.
Qed.

(** Under the contract, the distance of a point in the box is a number,
    not NaN. *)
Lemma dist_in_box (fl : Float64) (sig : Signal) (p : Row) :
  rounds fl ->
  Rabs (sig_Latitude sig) <= 360 -> Rabs (sig_Longitude sig) <= 360 ->
  in_box fl sig p = true -> exists d, dist_to sig p = Some d.
Proof.
  intros Hr Hla Hlo Hbox.
  destruct (proj1 (in_box_margin fl sig p Hr Hla Hlo) Hbox) as [H1 H2].
  apply Rabs_le_inv in H1, H2. generalize tiny; intros Ht.
  apply hav_of_a_defined, hav_a_in_wide_box; lra.
Qed.

(** *** [idxmin] *)

Lemma idxmin_None (l : list (Row * option R)) :
  idxmin l = None -> forall p d, ~ In (p, Some d) l.
Proof.
  induction l as [ | [q [e | ]] t IH ]; simpl; intros H p d Hin; [ tauto | | ].
  - destruct (idxmin t) as [[q' e'] | ]; [ destruct (Rltb e' e) | ]; discriminate.
  - destruct Hin as [Hin | Hin]; [ discriminate | ].
    now apply (IH H p d).
Qed.

Lemma idxmin_all_NaN (l : list (Row * option R)) :
  (forall p c, In (p, c) l -> c = None) -> idxmin l = None.
Proof.
  induction l as [ | [q [e | ]] t IH ]; simpl; intros H; [ reflexivity | | ].
  - now specialize (H q (Some e) (or_introl eq_refl)).
  - apply IH. intros p c Hin. apply (H p). now right.
Qed.

Lemma idxmin_Some (l : list (Row * option R)) (p : Row) (d : R) :
  idxmin l = Some (p, d) ->
  In (p, Some d) l /\ forall q e, In (q, Some e) l -> d <= e.
Proof.
  revert p d; induction l as [ | [q0 [e0 | ]] t IH ]; simpl; intros p d H;
    [ discriminate | | ].
  - destruct (idxmin t) as [[q' e'] | ] eqn:Et.
    + destruct (IH _ _ eq_refl) as [Hin Hmin].
      destruct (Rltb e' e0) eqn:Hlt.
      * apply Rltb_true in Hlt. injection H as <- <-.
        split; [ now right | ].
        intros q e [E | Hq]; [ injection E as <- <-; lra | now apply (Hmin q) ].
      * apply Rltb_false in Hlt. injection H as <- <-.
        split; [ now left | ].
        intros q e [E | Hq]; [ injection E as <- <-; lra | ].
        generalize (Hmin _ _ Hq). lra.
    + injection H as <- <-.
      split; [ now left | ].
      intros q e [E | Hq]; [ injection E as <- <-; lra | ].
      exfalso. exact (idxmin_None _ Et _ _ Hq).
  - destruct (IH _ _ H) as [Hin Hmin].
    split; [ now right | ].
    intros q e [E | Hq]; [ discriminate | now apply (Hmin q) ].
Qed.

(** [idxmin] gives the first row of the least value: the values before
    it are greater, the values after it are not smaller. *)
Lemma idxmin_first (l : list (Row * option R)) (p : Row) (d : R) :
  idxmin l = Some (p, d) ->
  exists l1 l2,
    l = l1 ++ (p, Some d) :: l2
    /\ (forall q e, In (q, Some e) l1 -> d < e)
    /\ (forall q e, In (q, Some e) l2 -> d <= e).
Proof.
  revert p d; induction l as [ | [q0 [e0 | ]] t IH ]; simpl; intros p d H;
    [ discriminate | | ].
  - destruct (idxmin t) as [[q' e'] | ] eqn:Et.
    + destruct (Rltb e' e0) eqn:Hlt.
      * apply Rltb_true in Hlt. injection H as <- <-.
        destruct (IH _ _ eq_refl) as (l1 & l2 & E & H1 & H2).
        exists ((q0, Some e0) :: l1), l2. split; [ now rewrite E | ].
        split; [ | exact H2 ].
        intros q e [Eq | Hq]; [ injection Eq as <- <-; exact Hlt | now apply (H1 q) ].
      * apply Rltb_false in Hlt. injection H as <- <-.
        exists [], t. split; [ reflexivity | ].
        split; [ intros q e [] | ].
        intros q e Hq. destruct (idxmin_Some _ _ _ Et) as [_ Hmin].
        generalize (Hmin _ _ Hq). lra.
    + injection H as <- <-.
      exists [], t. split; [ reflexivity | ].
      split; [ intros q e [] | ].
      intros q e Hq. exfalso. exact (idxmin_None _ Et _ _ Hq).
  - destruct (IH _ _ H) as (l1 & l2 & E & H1 & H2).
    exists ((q0, None) :: l1), l2. split; [ now rewrite E | ].
    split; [ | exact H2 ].
    intros q e [Eq | Hq]; [ discriminate | now apply (H1 q) ].
Qed.

Lemma filter_split {A : Type} (f : A -> bool) (l a : list A) (y : A) (b : list A) :
  filter f l = a ++ y :: b ->
  exists l1 l2, l = l1 ++ y :: l2 /\ filter f l1 = a /\ filter f l2 = b.
Proof.
  revert a; induction l as [ | x t IH ]; intros a H; simpl in H.
  - now destruct a.
  - destruct (f x) eqn:Ef.
    + destruct a as [ | a0 a' ]; simpl in H; injection H as -> H.
      * exists [], t. now split.
      * destruct (IH _ H) as (l1 & l2 & -> & <- & <-).
        exists (a0 :: l1), l2. simpl. rewrite Ef. now split.
    + destruct (IH _ H) as (l1 & l2 & -> & <- & <-).
      exists (x :: l1), l2. simpl. rewrite Ef. now split.
Qed.

(** The candidates with their distances. *)
Lemma candidate_spec (fl : Float64) (loco_df : list Row) (sig : Signal)
      (p : Row) (c : option R) :
  In (p, c) (map (fun p => (p, dist_to sig p)) (nearby fl loco_df sig)) <->
  In p loco_df /\ in_box fl sig p = true /\ dist_to sig p = c.
Proof.
  rewrite in_map_iff. unfold nearby. split.
  - intros (q & E & Hq). injection E as -> E.
    apply filter_In in Hq. tauto.
  - intros (Hin & Hbox & Hd). exists p. split; [ now rewrite Hd | ].
    apply filter_In. tauto.
Qed.

(** The first candidate of the least distance, in the frame. *)
Lemma closest_in_frame (fl : Float64) (loco_df : list Row) (sig : Signal)
      (closest : Row) (d : R) :
  idxmin (map (fun p => (p, dist_to sig p)) (nearby fl loco_df sig))
  = Some (closest, d) ->
  exists before after,
    loco_df = before ++ closest :: after
    /\ in_box fl sig closest = true /\ dist_to sig closest = Some d
    /\ (forall q e, In q before -> in_box fl sig q = true ->
                    dist_to sig q = Some e -> d < e)
    /\ (forall q e, In q after -> in_box fl sig q = true ->
                    dist_to sig q = Some e -> d <= e).
Proof.
  intros Hi.
  destruct (idxmin_first _ _ _ Hi) as (l1 & l2 & E & H1 & H2).
  apply map_eq_app in E. destruct E as (a & r & Ea & <- & Er).
  apply map_eq_cons in Er. destruct Er as (y & b & -> & Ey & <-).
  injection Ey as -> Ed.
  unfold nearby in Ea. destruct (filter_split _ _ _ _ _ Ea) as (before & after & -> & <- & <-).
  assert (Hbox : in_box fl sig closest = true).
  { assert (Hin : In closest (filter (in_box fl sig) (before ++ closest :: after))).
    { rewrite Ea. apply in_or_app. right. now left. }
    apply filter_In in Hin. tauto. }
  exists before, after. repeat split; auto.
  - intros q e Hq Hb He. apply (H1 q). apply in_map_iff. exists q.
    split; [ now rewrite He | ]. apply filter_In. tauto.
  - intros q e Hq Hb He. apply (H2 q). apply in_map_iff. exists q.
    split; [ now rewrite He | ]. apply filter_In. tauto.
Qed.

(** The result of the body of the loop, in terms of the candidates: the
    signal is left out, or it is visited, or [idxmin] fails. *)
Lemma match_signal_cases (fl : Float64) (columns : list string)
      (loco_df : list Row) (sig : Signal) :
  (match_signal fl columns loco_df sig = inr None
   /\ (forall p d, In p loco_df -> in_box fl sig p = true ->
                   dist_to sig p = Some d -> 200 <= d)
   /\ (nearby fl loco_df sig = []
       \/ exists p d, In p loco_df /\ in_box fl sig p = true
                      /\ dist_to sig p = Some d))
  \/ (exists before closest after d,
         loco_df = before ++ closest :: after
         /\ in_box fl sig closest = true /\ dist_to sig closest = Some d
         /\ d < 200
         /\ (forall q e, In q before -> in_box fl sig q = true ->
                         dist_to sig q = Some e -> d < e)
         /\ (forall q e, In q after -> in_box fl sig q = true ->
                         dist_to sig q = Some e -> d <= e)
         /\ match_signal fl columns loco_df sig
            = if has_column "SIGNAL NAME" columns
              then inr (Some (pass_of sig closest d))
              else inl (KeyError "SIGNAL NAME"))
  \/ (match_signal fl columns loco_df sig = inl AllNaN
      /\ nearby fl loco_df sig <> []
      /\ forall p, In p loco_df -> in_box fl sig p = true -> dist_to sig p = None).
Proof.
  unfold match_signal.
  destruct (nearby fl loco_df sig) as [ | p0 nb ] eqn:En.
  - left. split; [ reflexivity | ]. split; [ | now left ].
    intros p d Hin Hbox _.
    assert (Hp : In p (nearby fl loco_df sig)) by (apply filter_In; tauto).
    now rewrite En in Hp.
  - rewrite <- En.
    destruct (idxmin (map (fun p => (p, dist_to sig p)) (nearby fl loco_df sig)))
      as [[closest dist] | ] eqn:Ei.
    + destruct (closest_in_frame _ _ _ _ _ Ei)
        as (before & after & E & Hbox & Hd & Hb & Ha).
      destruct (Rltb dist 200) eqn:Hlt.
      * apply Rltb_true in Hlt. right. left.
        exists before, closest, after, dist.
        repeat (split; [ assumption | ]).
        unfold require, bind, ret, raise, pass_of.
        destruct (has_column "SIGNAL NAME" columns); reflexivity.
      * apply Rltb_false in Hlt. left. split; [ reflexivity | ]. split.
        -- intros q e Hq Hbq He. rewrite E in Hq.
           apply in_app_or in Hq. destruct Hq as [Hq | [<- | Hq]].
           ++ generalize (Hb _ _ Hq Hbq He). lra.
           ++ rewrite Hd in He. injection He as <-. exact Hlt.
           ++ generalize (Ha _ _ Hq Hbq He). lra.
        -- right. exists closest, dist. split; [ | now split ].
           rewrite E. apply in_or_app. right. now left.
    + right. right. split; [ reflexivity | ]. split; [ rewrite En; discriminate | ].
      intros p Hin Hbox.
      destruct (dist_to sig p) as [d | ] eqn:Hd; [ exfalso | reflexivity ].
      apply (idxmin_None _ Ei p d). apply candidate_spec. tauto.
Qed.

(** Under the contract, and for a signal whose coordinates are degrees,
    [idxmin] does not fail. *)
Lemma match_signal_not_NaN (fl : Float64) (columns : list string)
      (loco_df : list Row) (sig : Signal) :
  rounds fl ->
  Rabs (sig_Latitude sig) <= 360 -> Rabs (sig_Longitude sig) <= 360 ->
  match_signal fl columns loco_df sig <> inl AllNaN.
Proof.
  intros Hr Hla Hlo.
  destruct (match_signal_cases fl columns loco_df sig)
    as [(E & _) | [(b & c & a & d & _ & _ & _ & _ & _ & _ & E) | (E & Hne & Hall)]].
  - now rewrite E.
  - rewrite E. destruct (has_column "SIGNAL NAME" columns); discriminate.
  - exfalso. destruct (nearby fl loco_df sig) as [ | p0 nb ] eqn:En; [ now apply Hne | ].
    assert (Hp0 : In p0 (nearby fl loco_df sig)) by (rewrite En; now left).
    apply filter_In in Hp0. destruct Hp0 as [Hin Hbox].
    destruct (dist_in_box fl sig p0 Hr Hla Hlo Hbox) as [d Hd].
    rewrite (Hall _ Hin Hbox) in Hd. discriminate.
Qed.


(** One telemetry point, within the box, at the distance [d]. *)
Lemma match_signal_single (fl : Float64) (columns : list string)
      (sig : Signal) (p : Row) (d : R) :
  in_box fl sig p = true -> dist_to sig p = Some d ->
  match_signal fl columns [p] sig
  = if Rltb d 200
    then (if has_column "SIGNAL NAME" columns
          then inr (Some (pass_of sig p d))
          else inl (KeyError "SIGNAL NAME"))
    else inr None.
Proof.
  intros Hbox Hd. unfold match_signal, nearby. simpl.
  rewrite Hbox. simpl. rewrite Hd.
  unfold require, bind, ret, raise, pass_of.
  destruct (Rltb d 200); [ | reflexivity ].
  destruct (has_column "SIGNAL NAME" columns); reflexivity.
Qed.









(** The loop over the mapped signals: the passes of the signals that
    are visited, in the order of the signals, unless the body raises. *)
Lemma results_spec (fl : Float64) (columns : list string)
      (loco_df : list Row) (signals_mapped : list Signal) :
  (forall sig, In sig signals_mapped ->
               exists r, match_signal fl columns loco_df sig = inr r) ->
  results fl columns loco_df signals_mapped
  = inr (flat_map (fun sig => match match_signal fl columns loco_df sig with
                              | inr (Some pass) => [pass]
                              | _ => []
                              end) signals_mapped).
Proof.
  induction signals_mapped as [ | sig t IH ]; intros H; [ reflexivity | ].
  simpl. rewrite IH by (intros s Hs; apply H; now right).
  destruct (H sig (or_introl eq_refl)) as [r ->].
  destruct r; reflexivity.
Qed.

(** When the loop returns, every body has returned. *)
Lemma results_returns (fl : Float64) (columns : list string)
      (loco_df : list Row) (signals_mapped : list Signal)
      (sig_res_df : list SignalPass) :
  results fl columns loco_df signals_mapped = inr sig_res_df ->
  forall sig, In sig signals_mapped ->
              exists r, match_signal fl columns loco_df sig = inr r.
Proof.
  revert sig_res_df; induction signals_mapped as [ | s t IH ];
    intros res H sig Hin; [ destruct Hin | ].
  simpl in H. unfold bind in H.
  destruct (match_signal fl columns loco_df s) as [e | r] eqn:E; [ discriminate | ].
  destruct (results fl columns loco_df t) as [e | rs] eqn:Et; [ discriminate | ].
  destruct Hin as [<- | Hin]; [ now exists r | ].
  now apply (IH rs).
Qed.

(** The exception of the loop is the exception of a body. *)
Lemma results_raises (fl : Float64) (columns : list string)
      (loco_df : list Row) (signals_mapped : list Signal) (e : exn) :
  results fl columns loco_df signals_mapped = inl e ->
  exists sig, In sig signals_mapped /\ match_signal fl columns loco_df sig = inl e.
Proof.
  induction signals_mapped as [ | s t IH ]; intros H; [ discriminate | ].
  simpl in H. unfold bind in H.
  destruct (match_signal fl columns loco_df s) as [e' | r] eqn:E.
  - injection H as <-. exists s. split; [ now left | exact E ].
  - destruct (results fl columns loco_df t) as [e' | rs] eqn:Et; [ | discriminate ].
    injection H as <-. destruct (IH eq_refl) as (sig & Hin & Hs).
    exists sig. split; [ now right | exact Hs ].
Qed.

(** The signal at (1, 0) is recorded as visited, at less than 182 m, by a
    train whose only point is 0.003 degrees east of it: by the haversine
    formula the point is more than 330 m away. *)
Lemma distant_signal_recorded (fl : Float64) (columns : list string) :
  rounds fl -> has_column "SIGNAL NAME" columns = true ->
  exists d,
    match_signal fl columns [east_point] signal_at_1
    = inr (Some (pass_of signal_at_1 east_point d))
    /\ d < 182
    /\ exists d', haversine_formula 1 0.003 1 0 = Some d' /\ 330 < d'.
Proof.
  intros Hr Hc. generalize tiny; intros Ht.
  destruct haversine_east_code as (d & Hd & Hlt).
  exists d. split; [ | split; [ exact Hlt | exact haversine_east_formula ] ].
  assert (H0 : Rabs 0 <= 360) by (rewrite Rabs_R0; lra).
  assert (H1 : Rabs 1 <= 360) by (rewrite Rabs_pos_eq; lra).
  assert (Hbox : in_box fl signal_at_1 east_point = true).
  { apply (proj2 (in_box_margin fl signal_at_1 east_point Hr H1 H0));
      unfold signal_at_1, east_point; simpl; apply Rabs_le; lra. }
  rewrite (match_signal_single _ _ _ _ d Hbox Hd), Hc.
  replace (Rltb d 200) with true; [ reflexivity | ].
  symmetry; apply Rltb_true; lra.
Qed.

(** *** The violation policy *)






End MatcherFacts.

(** ** Signal reference mapper *)

Module MapperFacts.
Import Telemetry Mapper.

Lemma pystr_eqb_eq (a b : pystr) : pystr_eqb a b = true <-> a = b.
Proof.
  revert b; induction a as [ | x a IH ]; intros [ | y b ]; simpl;
    try (split; [ discriminate | discriminate ]); [ tauto | ].
  rewrite andb_true_iff, N.eqb_eq, IH. split.
  - now intros [-> ->].
  - intros E. now injection E.
Qed.

(** The identifiers are compared as strings without the white space
    around them.  The string " A1 " is the identifier "A1", also between
    a no-break space and an em space; the integer 12 is the identifier
    "12", and is not the identifier of the float 12.0 that the same cell
    is in a column with an empty cell; an empty cell is the identifier
    "nan". *)
Lemma normalize_id_examples :
  normalize_id object (Some (codes " A1 ")) = codes "A1"
  /\ normalize_id object (Some ([160] ++ codes "A1" ++ [8195]))%N = codes "A1"
  /\ normalize_id int64 12%Z = normalize_id object (Some (codes "12 "))
  /\ normalize_id float64 (Some (codes "12.0")) <> normalize_id int64 12%Z
  /\ normalize_id object None = codes "nan"
  /\ normalize_id float64 None = codes "nan".
Proof. repeat split; try reflexivity. discriminate. Qed.

Lemma filter_none {A : Type} (f : A -> bool) (l : list A) :
  (forall x, In x l -> f x = false) -> filter f l = [].
Proof.
  induction l as [ | x t IH ]; simpl; intros H; [ reflexivity | ].
  rewrite (H x) by now left. apply IH. intros y Hy. apply H. now right.
Qed.

(** The rows of the left join, with their coordinates. *)
Lemma merge_left_spec (sig : list SigRow) (ohe : list OheRow) (m : Merged) :
  In m (merge_left sig ohe) <->
  exists s, In s sig /\ m_signal m = s
            /\ ((exists o, In o ohe /\ id_match s o = true
                           /\ m_Latitude m = ohe_Latitude o
                           /\ m_Longitude m = ohe_Longitude o)
                \/ ((forall o, In o ohe -> id_match s o = false)
                    /\ m_Latitude m = None /\ m_Longitude m = None)).
Proof.
  unfold merge_left. rewrite in_flat_map. split.
  - intros (s & Hs & Hm). exists s. split; [ exact Hs | ].
    destruct (filter (id_match s) ohe) as [ | o0 t ] eqn:Ef.
    + destruct Hm as [<- | []]. split; [ reflexivity | ]. right.
      split; [ | now split ].
      intros o Ho. destruct (id_match s o) eqn:E; [ | reflexivity ].
      assert (Hin : In o (filter (id_match s) ohe)) by (apply filter_In; tauto).
      now rewrite Ef in Hin.
    + rewrite <- Ef in Hm. apply in_map_iff in Hm.
      destruct Hm as (o & <- & Ho). apply filter_In in Ho.
      split; [ reflexivity | ]. left. exists o. simpl. tauto.
  - intros (s & Hs & <- & [(o & Ho & Hid & Hla & Hlo) | (Hnone & Hla & Hlo)]).
    + exists (m_signal m). split; [ exact Hs | ].
      assert (Hin : In o (filter (id_match (m_signal m)) ohe))
        by (apply filter_In; tauto).
      destruct (filter (id_match (m_signal m)) ohe) as [ | o0 t ] eqn:Ef;
        [ now simpl in Hin | ].
      rewrite <- Ef. apply in_map_iff. exists o. split; [ | now rewrite Ef ].
      destruct m; simpl in *; congruence.
    + exists (m_signal m). split; [ exact Hs | ].
      rewrite (filter_none _ _ Hnone). left.
      destruct m; simpl in *; congruence.
Qed.

(** The mapped signals of [app.py]: the pairs of a row of the signal
    list and a row of the master with the same identifier and with both
    coordinates.  The rows of the signal list without such a row of the
    master are dropped. *)
Lemma map_signals_spec (sig : SigTable) (ohe : OheTable) (mapped : list Signal)
      (g : Signal) :
  App.map_signals (Csv sig) (Csv ohe) = inr mapped ->
  (In g mapped <->
   exists o, In (signal_row g) (sig_rows sig) /\ In o (ohe_rows ohe)
             /\ id_match (signal_row g) o = true
             /\ ohe_Latitude o = Some (sig_Latitude g)
             /\ ohe_Longitude o = Some (sig_Longitude g)).
Proof.
  unfold App.map_signals, merged, load_data, require, dropna_subset, bind, ret, raise.
  destruct (has_column "OHEMas" (ohe_columns ohe)); [ | discriminate ].
  destruct (has_column "OHE FROM" (sig_columns sig)); [ | discriminate ].
  destruct (has_column "Latitude" (ohe_columns ohe)); [ | discriminate ].
  destruct (has_column "Longitude" (ohe_columns ohe)); [ | discriminate ].
  simpl fst; simpl snd.
  destruct (has_column "Latitude" (sig_columns sig)); [ discriminate | ].
  destruct (has_column "Longitude" (sig_columns sig)); [ discriminate | ].
  intros E; injection E as <-.
  rewrite in_flat_map. split.
  - intros (m & Hm & Hg). apply merge_left_spec in Hm.
    destruct Hm as (s & Hs & Es & H).
    unfold keep_lat_lon in Hg.
    destruct (m_Latitude m) as [la | ] eqn:Ela; [ | destruct Hg ].
    destruct (m_Longitude m) as [lo | ] eqn:Elo; [ | destruct Hg ].
    destruct Hg as [<- | []]. simpl.
    destruct H as [(o & Ho & Hid & Hla & Hlo) | (_ & Hla & _)];
      [ | discriminate ].
    exists o. rewrite Es. repeat split; auto; congruence.
  - intros (o & Hs & Ho & Hid & Hla & Hlo).
    exists (mkMerged (signal_row g) (Some (sig_Latitude g)) (Some (sig_Longitude g))).
    split.
    + apply merge_left_spec. exists (signal_row g). simpl.
      split; [ exact Hs | ]. split; [ reflexivity | ].
      left. exists o. auto.
    + unfold keep_lat_lon; simpl. left. now destruct g.
Qed.

(** [app.py] never raises from the mapping of the signals. *)
Lemma app_reference_step_returns (signal_file : option (upload SigTable))
      (ohe_file : option (upload OheTable)) :
  exists signals_mapped messages,
    App.reference_step signal_file ohe_file = inr (signals_mapped, messages).
Proof.
  unfold App.reference_step.
  destruct signal_file as [sf | ], ohe_file as [of_ | ];
    try (eexists _, _; reflexivity).
  unfold try_except, bind, ret.
  destruct (App.map_signals sf of_); eexists _, _; reflexivity.
Qed.

(** When no identifier of the signal list is in the master, [app.py]
    maps no signal and says so: "Successfully mapped 0 signals." *)
Lemma app_no_match (sig : SigTable) (ohe : OheTable) :
  well_formed sig ohe = true ->
  (forall s o, In s (sig_rows sig) -> In o (ohe_rows ohe) -> id_match s o = false) ->
  App.reference_step (Some (Csv sig)) (Some (Csv ohe))
  = inr ([], [success_mapped 0]).
Proof.
  unfold well_formed. rewrite !andb_true_iff, !negb_true_iff.
  intros (((((H1 & H2) & H3) & H4) & H5) & H6) Hno.
  unfold App.reference_step, App.map_signals, merged, load_data, require,
    dropna_subset, try_except, bind, ret, raise.
  rewrite H1, H2, H3, H4. simpl fst; simpl snd. rewrite H5, H6.
  assert (E : flat_map keep_lat_lon (merge_left (sig_rows sig) (ohe_rows ohe)) = []).
  { induction (sig_rows sig) as [ | s t IH ]; [ reflexivity | ].
    simpl. rewrite (filter_none (id_match s) (ohe_rows ohe)).
    - simpl. apply IH. intros s' o Hs' Ho. apply Hno; [ now right | exact Ho ].
    - intros o Ho. apply Hno; [ now left | exact Ho ]. }
  rewrite E. reflexivity.
Qed.

(** C9: the mapper of [app.py] is the one of the claim, the copy in
    [streamlit_app.py] ("Same mapping logic as before") is not.  The
    step of [app.py] always returns; for the signal list whose
    identifier is not in the master it maps no signal and reports the
    count 0; for a signal list without the column ['OHE FROM'] it shows
    the error and goes on with no signal.  [streamlit_app.py] has
    neither the [try] nor the message: on that signal list the
    [KeyError] leaves the analysis, and no report is made. *)
Theorem mapper_raises_without_try :
  (forall signal_file ohe_file,
      exists signals_mapped messages,
        App.reference_step signal_file ohe_file = inr (signals_mapped, messages))
  /\ App.reference_step (Some (Csv unmatched_signals)) (Some (Csv master_table))
     = inr ([], [success_mapped 0])
  /\ App.reference_step (Some (Csv signals_without_id)) (Some (Csv master_table))
     = inr ([], [error_mapping (KeyError "OHE FROM")])
  /\ Streamlit.signals_step (Some (Csv signals_without_id)) (Some (Csv master_table))
     = inl (KeyError "OHE FROM")
  /\ (forall fl sort_values sort_stops form loco_file,
         Streamlit.analyze fl sort_values sort_stops form loco_file
                           (Some (Csv signals_without_id)) (Some (Csv master_table))
         = inl (KeyError "OHE FROM")).
Proof.
  split; [ exact app_reference_step_returns | ].
  repeat split; reflexivity.
Qed.

End MapperFacts.

(** ** The report of [streamlit_app.py] *)

Module ReportFacts.
Import Telemetry Mapper Streamlit.

Lemma signals_step_empty (signal_file : option (upload SigTable))
      (ohe_file : option (upload OheTable)) (violations_df : list App.SignalPass) :
  signals_step signal_file ohe_file = inr violations_df -> violations_df = [].
Proof.
  unfold signals_step, bind, ret.
  destruct signal_file as [sf | ], ohe_file as [of_ | ];
    try (intros E; now injection E as <-).
  destruct (mapped_sigs sf of_); [ discriminate | ].
  intros E; now injection E as <-.
Qed.

(** The analysis makes a report whenever the signal step does not
    raise: without reference files, and with files that map. *)
Lemma analyze_returns fl sort_values sort_stops form loco_file
      (signal_file : option (upload SigTable)) (ohe_file : option (upload OheTable))
      (violations_df : list App.SignalPass) :
  signals_step signal_file ohe_file = inr violations_df ->
  exists report,
    analyze fl sort_values sort_stops form loco_file signal_file ohe_file = inr report
    /\ speed_violations report
       = Paragraph
           "<p>No signal speed violations detected (or no signal data provided).</p>".
Proof.
  intros E. generalize (signals_step_empty _ _ _ E); intros ->.
  unfold analyze, report_arguments, bind, ret. rewrite E.
  eexists; split; reflexivity.
Qed.

(** C6.  Whatever the input, the violations that [streamlit_app.py]
    passes to [generate_html_report] are the empty frame, and the report
    says that no signal speed violation was detected: [violations_df] is
    never assigned after its initialisation, also when the signal list
    and the OHE master are given and signals are mapped.  The analysis
    either makes such a report or, when the mapping of the signals
    raises, makes none. *)
Theorem report_never_lists_violations
        (fl : Float64) (sort_values : list Row -> list Row)
        (sort_stops : list Segmentation.Stop -> list Segmentation.Stop)
        (form : TripDetails) (loco_file : Frame)
        (signal_file : option (upload SigTable)) (ohe_file : option (upload OheTable)) :
  (exists trip_details stats stoppages,
      report_arguments fl sort_values sort_stops form loco_file signal_file ohe_file
      = inr (trip_details, stats, stoppages, [])
      /\ analyze fl sort_values sort_stops form loco_file signal_file ohe_file
         = inr (generate_html_report trip_details stats stoppages [])
      /\ speed_violations (generate_html_report trip_details stats stoppages [])
         = Paragraph
             "<p>No signal speed violations detected (or no signal data provided).</p>")
  \/ (exists e,
         signals_step signal_file ohe_file = inl e
         /\ report_arguments fl sort_values sort_stops form loco_file signal_file ohe_file
            = inl e
         /\ analyze fl sort_values sort_stops form loco_file signal_file ohe_file = inl e).
Proof.
  destruct (signals_step signal_file ohe_file) as [e | violations_df] eqn:Es.
  - right. exists e. unfold analyze, report_arguments, bind. rewrite Es. auto.
  - left. generalize (signals_step_empty _ _ _ Es); intros ->.
    unfold analyze, report_arguments, bind, ret. rewrite Es.
    eexists _, _, _. repeat split.
Qed.

(** The signal list [matched_signals] maps one signal, which the train
    of [fast_frame] passes at 70 km/h: [app.py] finds the violation, the
    report of [streamlit_app.py] lists none. *)
Lemma report_with_mapped_signal (fl : Float64) :
  mapped_sigs (Csv matched_signals) (Csv master_table)
  = inr [mkSignalLat (mkSigRow "S1" (codes "A1")) 0 (Some 0)]
  /\ App.map_signals (Csv matched_signals) (Csv master_table) = inr [signal_at_origin]
  /\ analyze fl (insertion_sort time_leb) (insertion_sort start_leb) blank_form
             fast_frame (Some (Csv matched_signals)) (Some (Csv master_table))
     = inr (generate_html_report (trip_details_of blank_form) (fast_stats fl)
                                 (fast_stoppages fl) [])
  /\ speed_violations (generate_html_report (trip_details_of blank_form)
                                            (fast_stats fl) (fast_stoppages fl) [])
     = Paragraph
         "<p>No signal speed violations detected (or no signal data provided).</p>".
Proof. repeat split; reflexivity. Qed.

End ReportFacts.

(* ------------------------------------------------------------------ *)
(** * Further properties of the code *)

(** ** The range of the geodesic distance *)

Module GeodesicRange.
Import Geodesic GeodesicFacts.

Lemma hav_of_a_Some (a d : R) : hav_of_a a = Some d -> 0 <= a <= 1.
Proof.
  unfold hav_of_a, np_sqrt.
  destruct (Rle_dec 0 a); [ | discriminate ].
  destruct (Rle_dec 0 (1 - a)); [ | discriminate ].
  intros _. lra.
Qed.

Lemma asin_sqrt_range (a : R) : 0 <= a <= 1 -> 0 <= asin (sqrt a) <= PI / 2.
Proof.
  intros [H0 H1]. generalize PI_bounds; intros HPI.
  assert (Hx0 : 0 <= sqrt a) by apply sqrt_pos.
  assert (Hx1 : sqrt a <= 1) by (rewrite <- sqrt_1; apply sqrt_le_1; lra).
  destruct (asin_bound (sqrt a)) as [Hl Hu].
  split; [ | exact Hu ].
  destruct (Rle_lt_dec 0 (asin (sqrt a))) as [H | H]; [ exact H | ].
  assert (sin (asin (sqrt a)) < 0) by (apply sin_lt_0_var; lra).
  rewrite sin_asin in *; lra.
Qed.

(** X1.  Whenever [haversine_vectorized] returns a number, the number is not
    negative and is at most half the circumference of the sphere,
    [R * PI]: the defect of the cosines can shorten or lengthen a
    distance, or turn it into NaN, but cannot take it out of this
    range. *)
Theorem haversine_within_half_circumference (lat1 lon1 lat2 lon2 d : R) :
  haversine_vectorized lat1 lon1 lat2 lon2 = Some d ->
  0 <= d <= R_earth * PI.
Proof.
  unfold haversine_vectorized. intros H.
  assert (Ha := hav_of_a_Some _ _ H).
  rewrite (hav_of_a_asin _ Ha) in H. injection H as <-.
  destruct (asin_sqrt_range _ Ha) as [Hl Hu].
  unfold R_earth. split; nra.
Qed.

(** The distance between the points (1, 0) and (1, 180). *)
Lemma haversine_within_half_circumference_witness :
  0 <= R_earth * (PI - 2) <= R_earth * PI.
Proof.
  apply (haversine_within_half_circumference 1 0 1 180 (R_earth * (PI - 2))).
  exact haversine_1_0_1_180.
Defined.

(** X2.  On a meridian the defect has no effect: for two points of the same
    longitude, no more than 180 degrees of latitude apart, the source
    computes what the haversine formula gives, the radius times the
    difference of the latitudes in radians. *)
Theorem haversine_exact_on_meridian (lat1 lat2 lon : R) :
  -180 <= lat2 - lat1 <= 180 ->
  haversine_vectorized lat1 lon lat2 lon = haversine_formula lat1 lon lat2 lon
  /\ haversine_vectorized lat1 lon lat2 lon
     = Some (R_earth * (Rabs (lat2 - lat1) * PI / 180)).
Proof.
  intros Hd. generalize PI_bounds; intros HPI.
  assert (E : formula_a lat1 lon lat2 lon = hav_a lat1 lon lat2 lon).
  { unfold formula_a, hav_a; cbv zeta.
    replace (lon - lon) with 0 by lra. rewrite radians_0.
    replace (0 / 2) with 0 by lra. rewrite sin_0. ring. }
  split.
  - unfold haversine_formula, haversine_vectorized. now rewrite E.
  - rewrite haversine_meridian by exact Hd.
    do 2 f_equal. unfold radians.
    unfold Rabs. destruct (Rcase_abs (lat2 - lat1 )), (Rcase_abs ((lat2 - lat1) * PI / 180));
      nra.
Qed.

(** Two points of the Greenwich meridian, 10 degrees apart. *)
Lemma haversine_exact_on_meridian_witness :
  haversine_vectorized 20 0 30 0 = haversine_formula 20 0 30 0
  /\ haversine_vectorized 20 0 30 0 = Some (R_earth * (Rabs (30 - 20) * PI / 180)).
Proof.
  apply (haversine_exact_on_meridian 20 30 0). lra.
Defined.

(** X3.  Between a telemetry point and a signal that are at most 0.01 degrees
    apart in latitude and in longitude, as the candidates of the matcher
    are, the source returns a number, never NaN, whatever the signs of
    the cosines of the degrees; the number is not negative and is below
    1600 m. *)
Theorem haversine_of_candidates (lat1 lon1 lat2 lon2 : R) :
  -0.01 <= lat2 - lat1 <= 0.01 -> -0.01 <= lon2 - lon1 <= 0.01 ->
  exists d, haversine_vectorized lat1 lon1 lat2 lon2 = Some d /\ 0 <= d < 1600.
Proof.
  intros Hd He. generalize PI_bounds; intros HPI.
  assert (Ha := hav_a_in_box _ _ _ _ Hd He).
  unfold haversine_vectorized. rewrite (hav_of_a_asin _ Ha).
  eexists; split; [ reflexivity | ].
  destruct (asin_sqrt_range _ Ha) as [Hl Hu].
  split; [ unfold R_earth; nra | ].
  set (a := hav_a lat1 lon1 lat2 lon2) in *.
  assert (Hup : a <= (12375 / 100000000) ^ 2).
  { unfold a, hav_a, radians; cbv zeta.
    set (u := (lat2 - lat1) * PI / 180 / 2). set (v := (lon2 - lon1) * PI / 180 / 2).
    assert (Hu1 : -0.0000875 <= u <= 0.0000875) by (unfold u; split; nra).
    assert (Hv1 : -0.0000875 <= v <= 0.0000875) by (unfold v; split; nra).
    assert (Su := sin_sqr_le u ltac:(lra)). assert (Sv := sin_sqr_le v ltac:(lra)).
    assert (Cu : cos lat1 * cos lat2 <= 1).
    { generalize (COS_bound lat1) (COS_bound lat2). intros. nra. }
    assert (Pv : 0 <= sin v ^ 2) by nra.
    assert (cos lat1 * cos lat2 * sin v ^ 2 <= sin v ^ 2) by nra.
    assert (u ^ 2 <= 0.0000875 ^ 2) by nra.
    assert (v ^ 2 <= 0.0000875 ^ 2) by nra.
    lra. }
  assert (Hs : sqrt a <= 12375 / 100000000).
  { rewrite <- (sqrt_pow2 (12375 / 100000000)) by lra.
    apply sqrt_le_1; lra. }
  set (y := 800 / 6371000).
  assert (Hy : 0.0001255 < y < 0.0001256) by (unfold y; split; lra).
  assert (Hsy : y - y * y * y / 6 <= sin y) by (apply sin_lower3; lra).
  assert (Hlt : sqrt a < sin y).
  { assert (y * y <= 0.0001256 * 0.0001256) by nra.
    assert (y * y * y <= 0.0001256 * 0.0001256 * 0.0001256) by nra.
    lra. }
  assert (asin (sqrt a) < y).
  { apply asin_lt_angle; try lra.
    split; [ apply sqrt_pos | lra ]. }
  unfold R_earth, y in *. lra.
Qed.

(** A telemetry point in a corner of the box of the signal at (20, 78). *)
Lemma haversine_of_candidates_witness :
  exists d, haversine_vectorized 20.01 78.01 20 78 = Some d /\ 0 <= d < 1600.
Proof.
  apply (haversine_of_candidates 20.01 78.01 20 78); lra.
Defined.

(** X4.  The source returns NaN for coordinates that are valid: between a
    point of the equator and a point at a latitude of 2 to 3 degrees on
    the opposite meridian, the cosine of the latitude in degrees is
    negative and so is [a], whose square root is taken.  The haversine
    formula gives a distance there. *)
Theorem haversine_nan_on_opposite_meridian (lat2 lon : R) :
  2 <= lat2 <= 3 ->
  haversine_vectorized 0 lon lat2 (lon + 180) = None
  /\ exists d, haversine_formula 0 lon lat2 (lon + 180) = Some d.
Proof.
  intros [Hl Hu]. generalize PI_bounds; intros HPI.
  assert (Eh : radians (lon + 180 - lon) / 2 = PI / 2) by (unfold radians; lra).
  split.
  - unfold haversine_vectorized, hav_of_a, np_sqrt.
    assert (Ha : hav_a 0 lon lat2 (lon + 180) < 0).
    { unfold hav_a; cbv zeta. rewrite Eh, sin_PI2, cos_0.
      set (u := radians (lat2 - 0) / 2).
      assert (Hu1 : 0 <= u <= 0.03) by (unfold u, radians; split; nra).
      assert (Su := sin_sqr_le u ltac:(lra)).
      assert (u ^ 2 <= 0.03 ^ 2) by nra.
      assert (C2 : cos 2 <= -1 / 3).
      { destruct (cos_bounds4 2 ltac:(lra)) as [_ H2]. lra. }
      assert (Cl : cos lat2 <= cos 2) by (apply cos_decr_1; lra).
      lra. }
    destruct (Rle_dec 0 (hav_a 0 lon lat2 (lon + 180))); [ lra | reflexivity ].
  - unfold haversine_formula. apply hav_of_a_defined.
    unfold formula_a; cbv zeta. rewrite Eh, sin_PI2, radians_0, cos_0.
    replace (lat2 - 0) with lat2 by lra.
    set (u := radians lat2 / 2).
    replace (radians lat2) with (2 * u) by (unfold u; lra).
    rewrite cos_2a_sin.
    generalize (SIN_bound u). intros [S1 S2].
    split; nra.
Qed.

(** The point (0, 0) and the point (2, 180). *)
Lemma haversine_nan_on_opposite_meridian_witness :
  haversine_vectorized 0 0 2 (0 + 180) = None
  /\ exists d, haversine_formula 0 0 2 (0 + 180) = Some d.
Proof.
  apply (haversine_nan_on_opposite_meridian 2 0). lra.
Defined.

End GeodesicRange.

(** ** The mapping of the signals *)

Module MapperProperties.
Import Telemetry Mapper MapperFacts.

Lemma map_signals_well_formed (sig : SigTable) (ohe : OheTable) :
  App.map_signals (Csv sig) (Csv ohe)
  = if well_formed sig ohe
    then inr (flat_map keep_lat_lon (merge_left (sig_rows sig) (ohe_rows ohe)))
    else App.map_signals (Csv sig) (Csv ohe).
Proof.
  unfold well_formed, App.map_signals, merged, load_data, require,
    dropna_subset, bind, ret, raise.
  destruct (has_column "OHEMas" (ohe_columns ohe)); [ | reflexivity ].
  destruct (has_column "OHE FROM" (sig_columns sig)); [ | reflexivity ].
  destruct (has_column "Latitude" (ohe_columns ohe)); [ | reflexivity ].
  destruct (has_column "Longitude" (ohe_columns ohe)); [ | reflexivity ].
  simpl fst; simpl snd.
  destruct (has_column "Latitude" (sig_columns sig)); [ reflexivity | ].
  destruct (has_column "Longitude" (sig_columns sig)); reflexivity.
Qed.

Lemma map_signals_ill_formed (sig : SigTable) (ohe : OheTable) :
  well_formed sig ohe = false ->
  exists column, App.map_signals (Csv sig) (Csv ohe) = inl (KeyError column).
Proof.
  unfold well_formed, App.map_signals, merged, load_data, require,
    dropna_subset, bind, ret, raise.
  destruct (has_column "OHEMas" (ohe_columns ohe)); [ | eexists; reflexivity ].
  destruct (has_column "OHE FROM" (sig_columns sig)); [ | eexists; reflexivity ].
  destruct (has_column "Latitude" (ohe_columns ohe)); [ | eexists; reflexivity ].
  destruct (has_column "Longitude" (ohe_columns ohe)); [ | eexists; reflexivity ].
  simpl fst; simpl snd.
  destruct (has_column "Latitude" (sig_columns sig)); [ eexists; reflexivity | ].
  destruct (has_column "Longitude" (sig_columns sig)); [ eexists; reflexivity | ].
  discriminate.
Qed.

(** X6.  What [app.py] shows after the mapping of the signals, case by
    case.  Without both files: nothing, and no signal.  With a file that
    cannot be read: the error of the parser, and no signal.  With two
    tables: when the columns that are read are there and the signal list
    has no coordinate column of its own, the mapped signals and their
    number; otherwise the [KeyError] of a column, and no signal. *)
Theorem reference_step_outcomes :
  (forall ohe_file, App.reference_step None ohe_file = inr ([], []))
  /\ (forall signal_file, App.reference_step signal_file None = inr ([], []))
  /\ (forall ohe_file,
         App.reference_step (Some Unreadable) (Some ohe_file)
         = inr ([], [error_mapping ParserError]))
  /\ (forall sig,
         App.reference_step (Some (Csv sig)) (Some Unreadable)
         = inr ([], [error_mapping ParserError]))
  /\ (forall sig ohe,
         if well_formed sig ohe
         then exists signals_mapped,
             App.map_signals (Csv sig) (Csv ohe) = inr signals_mapped
             /\ App.reference_step (Some (Csv sig)) (Some (Csv ohe))
                = inr (signals_mapped,
                       [success_mapped (List.length signals_mapped)])
         else exists column,
             App.map_signals (Csv sig) (Csv ohe) = inl (KeyError column)
             /\ App.reference_step (Some (Csv sig)) (Some (Csv ohe))
                = inr ([], [error_mapping (KeyError column)])).
Proof.
  split; [ reflexivity | ].
  split; [ now intros [ sf | ] | ].
  split; [ reflexivity | ].
  split; [ reflexivity | ].
  intros sig ohe.
  destruct (well_formed sig ohe) eqn:W.
  - eexists. split.
    + rewrite map_signals_well_formed, W. reflexivity.
    + unfold App.reference_step, try_except, bind, ret.
      rewrite map_signals_well_formed, W. reflexivity.
  - destruct (map_signals_ill_formed _ _ W) as [column E].
    exists column. split; [ exact E | ].
    unfold App.reference_step, try_except, bind, ret. now rewrite E.
Qed.

(** *** The two copies of the mapper *)

Lemma keep_lat_lon_with_longitude (l : list Merged) :
  flat_map keep_lat_lon l = flat_map with_longitude (flat_map keep_lat l).
Proof.
  induction l as [ | m t IH ]; [ reflexivity | ].
  simpl. rewrite flat_map_app, <- IH. f_equal.
  unfold keep_lat_lon, keep_lat, with_longitude.
  destruct (m_Latitude m) as [la | ]; [ | reflexivity ].
  simpl. destruct (m_Longitude m); reflexivity.
Qed.

(** X8.  Whenever [app.py] maps the signals, [streamlit_app.py] maps them
    too, and the signals of [app.py] are those of [streamlit_app.py]
    whose longitude is known: [streamlit_app.py] drops on the latitude
    alone, and keeps a signal whose row of the master has no
    longitude. *)
Theorem app_signals_among_streamlit_signals
        (signal_file : upload SigTable) (ohe_file : upload OheTable)
        (signals_mapped : list Signal) :
  App.map_signals signal_file ohe_file = inr signals_mapped ->
  exists mapped_sigs,
    Streamlit.mapped_sigs signal_file ohe_file = inr mapped_sigs
    /\ signals_mapped = flat_map with_longitude mapped_sigs.
Proof.
  unfold App.map_signals, Streamlit.mapped_sigs, bind, ret.
  destruct (merged signal_file ohe_file) as [e | m]; [ discriminate | ].
  destruct (dropna_subset "Latitude" (fst m)) as [e | []]; [ discriminate | ].
  destruct (dropna_subset "Longitude" (fst m)) as [e | []]; [ discriminate | ].
  intros E. injection E as <-.
  eexists. split; [ reflexivity | ].
  apply keep_lat_lon_with_longitude.
Qed.

(** The master [doubled_master]: the signal is mapped twice by
    [streamlit_app.py], once by [app.py]. *)
Lemma app_signals_among_streamlit_signals_witness :
  exists mapped_sigs,
    Streamlit.mapped_sigs (Csv matched_signals) (Csv doubled_master)
    = inr mapped_sigs
    /\ [mkSignal (mkSigRow "S1" (codes "A1")) 0 0]
       = flat_map with_longitude mapped_sigs.
Proof.
  apply (app_signals_among_streamlit_signals
           (Csv matched_signals) (Csv doubled_master)).
  reflexivity.
Defined.

(** *** When the analysis of [streamlit_app.py] is aborted *)

Lemma mapped_sigs_well_formed (sig : SigTable) (ohe : OheTable) :
  (exists m, Streamlit.mapped_sigs (Csv sig) (Csv ohe) = inr m)
  <-> well_formed_streamlit sig ohe = true.
Proof.
  unfold well_formed_streamlit, Streamlit.mapped_sigs, merged, load_data,
    require, dropna_subset, bind, ret, raise.
  destruct (has_column "OHEMas" (ohe_columns ohe));
    [ | split; [ intros [m E]; discriminate | discriminate ] ].
  destruct (has_column "OHE FROM" (sig_columns sig));
    [ | split; [ intros [m E]; discriminate | discriminate ] ].
  destruct (has_column "Latitude" (ohe_columns ohe));
    [ | split; [ intros [m E]; discriminate | discriminate ] ].
  destruct (has_column "Longitude" (ohe_columns ohe));
    [ | split; [ intros [m E]; discriminate | discriminate ] ].
  simpl fst; simpl snd.
  destruct (has_column "Latitude" (sig_columns sig));
    [ split; [ intros [m E]; discriminate | discriminate ] | ].
  split; [ reflexivity | intros _; eexists; reflexivity ].
Qed.

(** X9.  The analysis of [streamlit_app.py] makes a report unless both
    reference files are given and their mapping raises: it always does
    when a reference file is missing, and with both files it does
    exactly when both can be read, the columns that are read are there
    and the signal list has no column [Latitude] of its own.  Nothing
    catches the exception of the mapping, which is worth the whole
    report, stoppages and statistics included. *)
Theorem analysis_aborted_by_mapping
        (fl : Float64) (sort_values : list Row -> list Row)
        (sort_stops : list Segmentation.Stop -> list Segmentation.Stop)
        (form : Streamlit.TripDetails) (loco_file : Frame) :
  (forall ohe_file,
      exists report,
        Streamlit.analyze fl sort_values sort_stops form loco_file None ohe_file
        = inr report)
  /\ (forall signal_file,
         exists report,
           Streamlit.analyze fl sort_values sort_stops form loco_file signal_file None
           = inr report)
  /\ (forall signal_file ohe_file,
         (exists report,
             Streamlit.analyze fl sort_values sort_stops form loco_file
                               (Some signal_file) (Some ohe_file) = inr report)
         <-> exists sig ohe,
             signal_file = Csv sig /\ ohe_file = Csv ohe
             /\ well_formed_streamlit sig ohe = true).
Proof.
  split; [ intros; eexists; reflexivity | ].
  split; [ intros [ sf | ]; eexists; reflexivity | ].
  intros signal_file ohe_file.
  assert (Hstep : (exists report,
                      Streamlit.analyze fl sort_values sort_stops form loco_file
                                        (Some signal_file) (Some ohe_file) = inr report)
                  <-> exists m, Streamlit.mapped_sigs signal_file ohe_file = inr m).
  { unfold Streamlit.analyze, Streamlit.report_arguments, Streamlit.signals_step,
      bind, ret.
    destruct (Streamlit.mapped_sigs signal_file ohe_file) as [e | m].
    - split; intros [x E]; discriminate.
    - split; intros _; eexists; reflexivity. }
  rewrite Hstep.
  destruct signal_file as [ | sig ], ohe_file as [ | ohe ].
  - split; [ intros [m E]; discriminate | intros (sig & ohe & E & _); discriminate ].
  - split; [ intros [m E]; discriminate | intros (sig & ohe' & E & _); discriminate ].
  - split; [ intros [m E]; discriminate | intros (sig' & ohe & _ & E & _); discriminate ].
  - rewrite mapped_sigs_well_formed. split.
    + intros W. now exists sig, ohe.
    + intros (sig' & ohe' & E1 & E2 & W). injection E1 as <-. injection E2 as <-.
      exact W.
Qed.

End MapperProperties.

(** ** Aggregates *)

Module AggregateFacts.
Import Segmentation.

Lemma fold_min_spec (t : list Z) (h : Z) :
  In (fold_left Z.min t h) (h :: t)
  /\ forall x, In x (h :: t) -> (fold_left Z.min t h <= x)%Z.
Proof.
  revert h; induction t as [ | y t IH ]; intros h; simpl.
  - split; [ now left | intros x [<- | []]; lia ].
  - destruct (IH (Z.min h y)) as [Hin Hle]. split.
    + destruct Hin as [E | Hin]; [ | now right; right ].
      rewrite <- E. destruct (Z.min_spec h y) as [[_ ->] | [_ ->]]; auto.
    + intros x [<- | [<- | Hx]].
      * generalize (Hle _ (or_introl eq_refl)). lia.
      * generalize (Hle _ (or_introl eq_refl)). lia.
      * apply Hle. now right.
Qed.

Lemma fold_max_spec (t : list Z) (h : Z) :
  In (fold_left Z.max t h) (h :: t)
  /\ forall x, In x (h :: t) -> (x <= fold_left Z.max t h)%Z.
Proof.
  revert h; induction t as [ | y t IH ]; intros h; simpl.
  - split; [ now left | intros x [<- | []]; lia ].
  - destruct (IH (Z.max h y)) as [Hin Hle]. split.
    + destruct Hin as [E | Hin]; [ | now right; right ].
      rewrite <- E. destruct (Z.max_spec h y) as [[_ ->] | [_ ->]]; auto.
    + intros x [<- | [<- | Hx]].
      * generalize (Hle _ (or_introl eq_refl)). lia.
      * generalize (Hle _ (or_introl eq_refl)). lia.
      * apply Hle. now right.
Qed.

Lemma fold_Rmax_spec (t : list R) (h : R) :
  In (fold_left Rmax t h) (h :: t)
  /\ forall x, In x (h :: t) -> x <= fold_left Rmax t h.
Proof.
  revert h; induction t as [ | y t IH ]; intros h; simpl.
  - split; [ now left | intros x [<- | []]; lra ].
  - destruct (IH (Rmax h y)) as [Hin Hle]. split.
    + destruct Hin as [E | Hin]; [ | now right; right ].
      rewrite <- E. unfold Rmax. destruct (Rle_dec h y); auto.
    + intros x [E | [E | Hx]].
      * subst x. generalize (Hle _ (or_introl eq_refl)) (Rmax_l h y). lra.
      * subst x. generalize (Hle _ (or_introl eq_refl)) (Rmax_r h y). lra.
      * apply Hle. now right.
Qed.

(** The least and the greatest timestamp of a group that is not empty
    are timestamps of the group, and bound the others. *)
Lemma agg_min_spec (l : list Z) :
  l <> [] -> In (agg_min l) l /\ forall x, In x l -> (agg_min l <= x)%Z.
Proof. destruct l as [ | h t ]; [ congruence | intros _; apply fold_min_spec ]. Qed.

Lemma agg_max_spec (l : list Z) :
  l <> [] -> In (agg_max l) l /\ forall x, In x l -> (x <= agg_max l)%Z.
Proof. destruct l as [ | h t ]; [ congruence | intros _; apply fold_max_spec ]. Qed.

Lemma agg_max_R_spec (l : list R) :
  l <> [] -> In (agg_max_R l) l /\ forall x, In x l -> x <= agg_max_R l.
Proof. destruct l as [ | h t ]; [ congruence | intros _; apply fold_Rmax_spec ]. Qed.

End AggregateFacts.

(** ** The intervals of the segmentation *)

Module IntervalProperties.
Import Telemetry Segmentation SegmentationFacts AggregateFacts.

(** *** The group counter counts the changes *)

Lemma counter_step {A : Type} (ne : A -> A -> bool) (acc : nat) (d : option A)
      (col : list A) (i : nat) (x y : A) (g g' : nat) :
  nth_error col i = Some x -> nth_error col (S i) = Some y ->
  nth_error (cumsum_bool_from acc (flags_from ne d col)) i = Some g ->
  nth_error (cumsum_bool_from acc (flags_from ne d col)) (S i) = Some g' ->
  g' = (g + (if ne y x then 1 else 0))%nat.
Proof.
  revert acc d i; induction col as [ | a t IH ]; intros acc d i Hx Hy Hg Hg'.
  - destruct i; discriminate.
  - destruct i as [ | i ].
    + destruct t as [ | b t' ]; [ discriminate | ].
      simpl in *. injection Hx as <-. injection Hy as <-.
      injection Hg as <-. injection Hg' as <-. reflexivity.
    + simpl in Hx, Hy. cbn [flags_from cumsum_bool_from] in Hg, Hg'.
      rewrite nth_error_cons_succ in Hg, Hg'.
      eapply IH; eassumption.
Qed.

Lemma nth_error_map_Some {A B : Type} (f : A -> B) (l : list A) (i : nat) (x : A) :
  nth_error l i = Some x -> nth_error (map f l) i = Some (f x).
Proof. intros H. now rewrite nth_error_map, H. Qed.

(** X10.  The stoppage counter, in both programs: the first row is in group 1;
    a row is in the group of the row before it when both are stopped or
    both are moving, and in the next group otherwise.  The groups are
    the runs of consecutive rows of one state. *)
Theorem stop_grp_counts_changes (stop_thresh : R) (loco_df : list Row)
        (i : nat) (r1 r2 : Row) (g1 g2 : nat) :
  nth_error loco_df i = Some r1 -> nth_error loco_df (S i) = Some r2 ->
  nth_error (stop_grp stop_thresh loco_df) i = Some g1 ->
  nth_error (stop_grp stop_thresh loco_df) (S i) = Some g2 ->
  hd_error (stop_grp stop_thresh loco_df) = Some 1%nat
  /\ g2 = if Bool.eqb (is_stopped stop_thresh r2) (is_stopped stop_thresh r1)
          then g1 else S g1.
Proof.
  intros H1 H2 Hg1 Hg2. split.
  - destruct loco_df; [ destruct i; discriminate | reflexivity ].
  - unfold stop_grp, cumsum_bool in *. rewrite ne_shift_flags in *.
    rewrite (counter_step xorb 0 None (map (is_stopped stop_thresh) loco_df) i
               (is_stopped stop_thresh r1) (is_stopped stop_thresh r2) g1 g2);
      auto using nth_error_map_Some.
    destruct (is_stopped stop_thresh r2), (is_stopped stop_thresh r1); simpl; lia.
Qed.

(** The first two rows of the stoppage scenario: the train moves, then
    stops. *)
Lemma stop_grp_counts_changes_witness :
  hd_error (stop_grp 2 (rows scenario_frame)) = Some 1%nat
  /\ 2%nat = if Bool.eqb (is_stopped 2 (scenario_row minute 1))
                         (is_stopped 2 (scenario_row 0 50))
             then 1%nat else 2%nat.
Proof.
  assert (E : stop_grp 2 (rows scenario_frame) = [1; 2; 2; 2; 3]%nat).
  { unfold stop_grp, scenario_frame, scenario_row, is_stopped; simpl.
    rewrite StoppageScenario.Rltb_50_2, StoppageScenario.Rltb_1_2,
      StoppageScenario.Rltb_60_2. reflexivity. }
  apply (stop_grp_counts_changes 2 (rows scenario_frame) 0
           (scenario_row 0 50) (scenario_row minute 1) 1 2).
  - reflexivity.
  - reflexivity.
  - now rewrite E.
  - now rewrite E.
Defined.

(** X11.  The section counter of [app.py]: a row is in the section of the row
    before it exactly when both have a station code and the codes are
    equal.  A row without station code is a section of its own, and the
    row after it starts a new one. *)
Theorem section_grp_counts_changes (loco_df : list Row)
        (i : nat) (r1 r2 : Row) (g1 g2 : nat) :
  nth_error loco_df i = Some r1 -> nth_error loco_df (S i) = Some r2 ->
  nth_error (section_grp loco_df) i = Some g1 ->
  nth_error (section_grp loco_df) (S i) = Some g2 ->
  hd_error (section_grp loco_df) = Some 1%nat
  /\ g2 = match stationCode r1, stationCode r2 with
          | Some c1, Some c2 => if String.eqb c1 c2 then g1 else S g1
          | _, _ => S g1
          end.
Proof.
  intros H1 H2 Hg1 Hg2. split.
  - destruct loco_df; [ destruct i; discriminate | reflexivity ].
  - unfold section_grp, cumsum_bool in *. rewrite ne_shift_flags in *.
    rewrite (counter_step ne_cell 0 None (map stationCode loco_df) i
               (stationCode r1) (stationCode r2) g1 g2);
      auto using nth_error_map_Some.
    unfold ne_cell.
    destruct (stationCode r1) as [c1 | ], (stationCode r2) as [c2 | ]; try lia.
    rewrite String.eqb_sym. destruct (String.eqb c1 c2); simpl; lia.
Qed.

(** A row with the station code "A" followed by a row without one. *)
Lemma section_grp_counts_changes_witness :
  hd_error (section_grp [moving_row; uncoded_row]) = Some 1%nat
  /\ 2%nat = match stationCode moving_row, stationCode uncoded_row with
             | Some c1, Some c2 => if String.eqb c1 c2 then 1%nat else 2%nat
             | _, _ => 2%nat
             end.
Proof.
  apply (section_grp_counts_changes [moving_row; uncoded_row] 0
           moving_row uncoded_row 1 2); reflexivity.
Defined.

(** *** The groups and their aggregates *)

Lemma groupby_nonempty {A : Type} (key : A -> nat) (l : list A)
      (k : nat) (g : list A) :
  In (k, g) (groupby key l) -> exists r, In r g.
Proof.
  unfold groupby. rewrite in_map_iff. intros (k' & E & Hk).
  injection E as -> <-.
  apply group_keys_In, in_map_iff in Hk. destruct Hk as (r & Hr & Hin).
  exists r. apply filter_In. split; [ exact Hin | now apply Nat.eqb_eq ].
Qed.

Lemma stop_group_member (stop_thresh : R) (loco_df : list Row)
      (k : nat) (g : list (nat * Row)) (p : nat * Row) :
  In (k, g) (stop_groups stop_thresh loco_df) -> In p g ->
  fst p = k /\ In (snd p) loco_df /\ is_stopped stop_thresh (snd p) = true
  /\ In p (combine (stop_grp stop_thresh loco_df) loco_df).
Proof.
  unfold stop_groups. intros Hg Hp.
  destruct (groupby_member _ _ _ _ _ Hg Hp) as [Ek Hin].
  apply filter_In in Hin. destruct Hin as [Hin Hs].
  repeat split; auto.
  destruct p as [i r]. now apply in_combine_r in Hin.
Qed.

Lemma map_nonempty {A B : Type} (f : A -> B) (l : list A) (x : A) :
  In x l -> map f l <> [].
Proof. destruct l; [ intros [] | discriminate ]. Qed.

(** X12.  Every stoppage interval, of either program, starts and ends at the
    timestamp of a stopped row of the frame, its start is not after its
    end, and its duration is not negative; the duration is the time
    between the first and the last of its samples, 0 for a stoppage of
    one sample. *)
Theorem stop_interval_endpoints
        (fl : Float64) (stop_thresh : R) (loco_df : list Row) (s : Stop) :
  In s (stops fl stop_thresh loco_df) ->
  (StartTime s <= EndTime s)%Z
  /\ 0 <= Duration_min s
  /\ (exists r, In r loco_df /\ is_stopped stop_thresh r = true
                /\ Logging_Time r = StartTime s)
  /\ (exists r, In r loco_df /\ is_stopped stop_thresh r = true
                /\ Logging_Time r = EndTime s).
Proof.
  unfold stops. rewrite in_map_iff. intros ([k g] & <- & Hg).
  destruct (groupby_nonempty _ _ _ _ Hg) as [p0 Hp0].
  set (times := map Logging_Time (map snd g)).
  assert (Hne : times <> []).
  { unfold times. apply map_nonempty with (snd p0). now apply in_map. }
  destruct (agg_min_spec times Hne) as [Hmin_in Hmin].
  destruct (agg_max_spec times Hne) as [Hmax_in Hmax].
  assert (Hle : (agg_min times <= agg_max times)%Z) by now apply Hmin.
  assert (Hrow : forall t, In t times ->
                           exists r, In r loco_df /\ is_stopped stop_thresh r = true
                                     /\ Logging_Time r = t).
  { intros t Ht. unfold times in Ht. rewrite map_map in Ht.
    apply in_map_iff in Ht. destruct Ht as (p & <- & Hp).
    destruct (stop_group_member _ _ _ _ _ Hg Hp) as (_ & Hin & Hs & _).
    now exists (snd p). }
  unfold Duration_min, stop_agg. cbn [StartTime EndTime fst snd]. fold times.
  split; [ exact Hle | ].
  split; [ | split; now apply Hrow ].
  assert (0 <= IZR (agg_max times - agg_min times)) by (apply IZR_le; lia).
  lra.
Qed.

(** The stoppage of the scenario, from the second sample to the fourth. *)
Lemma stop_interval_endpoints_witness :
  exists s,
    In s (stops exact_arith 2 (rows scenario_frame))
    /\ (StartTime s <= EndTime s)%Z
    /\ 0 <= Duration_min s
    /\ (exists r, In r (rows scenario_frame) /\ is_stopped 2 r = true
                  /\ Logging_Time r = StartTime s)
    /\ (exists r, In r (rows scenario_frame) /\ is_stopped 2 r = true
                  /\ Logging_Time r = EndTime s).
Proof.
  destruct (StoppageScenario.scenario_stops exact_arith (rows scenario_frame) 0
              StoppageScenario.scenario_frame_speeds
              StoppageScenario.scenario_frame_times) as (lat & lon & E).
  exists (mkStop 2 (0 + minute) (0 + 3 * minute) lat lon).
  assert (Hin : In (mkStop 2 (0 + minute) (0 + 3 * minute) lat lon)
                   (stops exact_arith 2 (rows scenario_frame)))
    by (rewrite E; now left).
  split; [ exact Hin | ].
  exact (stop_interval_endpoints exact_arith 2 (rows scenario_frame) _ Hin).
Defined.

(** *** Stoppages of a frame in the order of time *)

Lemma tagged_in_order (ids : list nat) (l : list Row) (p q : nat * Row) :
  StronglySorted le ids ->
  StronglySorted (fun a b => (a <= b)%Z) (map Logging_Time l) ->
  In p (combine ids l) -> In q (combine ids l) ->
  (fst p < fst q)%nat ->
  (Logging_Time (snd p) <= Logging_Time (snd q))%Z.
Proof.
  revert ids; induction l as [ | r t IH ]; intros ids Hi Ht Hp Hq Hlt.
  - destruct ids; destruct Hp.
  - destruct ids as [ | i ids' ]; [ destruct Hp | ].
    inversion Hi as [ | ? ? Hi' Hall ]; subst.
    simpl in Ht. inversion Ht as [ | ? ? Ht' Hallt ]; subst.
    destruct Hp as [Ep | Hp], Hq as [Eq | Hq].
    + subst p q. simpl in Hlt. lia.
    + subst p. simpl. destruct q as [j rq]. apply in_combine_r in Hq.
      rewrite Forall_forall in Hallt. apply Hallt. now apply in_map.
    + subst q. simpl in Hlt. destruct p as [j rp]. apply in_combine_l in Hp.
      rewrite Forall_forall in Hall. generalize (Hall _ Hp). simpl in Hlt. lia.
    + now apply (IH ids').
Qed.

Lemma map_pairwise {B : Type} (R : B -> B -> Prop) (f : nat -> B) (ks : list nat) :
  StronglySorted lt ks ->
  (forall k k', In k ks -> In k' ks -> (k < k')%nat -> R (f k) (f k')) ->
  StronglySorted R (map f ks).
Proof.
  induction 1 as [ | k t Ht IH Hall ]; intros H; simpl; constructor.
  - apply IH. intros a b Ha Hb. apply H; now right.
  - rewrite Forall_forall in *. intros y Hy.
    apply in_map_iff in Hy. destruct Hy as (k' & <- & Hk').
    apply H; [ now left | now right | now apply Hall ].
Qed.

(** X13.  In a frame that is ordered by timestamp, as the programs order it
    before the analysis, the stoppage intervals come out in the order of
    time and do not overlap: each one ends no later than every later one
    starts. *)
Theorem stops_in_order_of_time
        (fl : Float64) (stop_thresh : R) (loco_df : list Row) :
  Sorted by_Logging_Time loco_df ->
  StronglySorted (fun s1 s2 => (EndTime s1 <= StartTime s2)%Z)
                 (stops fl stop_thresh loco_df).
Proof.
  intros Hs.
  assert (Ht : StronglySorted (fun a b => (a <= b)%Z) (map Logging_Time loco_df)).
  { apply Sorted_StronglySorted in Hs.
    - clear -Hs. induction Hs as [ | r t Hs IH Hall ]; simpl; constructor; auto.
      rewrite Forall_forall in *. intros x Hx.
      apply in_map_iff in Hx. destruct Hx as (r' & <- & Hr'). now apply Hall.
    - intros a b c; unfold by_Logging_Time; lia. }
  unfold stops, stop_groups, groupby. rewrite map_map.
  apply map_pairwise; [ apply group_keys_sorted | ].
  intros k k' Hk Hk' Hlt.
  set (T := filter (fun p => is_stopped stop_thresh (snd p))
                   (combine (stop_grp stop_thresh loco_df) loco_df)) in *.
  assert (Hgroup : forall j, In j (group_keys (map fst T)) ->
            In (j, filter (fun r => (fst r =? j)%nat) T) (groupby fst T)).
  { intros j Hj. unfold groupby. apply in_map_iff. now exists j. }
  assert (Hend : exists p, In p (filter (fun r => (fst r =? k)%nat) T)
                 /\ Logging_Time (snd p)
                    = EndTime (stop_agg fl (k, filter (fun r => (fst r =? k)%nat) T))).
  { destruct (groupby_nonempty _ _ _ _ (Hgroup k Hk)) as [p0 Hp0].
    unfold stop_agg; cbn [EndTime fst snd].
    set (times := map Logging_Time (map snd (filter (fun r => (fst r =? k)%nat) T))).
    assert (Hne : times <> []).
    { unfold times. apply map_nonempty with (snd p0). now apply in_map. }
    destruct (agg_max_spec times Hne) as [Hin _].
    unfold times in Hin at 2. rewrite map_map in Hin.
    apply in_map_iff in Hin. destruct Hin as (p & E & Hp). now exists p. }
  assert (Hstart : exists q, In q (filter (fun r => (fst r =? k')%nat) T)
                 /\ Logging_Time (snd q)
                    = StartTime (stop_agg fl (k', filter (fun r => (fst r =? k')%nat) T))).
  { destruct (groupby_nonempty _ _ _ _ (Hgroup k' Hk')) as [p0 Hp0].
    unfold stop_agg; cbn [StartTime fst snd].
    set (times := map Logging_Time (map snd (filter (fun r => (fst r =? k')%nat) T))).
    assert (Hne : times <> []).
    { unfold times. apply map_nonempty with (snd p0). now apply in_map. }
    destruct (agg_min_spec times Hne) as [Hin _].
    unfold times in Hin at 2. rewrite map_map in Hin.
    apply in_map_iff in Hin. destruct Hin as (q & E & Hq). now exists q. }
  destruct Hend as (p & Hp & <-). destruct Hstart as (q & Hq & <-).
  apply filter_In in Hp, Hq.
  destruct Hp as [Hp Ep], Hq as [Hq Eq].
  apply Nat.eqb_eq in Ep, Eq.
  unfold T in Hp, Hq. apply filter_In in Hp, Hq.
  apply (tagged_in_order (stop_grp stop_thresh loco_df) loco_df p q);
    try tauto; [ apply cumsum_bool_from_sorted | lia ].
Qed.

(** A frame with two stoppages, one minute long each. *)
Lemma stops_in_order_of_time_witness :
  StronglySorted (fun s1 s2 => (EndTime s1 <= StartTime s2)%Z)
                 (stops exact_arith 2 (rows two_stops_frame)).
Proof.
  apply (stops_in_order_of_time exact_arith 2 (rows two_stops_frame)).
  unfold two_stops_frame, scenario_row, by_Logging_Time, minute; simpl.
  repeat constructor; simpl; lia.
Defined.

End IntervalProperties.

(** ** The sections and the retained stoppages *)

Module SectionProperties.
Import Telemetry Segmentation SegmentationFacts AggregateFacts IntervalProperties.

(** X14.  Every row of [sect_stats], the section summary of [app.py],
    stands for a group of rows of the frame that is not empty and whose
    rows all carry the station code of the row; rows without station code
    are in no section.  Its start and its end are the earliest and the
    latest timestamp of the group, its maximum speed is the speed of a row
    of the group and bounds the speeds of the others, and its average
    speed is the float64 mean of the speeds of the group. *)
Theorem sect_stats_rows
        (fl : Float64) (loco_df : Frame) (stats : list SectStat) (st : SectStat) :
  sect_stats fl loco_df = Some stats -> In st stats ->
  (sect_Start st <= sect_End st)%Z
  /\ exists c g,
      sect_stationCode st = Some c
      /\ In (sect_section_grp st, g) (section_groups (rows loco_df))
      /\ g <> []
      /\ (forall p, In p g ->
                    stationCode (snd p) = Some c /\ In (snd p) (rows loco_df)
                    /\ (sect_Start st <= Logging_Time (snd p) <= sect_End st)%Z
                    /\ Speed (snd p) <= sect_Max_Speed st)
      /\ (exists p, In p g /\ Logging_Time (snd p) = sect_Start st)
      /\ (exists p, In p g /\ Logging_Time (snd p) = sect_End st)
      /\ (exists p, In p g /\ Speed (snd p) = sect_Max_Speed st)
      /\ sect_Avg_Speed st = mean fl (map Speed (map snd g)).
Proof.
  unfold sect_stats. destruct (has_stationCode loco_df); [ | discriminate ].
  intros E Hst. injection E as <-.
  apply in_map_iff in Hst. destruct Hst as ([k g] & <- & Hg).
  destruct (groupby_nonempty _ _ _ _ Hg) as [p0 Hp0].
  assert (Hmember : forall p, In p g ->
            has_station (snd p) = true /\ In (snd p) (rows loco_df)).
  { intros p Hp. unfold section_groups in Hg.
    destruct (groupby_member _ _ _ _ _ Hg Hp) as [_ Hin].
    apply filter_In in Hin. destruct Hin as [Hin Hs].
    split; [ exact Hs | ]. destruct p as [i r]. now apply in_combine_r in Hin. }
  destruct g as [ | p1 g' ]; [ destruct Hp0 | ].
  set (g := p1 :: g') in *.
  set (speeds := map Speed (map snd g)).
  set (times := map Logging_Time (map snd g)).
  assert (Hs : speeds <> []) by discriminate.
  assert (Ht : times <> []) by discriminate.
  destruct (agg_min_spec times Ht) as [Hmin_in Hmin].
  destruct (agg_max_spec times Ht) as [Hmax_in Hmax].
  destruct (agg_max_R_spec speeds Hs) as [Hsp_in Hsp].
  unfold sect_agg. cbn [sect_Start sect_End sect_Avg_Speed sect_Max_Speed
                        sect_stationCode sect_section_grp fst snd].
  fold g. fold speeds. fold times.
  split; [ now apply Hmin | ].
  destruct (Hmember p1 (or_introl eq_refl)) as [Hc1 _].
  unfold has_station in Hc1.
  destruct (stationCode (snd p1)) as [c | ] eqn:Ec; [ | discriminate ].
  exists c, g. split; [ unfold g; simpl; exact Ec | ].
  split; [ exact Hg | ]. split; [ discriminate | ].
  assert (Hrow : forall (B : Type) (f : Row -> B) (x : B),
             In x (map f (map snd g)) -> exists p, In p g /\ f (snd p) = x).
  { intros B f x Hx. rewrite map_map in Hx. apply in_map_iff in Hx.
    destruct Hx as (p & E & Hp). now exists p. }
  split; [ | split; [ | split; [ | split ] ] ].
  - intros p Hp.
    assert (Htime : In (Logging_Time (snd p)) times)
      by (unfold times; now apply in_map, in_map).
    assert (Hspeed : In (Speed (snd p)) speeds)
      by (unfold speeds; now apply in_map, in_map).
    split; [ | split; [ now apply Hmember | split; [ split | ] ] ].
    + rewrite <- Ec.
      apply (section_grp_same_station (rows loco_df) k g p p1 Hg Hp).
      now left.
    + now apply Hmin.
    + now apply Hmax.
    + now apply Hsp.
  - now apply Hrow.
  - now apply Hrow.
  - now apply Hrow.
  - reflexivity.
Qed.

(** The section of the row at the station "A". *)
Lemma sect_stats_rows_witness :
  (sect_Start (station_section exact_arith)
   <= sect_End (station_section exact_arith))%Z
  /\ exists c g,
      sect_stationCode (station_section exact_arith) = Some c
      /\ In (sect_section_grp (station_section exact_arith), g)
            (section_groups (rows station_frame))
      /\ g <> []
      /\ (forall p, In p g ->
                    stationCode (snd p) = Some c /\ In (snd p) (rows station_frame)
                    /\ (sect_Start (station_section exact_arith)
                        <= Logging_Time (snd p)
                        <= sect_End (station_section exact_arith))%Z
                    /\ Speed (snd p) <= sect_Max_Speed (station_section exact_arith))
      /\ (exists p, In p g
                    /\ Logging_Time (snd p) = sect_Start (station_section exact_arith))
      /\ (exists p, In p g
                    /\ Logging_Time (snd p) = sect_End (station_section exact_arith))
      /\ (exists p, In p g
                    /\ Speed (snd p) = sect_Max_Speed (station_section exact_arith))
      /\ sect_Avg_Speed (station_section exact_arith)
         = mean exact_arith (map Speed (map snd g)).
Proof.
  apply (sect_stats_rows exact_arith station_frame
           [station_section exact_arith] (station_section exact_arith)).
  - reflexivity.
  - now left.
Defined.

(** X15.  The retained stoppages.  In [app.py] they are the stoppages of
    the ordered frame that last at least [stop_dur] minutes, a stoppage of
    exactly [stop_dur] minutes included, with the longest first.  With
    its constants, [streamlit_app.py] retains the stoppages that [app.py]
    retains for the threshold 2 km/h and the minimum of 2 minutes, and
    lists them by their start. *)
Theorem retained_stoppages
        (fl : Float64) (sort_values : list Row -> list Row)
        (sort_desc sort_start : list Stop -> list Stop)
        (stop_thresh stop_dur : R) (loco_file : Frame) :
  sorts_by by_Duration_desc sort_desc ->
  sorts_by by_Start sort_start ->
  (forall s,
      In s (App.valid_stops fl sort_values sort_desc stop_thresh stop_dur loco_file)
      <-> In s (stops fl stop_thresh (sort_values (rows loco_file)))
          /\ stop_dur <= Duration_min s)
  /\ Sorted by_Duration_desc
            (App.valid_stops fl sort_values sort_desc stop_thresh stop_dur loco_file)
  /\ Permutation (App.valid_stops fl sort_values sort_desc 2 2 loco_file)
                 (Streamlit.valid_stops fl sort_values sort_start loco_file)
  /\ Sorted by_Start (Streamlit.valid_stops fl sort_values sort_start loco_file).
Proof.
  intros Hd Hs.
  unfold App.valid_stops, Streamlit.valid_stops, Streamlit.min_dur_min,
    Streamlit.stop_thresh, sort_frame. cbn [rows].
  split; [ | split; [ apply Hd | split; [ | apply Hs ] ] ].
  - intros s.
    destruct (Hd (retained stop_dur
                           (stops fl stop_thresh (sort_values (rows loco_file)))))
      as [Hp _].
    split.
    + intros Hin. apply (Permutation_in _ Hp) in Hin.
      unfold retained in Hin. apply filter_In in Hin.
      now rewrite Rleb_true in Hin.
    + intros Hin. apply (Permutation_in _ (Permutation_sym Hp)).
      unfold retained. apply filter_In. now rewrite Rleb_true.
  - destruct (Hd (retained 2 (stops fl 2 (sort_values (rows loco_file))))) as [Hp _].
    destruct (Hs (retained 2 (stops fl 2 (sort_values (rows loco_file))))) as [Hp' _].
    rewrite Hp. now apply Permutation_sym.
Qed.

(** The stoppage scenario, under the insertion sorts. *)
Lemma retained_stoppages_witness :
  (forall s,
      In s (App.valid_stops exact_arith (insertion_sort time_leb)
                            (insertion_sort duration_desc_leb) 2 2 scenario_frame)
      <-> In s (stops exact_arith 2 (insertion_sort time_leb (rows scenario_frame)))
          /\ 2 <= Duration_min s)
  /\ Sorted by_Duration_desc
            (App.valid_stops exact_arith (insertion_sort time_leb)
                             (insertion_sort duration_desc_leb) 2 2 scenario_frame)
  /\ Permutation (App.valid_stops exact_arith (insertion_sort time_leb)
                                  (insertion_sort duration_desc_leb) 2 2 scenario_frame)
                 (Streamlit.valid_stops exact_arith (insertion_sort time_leb)
                                        (insertion_sort start_leb) scenario_frame)
  /\ Sorted by_Start (Streamlit.valid_stops exact_arith (insertion_sort time_leb)
                                             (insertion_sort start_leb) scenario_frame).
Proof.
  apply (retained_stoppages exact_arith (insertion_sort time_leb)
           (insertion_sort duration_desc_leb) (insertion_sort start_leb)
           2 2 scenario_frame).
  - exact SortFacts.duration_sort_sorts.
  - exact SortFacts.start_sort_sorts.
Defined.

End SectionProperties.

(** ** The key figures of the trip *)

Module KpiProperties.
Import Telemetry Segmentation AggregateFacts TelemetryFacts.

Lemma last_default {A : Type} (l : list A) (x d d' : A) :
  last (x :: l) d = last (x :: l) d'.
Proof.
  revert x; induction l as [ | y t IH ]; intros x; [ reflexivity | ].
  change (last (y :: t) d = last (y :: t) d'). apply IH.
Qed.

Lemma fold_Rmax_last (t : list R) (h d : R) :
  ascending (h :: t) -> fold_left Rmax t h = last (h :: t) d.
Proof.
  revert h; induction t as [ | y t IH ]; intros h H; [ reflexivity | ].
  assert (Hy : h <= y) by (apply (H 0%nat); reflexivity).
  cbn [fold_left]. rewrite Rmax_right by exact Hy.
  change (last (h :: y :: t) d) with (last (y :: t) d).
  apply IH. intros i a b Ha Hb. apply (H (S i)); assumption.
Qed.

(** The maximum of a column that is non-decreasing is its last value. *)
Lemma series_max_last (l : list R) :
  ascending l -> l <> [] -> Streamlit.series_max l = Some (last l 0).
Proof.
  destruct l as [ | h t ]; [ congruence | ]. intros H _.
  unfold Streamlit.series_max. now rewrite (fold_Rmax_last _ _ 0 H).
Qed.

Lemma last_running_sums (acc : R) (l : list R) :
  l <> [] -> last (running_sums acc l) 0 = acc + total l.
Proof.
  revert acc; induction l as [ | x t IH ]; intros acc Hne; [ congruence | ].
  destruct t as [ | y t' ].
  - unfold total; simpl. lra.
  - change (running_sums acc (x :: y :: t'))
      with ((acc + x) :: running_sums (acc + x) (y :: t')).
    change (last ((acc + x) :: running_sums (acc + x) (y :: t')) 0)
      with (last (running_sums (acc + x) (y :: t')) 0).
    rewrite IH by discriminate. unfold total. simpl. lra.
Qed.

Lemma ascending_running_sums (acc : R) (l : list R) :
  Forall (Rle 0) l -> ascending (running_sums acc l).
Proof.
  revert acc; induction l as [ | x t IH ]; intros acc Hall i a b Ha Hb.
  - destruct i; discriminate.
  - inversion Hall as [ | ? ? Hx Ht ]; subst.
    destruct i as [ | i ]; simpl in Ha, Hb.
    + destruct t as [ | y t' ]; [ discriminate | ].
      simpl in Hb. inversion Ht; subst.
      injection Ha as <-. injection Hb as <-. lra.
    + now apply (IH (acc + x) Ht i).
Qed.

Lemma ascending_map (f : R -> R) (l : list R) :
  (forall a b, a <= b -> f a <= f b) -> ascending l -> ascending (map f l).
Proof.
  intros Hf H i a b Ha Hb. rewrite nth_error_map in Ha, Hb.
  destruct (nth_error l i) as [a' | ] eqn:Ea; [ | discriminate ].
  destruct (nth_error l (S i)) as [b' | ] eqn:Eb; [ | discriminate ].
  injection Ha as <-. injection Hb as <-. apply Hf. exact (H _ _ _ Ea Eb).
Qed.

Lemma last_map {A B : Type} (f : A -> B) (l : list A) (d : A) :
  last (map f l) (f d) = f (last l d).
Proof.
  induction l as [ | x t IH ]; [ reflexivity | ].
  destruct t; [ reflexivity | exact IH ].
Qed.

Lemma last_map_nonempty {A B : Type} (f : A -> B) (l : list A) (d : A) (d' : B) :
  l <> [] -> last (map f l) d' = f (last l d).
Proof.
  destruct l as [ | x t ]; [ congruence | intros _ ].
  rewrite <- (last_map f (x :: t) d).
  exact (last_default (map f t) (f x) d' (f d)).
Qed.

Lemma running_sums_nonempty (acc : R) (l : list R) :
  l <> [] -> running_sums acc l <> [].
Proof. destruct l; [ congruence | discriminate ]. Qed.

Lemma total_zeros {A : Type} (l : list A) : total (map (fun _ => 0) l) = 0.
Proof. unfold total. induction l; simpl; lra. Qed.

Lemma last_seq (n : nat) : last (seq 0 (S n)) 0%nat = n.
Proof.
  rewrite seq_S. simpl Nat.add. apply last_last.
Qed.

(** The values of the cumulative distance that are not missing are the
    running sums of the incremental distances that are not missing. *)
Lemma present_cumsum_from (acc : R) (l : list (option R)) :
  present (map div_1000 (cumsum_from acc l))
  = map (fun s => s / 1000) (running_sums acc (present l)).
Proof.
  revert acc; induction l as [ | [x | ] t IH ]; intros acc; simpl;
    [ reflexivity | f_equal | ]; apply IH.
Qed.

Lemma present_map_Some {A : Type} (f : A -> R) (l : list A) :
  present (map (fun x => Some (f x)) l) = map f l.
Proof. induction l; simpl; [ reflexivity | now f_equal ]. Qed.

Lemma present_forward (l : list (option R)) :
  Forall forward l -> Forall (Rle 0) (present l).
Proof.
  induction 1 as [ | [x | ] t Hx Ht IH ]; simpl; [ constructor | | exact IH ].
  constructor; [ exact Hx | exact IH ].
Qed.

(** The maximum of the running sums, in kilometers. *)
Lemma max_running_km (l : list R) :
  Forall (Rle 0) l -> l <> [] ->
  Streamlit.series_max (map (fun s => s / 1000) (running_sums 0 l))
  = Some (total l / 1000).
Proof.
  intros Hall Hne.
  rewrite series_max_last.
  - f_equal.
    rewrite (last_map_nonempty (fun s => s / 1000) _ 0)
      by now apply running_sums_nonempty.
    rewrite last_running_sums by exact Hne. f_equal. lra.
  - apply ascending_map; [ intros; lra | now apply ascending_running_sums ].
  - destruct l; [ congruence | discriminate ].
Qed.

(** X16.  With the column of incremental distances, none of them
    negative and one of them at least not missing, the total distance of
    both programs is the sum of the incremental distances that are not
    missing, in kilometers: the maximum of the cumulative distance is its
    last value. *)
Theorem total_distance_is_sum (fl : Float64) (loco_df : Frame) :
  has_distFromPrevLatLng loco_df = true ->
  (exists r x, In r (rows loco_df) /\ distFromPrevLatLng r = Some x) ->
  Forall (fun r => forall x, distFromPrevLatLng r = Some x -> 0 <= x)
         (rows loco_df) ->
  Kpi.total_dist loco_df
  = Some (total (present (map distFromPrevLatLng (rows loco_df))) / 1000)
  /\ Streamlit.dist (Kpi.stats fl loco_df) = Kpi.total_dist loco_df.
Proof.
  intros Hc (r & x & Hr & Hx) Hpos.
  assert (E : cum_dist_km loco_df = Distance_km loco_df).
  { unfold cum_dist_km, Distance_km. now rewrite Hc. }
  unfold Kpi.stats, Kpi.total_dist. cbn [Streamlit.dist]. rewrite E.
  split; [ | reflexivity ].
  unfold Distance_km. rewrite Hc. unfold cumsum. rewrite present_cumsum_from.
  apply max_running_km.
  - apply present_forward. rewrite Forall_map.
    eapply Forall_impl; [ | exact Hpos ].
    intros r' H. unfold forward.
    destruct (distFromPrevLatLng r') as [y | ] eqn:Ey; [ now apply H | exact I ].
  - clear -Hr Hx. induction (rows loco_df) as [ | r0 t IH ]; [ destruct Hr | ].
    simpl. destruct Hr as [-> | Hr]; [ rewrite Hx; discriminate | ].
    destruct (distFromPrevLatLng r0); [ discriminate | now apply IH ].
Qed.

(** The frame with the incremental distances 5 and 3: 0.008 km. *)
Lemma total_distance_is_sum_witness :
  Kpi.total_dist forward_frame
  = Some (total (present (map distFromPrevLatLng (rows forward_frame))) / 1000)
  /\ Streamlit.dist (Kpi.stats exact_arith forward_frame)
     = Kpi.total_dist forward_frame.
Proof.
  apply (total_distance_is_sum exact_arith forward_frame).
  - reflexivity.
  - exists (mkRow 0 0 0 10 (Some 5) None), 5. split; [ now left | reflexivity ].
  - unfold forward_frame; cbn [rows].
    constructor; [ | constructor; [ | constructor ] ];
      cbn [distFromPrevLatLng]; intros x E; injection E as E'; lra.
Defined.

(** X17.  Without the column of incremental distances the total
    distance does not depend on where the train went: [app.py] reports
    0.01 km for every row after the first, [streamlit_app.py] reports
    0 km. *)
Theorem total_distance_without_column (fl : Float64) (loco_df : Frame) :
  has_distFromPrevLatLng loco_df = false ->
  rows loco_df <> [] ->
  Kpi.total_dist loco_df = Some (INR (List.length (rows loco_df) - 1) * 0.01)
  /\ Streamlit.dist (Kpi.stats fl loco_df) = Some 0.
Proof.
  intros Hc Hne.
  unfold Kpi.stats, Kpi.total_dist. cbn [Streamlit.dist].
  split.
  - unfold Distance_km. rewrite Hc, present_map_Some.
    rewrite series_max_last.
    + f_equal. unfold arange.
      destruct (rows loco_df) as [ | r t ]; [ congruence | ].
      cbn [List.length]. rewrite Nat.sub_succ, Nat.sub_0_r.
      rewrite map_map.
      rewrite (last_map_nonempty (fun i => INR i * 0.01) _ 0%nat)
        by (rewrite seq_S; now destruct (seq 0 (List.length t))).
      now rewrite last_seq.
    + intros i a b Ha Hb.
      generalize (non_decreasing_arange (List.length (rows loco_df)) i
                    (Some a) (Some b)).
      rewrite !nth_error_map in *.
      destruct (nth_error (arange (List.length (rows loco_df))) i);
        [ | discriminate ].
      destruct (nth_error (arange (List.length (rows loco_df))) (S i));
        [ | discriminate ].
      simpl in *. injection Ha as <-. injection Hb as <-.
      intros H. exact (H eq_refl eq_refl).
    + unfold arange. destruct (rows loco_df); [ congruence | discriminate ].
  - unfold cum_dist_km. rewrite Hc. unfold cumsum.
    rewrite present_cumsum_from, (present_map_Some (fun _ => 0)).
    rewrite max_running_km.
    + rewrite total_zeros. f_equal. lra.
    + clear. induction (rows loco_df); simpl; constructor; auto; lra.
    + destruct (rows loco_df); [ congruence | discriminate ].
Qed.

(** The two points about 55.6 m apart: 0.01 km and 0 km. *)
Lemma total_distance_without_column_witness :
  Kpi.total_dist two_points_frame
  = Some (INR (List.length (rows two_points_frame) - 1) * 0.01)
  /\ Streamlit.dist (Kpi.stats exact_arith two_points_frame) = Some 0.
Proof.
  apply (total_distance_without_column exact_arith two_points_frame).
  - reflexivity.
  - discriminate.
Defined.

End KpiProperties.

(** ** Speed and duration of the trip *)

Module FigureProperties.
Import Telemetry Segmentation AggregateFacts.

Lemma series_max_perm (l l' : list R) :
  Permutation l l' -> Streamlit.series_max l = Streamlit.series_max l'.
Proof.
  intros Hp.
  destruct l as [ | h t ], l' as [ | h' t' ].
  - reflexivity.
  - apply Permutation_nil in Hp. discriminate.
  - apply Permutation_sym, Permutation_nil in Hp. discriminate.
  - unfold Streamlit.series_max. f_equal.
    destruct (fold_Rmax_spec t h) as [Hin Hmax].
    destruct (fold_Rmax_spec t' h') as [Hin' Hmax'].
    apply Rle_antisym.
    + apply Hmax'. now apply (Permutation_in _ Hp).
    + apply Hmax. now apply (Permutation_in _ (Permutation_sym Hp)).
Qed.

Lemma agg_max_perm (l l' : list Z) : Permutation l l' -> agg_max l = agg_max l'.
Proof.
  intros Hp.
  destruct l as [ | h t ], l' as [ | h' t' ].
  - reflexivity.
  - apply Permutation_nil in Hp. discriminate.
  - apply Permutation_sym, Permutation_nil in Hp. discriminate.
  - unfold agg_max.
    destruct (fold_max_spec t h) as [Hin Hmax].
    destruct (fold_max_spec t' h') as [Hin' Hmax'].
    apply Z.le_antisymm.
    + apply Hmax'. now apply (Permutation_in _ Hp).
    + apply Hmax. now apply (Permutation_in _ (Permutation_sym Hp)).
Qed.

Lemma agg_min_perm (l l' : list Z) : Permutation l l' -> agg_min l = agg_min l'.
Proof.
  intros Hp.
  destruct l as [ | h t ], l' as [ | h' t' ].
  - reflexivity.
  - apply Permutation_nil in Hp. discriminate.
  - apply Permutation_sym, Permutation_nil in Hp. discriminate.
  - unfold agg_min.
    destruct (fold_min_spec t h) as [Hin Hmin].
    destruct (fold_min_spec t' h') as [Hin' Hmin'].
    apply Z.le_antisymm.
    + apply Hmin. now apply (Permutation_in _ (Permutation_sym Hp)).
    + apply Hmin'. now apply (Permutation_in _ Hp).
Qed.

Lemma hours_perm (l l' : list Z) :
  Permutation l l' -> Streamlit.hours l = Streamlit.hours l'.
Proof.
  intros Hp.
  destruct l as [ | h t ], l' as [ | h' t' ].
  - reflexivity.
  - apply Permutation_nil in Hp. discriminate.
  - apply Permutation_sym, Permutation_nil in Hp. discriminate.
  - unfold Streamlit.hours.
    now rewrite (agg_max_perm _ _ Hp), (agg_min_perm _ _ Hp).
Qed.

(** X18.  The maximum speed and the duration of the trip do not depend
    on the order of the rows: they are the same before and after
    [sort_values], whatever order the sort gives to rows of equal
    timestamp. *)
Theorem figures_independent_of_order
        (sort_values : list Row -> list Row) (loco_file : Frame) :
  sorts_by by_Logging_Time sort_values ->
  Kpi.max_spd (sort_frame sort_values loco_file) = Kpi.max_spd loco_file
  /\ Kpi.duration (sort_frame sort_values loco_file) = Kpi.duration loco_file.
Proof.
  intros Hs. destruct (Hs (rows loco_file)) as [Hp _].
  unfold Kpi.max_spd, Kpi.duration, sort_frame. cbn [rows].
  split.
  - apply series_max_perm. now apply Permutation_map.
  - apply hours_perm. now apply Permutation_map.
Qed.

(** A frame whose two rows are in the order opposite to that of their
    timestamps: the sort exchanges them. *)
Lemma figures_independent_of_order_witness :
  Kpi.max_spd (sort_frame (insertion_sort time_ltb) unordered_frame)
  = Kpi.max_spd unordered_frame
  /\ Kpi.duration (sort_frame (insertion_sort time_ltb) unordered_frame)
     = Kpi.duration unordered_frame.
Proof.
  apply (figures_independent_of_order (insertion_sort time_ltb) unordered_frame).
  exact SortFacts.time_sort_after_sorts.
Defined.

Lemma unordered_frame_sorted :
  rows (sort_frame (insertion_sort time_ltb) unordered_frame)
  = rev (rows unordered_frame).
Proof. reflexivity. Qed.

(** X19.  The figures of a trip.  Of a frame without rows every figure
    is NaN.  Otherwise the maximum speed is the speed of a row and bounds
    the speed of every row, the duration is the time from the earliest
    timestamp of the frame to the latest and is not negative, and the
    average speed is the float64 mean of the column of speeds. *)
Theorem speed_and_duration_figures (fl : Float64) (loco_df : Frame) :
  (rows loco_df = []
   /\ Kpi.avg_spd fl loco_df = None /\ Kpi.max_spd loco_df = None
   /\ Kpi.duration loco_df = None /\ Kpi.total_dist loco_df = None
   /\ Streamlit.dist (Kpi.stats fl loco_df) = None)
  \/ (exists first_row last_row fastest,
         In first_row (rows loco_df) /\ In last_row (rows loco_df)
         /\ In fastest (rows loco_df)
         /\ (forall r, In r (rows loco_df) ->
                       (Logging_Time first_row <= Logging_Time r
                        <= Logging_Time last_row)%Z
                       /\ Speed r <= Speed fastest)
         /\ Kpi.max_spd loco_df = Some (Speed fastest)
         /\ Kpi.duration loco_df
            = Some (IZR (Logging_Time last_row - Logging_Time first_row)
                    / 1000000000 / 3600)
         /\ 0 <= IZR (Logging_Time last_row - Logging_Time first_row)
                 / 1000000000 / 3600
         /\ Kpi.avg_spd fl loco_df = Some (mean fl (map Speed (rows loco_df)))).
Proof.
  destruct (rows loco_df) as [ | r0 t ] eqn:E.
  - left. unfold Kpi.avg_spd, Kpi.max_spd, Kpi.duration, Kpi.total_dist,
            Kpi.stats, Distance_km, cum_dist_km.
    cbn [Streamlit.dist]. rewrite E.
    destruct (has_distFromPrevLatLng loco_df); repeat split; reflexivity.
  - right.
    set (speeds := map Speed (r0 :: t)). set (times := map Logging_Time (r0 :: t)).
    assert (Hs : speeds <> []) by discriminate.
    assert (Ht : times <> []) by discriminate.
    destruct (agg_max_R_spec speeds Hs) as [Hin Hmax].
    destruct (agg_min_spec times Ht) as [Hmin_in Hmin].
    destruct (agg_max_spec times Ht) as [Hmax_in Hmaxt].
    unfold speeds in Hin at 2. apply in_map_iff in Hin.
    destruct Hin as (fastest & Ef & Hf).
    unfold times in Hmin_in at 2. apply in_map_iff in Hmin_in.
    destruct Hmin_in as (first_row & E1 & H1).
    unfold times in Hmax_in at 2. apply in_map_iff in Hmax_in.
    destruct Hmax_in as (last_row & E2 & H2).
    exists first_row, last_row, fastest.
    assert (Hd : 0 <= IZR (Logging_Time last_row - Logging_Time first_row)).
    { apply IZR_le.
      assert (In (Logging_Time last_row) times) by (unfold times; now apply in_map).
      rewrite E1. generalize (Hmin _ H). lia. }
    repeat (split; [ assumption | ]).
    split.
    { intros r Hr. rewrite E1, E2, Ef. split; [ split | ].
      - apply Hmin. unfold times. now apply in_map.
      - apply Hmaxt. unfold times. now apply in_map.
      - apply Hmax. unfold speeds. now apply in_map. }
    unfold Kpi.avg_spd, Kpi.max_spd, Kpi.duration. rewrite E.
    rewrite E1, E2, Ef.
    split; [ reflexivity | ]. split; [ reflexivity | ].
    split; [ | reflexivity ].
    rewrite <- E1, <- E2. lra.
Qed.

End FigureProperties.

(** ** The passes of the signals *)

Module PassProperties.
Import Telemetry Mapper App MatcherFacts.

Lemma flat_map_at_most_one {A B : Type} (f : A -> list B) (l : list A) :
  (forall x, (List.length (f x) <= 1)%nat) ->
  (List.length (flat_map f l) <= List.length l)%nat.
Proof.
  intros H. induction l as [ | x t IH ]; simpl; [ lia | ].
  rewrite length_app. generalize (H x). lia.
Qed.

(** The pass that the body of the loop returns. *)
Lemma match_signal_pass (fl : Float64) (columns : list string)
      (loco_df : list Row) (sig : Signal) (pass : SignalPass) :
  match_signal fl columns loco_df sig = inr (Some pass) ->
  has_column "SIGNAL NAME" columns = true
  /\ exists p,
      In p loco_df /\ in_box fl sig p = true
      /\ pass_Signal pass = SIGNAL_NAME (signal_row sig)
      /\ Pass_Time pass = Logging_Time p
      /\ pass_Speed pass = Speed p
      /\ dist_to sig p = Some (Distance_to_Signal pass)
      /\ Distance_to_Signal pass < 200.
Proof.
  intros H.
  destruct (match_signal_cases fl columns loco_df sig)
    as [(E & _)
       | [(before & closest & after & d & El & Hbox & Hd & Hlt & _ & _ & E)
         | (E & _)]];
    rewrite E in H; try discriminate.
  destruct (has_column "SIGNAL NAME" columns); [ | discriminate ].
  injection H as <-. split; [ reflexivity | ].
  exists closest. unfold pass_of; simpl.
  repeat split; auto. rewrite El. apply in_or_app. right. now left.
Qed.

(** X20.  The loop over the mapped signals of [app.py].  When it
    returns, it has recorded at most one pass for every signal, and every
    pass carries the name of a mapped signal, the timestamp and the speed
    of a telemetry row within the box of the signal, and the distance
    that [haversine_vectorized] gives between the two, which is below
    200 m; without telemetry, and for a signal list without the column
    ['SIGNAL NAME'], there is no pass.  When it raises, a signal of such
    a list is visited and the exception is the [KeyError] of the name, or
    every distance of the candidates of a signal is NaN.  Under the
    contract of the rounding, for signals whose coordinates are degrees
    and a signal list with the column, it returns. *)
Theorem recorded_passes
        (fl : Float64) (columns : list string)
        (loco_df : list Row) (signals_mapped : list Signal) :
  (forall sig_res_df,
      results fl columns loco_df signals_mapped = inr sig_res_df ->
      (List.length sig_res_df <= List.length signals_mapped)%nat
      /\ (loco_df = [] -> sig_res_df = [])
      /\ (has_column "SIGNAL NAME" columns = false -> sig_res_df = [])
      /\ forall pass, In pass sig_res_df ->
           exists sig p,
             In sig signals_mapped /\ In p loco_df /\ in_box fl sig p = true
             /\ pass_Signal pass = SIGNAL_NAME (signal_row sig)
             /\ Pass_Time pass = Logging_Time p
             /\ pass_Speed pass = Speed p
             /\ dist_to sig p = Some (Distance_to_Signal pass)
             /\ Distance_to_Signal pass < 200)
  /\ (forall e,
         results fl columns loco_df signals_mapped = inl e ->
         exists sig,
           In sig signals_mapped
           /\ ((e = KeyError "SIGNAL NAME"
                /\ has_column "SIGNAL NAME" columns = false
                /\ exists p d, In p loco_df /\ in_box fl sig p = true
                               /\ dist_to sig p = Some d /\ d < 200)
               \/ (e = AllNaN
                   /\ (exists p, In p loco_df /\ in_box fl sig p = true)
                   /\ forall p, In p loco_df -> in_box fl sig p = true ->
                                dist_to sig p = None)))
  /\ (rounds fl ->
      (forall sig, In sig signals_mapped ->
                   Rabs (sig_Latitude sig) <= 360
                   /\ Rabs (sig_Longitude sig) <= 360) ->
      has_column "SIGNAL NAME" columns = true ->
      exists sig_res_df, results fl columns loco_df signals_mapped = inr sig_res_df).
Proof.
  split; [ | split ].
  - intros sig_res_df H.
    assert (Hret := results_returns _ _ _ _ _ H).
    rewrite (results_spec _ _ _ _ Hret) in H. injection H as <-.
    split; [ | split; [ | split ] ].
    + apply flat_map_at_most_one. intros sig.
      destruct (match_signal fl columns loco_df sig) as [e | [pass | ]]; simpl; lia.
    + intros ->. induction signals_mapped as [ | sig t IH ]; [ reflexivity | ].
      simpl. apply IH. intros s Hs. apply Hret. now right.
    + intros Hc. clear Hret.
      induction signals_mapped as [ | sig t IH ]; [ reflexivity | ].
      simpl. rewrite IH.
      destruct (match_signal fl columns loco_df sig) as [e | [pass | ]] eqn:E;
        try reflexivity.
      destruct (match_signal_pass _ _ _ _ _ E) as [Hc' _]. congruence.
    + intros pass Hin. apply in_flat_map in Hin. destruct Hin as (sig & Hsig & Hin).
      destruct (match_signal fl columns loco_df sig) as [e | [pass' | ]] eqn:E;
        try destruct Hin.
      * subst pass'. destruct (match_signal_pass _ _ _ _ _ E) as [_ (p & Hp)].
        exists sig, p. tauto.
      * destruct H.
  - intros e H. destruct (results_raises _ _ _ _ _ H) as (sig & Hsig & E).
    exists sig. split; [ exact Hsig | ].
    destruct (match_signal_cases fl columns loco_df sig)
      as [(E' & _)
         | [(before & closest & after & d & El & Hbox & Hd & Hlt & _ & _ & E')
           | (E' & Hne & Hall)]];
      rewrite E' in E; try discriminate.
    + destruct (has_column "SIGNAL NAME" columns); [ discriminate | ].
      injection E as <-. left. split; [ reflexivity | ]. split; [ reflexivity | ].
      exists closest, d. repeat split; auto.
      rewrite El. apply in_or_app. right. now left.
    + injection E as <-. right. split; [ reflexivity | ]. split; [ | exact Hall ].
      destruct (nearby fl loco_df sig) as [ | p0 nb ] eqn:En; [ now contradiction Hne | ].
      assert (Hp0 : In p0 (nearby fl loco_df sig)) by (rewrite En; now left).
      apply filter_In in Hp0. now exists p0.
  - intros Hr Hdeg Hc. eexists. apply results_spec.
    intros sig Hsig. destruct (Hdeg sig Hsig) as [Hla Hlo].
    destruct (match_signal fl columns loco_df sig) as [e | r] eqn:E;
      [ exfalso | now exists r ].
    destruct (match_signal_cases fl columns loco_df sig)
      as [(E' & _) | [(b & c & a & d & _ & _ & _ & _ & _ & _ & E') | (E' & _)]];
      rewrite E' in E.
    + discriminate.
    + rewrite Hc in E. discriminate.
    + apply (match_signal_not_NaN fl columns loco_df sig Hr Hla Hlo). exact E'.
Qed.

Lemma filter_implied {A : Type} (f g : A -> bool) (l : list A) :
  (forall x, f x = true -> g x = true) ->
  filter f (filter g l) = filter f l /\ filter g (filter f l) = filter f l.
Proof.
  intros H. induction l as [ | x t [IH1 IH2] ]; [ split; reflexivity | ].
  cbn [filter].
  destruct (f x) eqn:Ef.
  - rewrite (H x Ef). cbn [filter]. rewrite Ef, (H x Ef), IH1, IH2.
    split; reflexivity.
  - destruct (g x) eqn:Eg; cbn [filter]; rewrite ?Ef; split; assumption.
Qed.

Lemma filter_excluded {A : Type} (f g : A -> bool) (l : list A) :
  (forall x, f x = true -> g x = false) -> filter g (filter f l) = [].
Proof.
  intros H. induction l as [ | x t IH ]; [ reflexivity | ].
  cbn [filter]. destruct (f x) eqn:Ef; [ | exact IH ].
  cbn [filter]. rewrite (H x Ef). exact IH.
Qed.

Lemma Rltb_limit (train_type : TrainType) (speed : R) :
  Rltb (limit Coaching) speed = true -> Rltb (limit train_type) speed = true.
Proof.
  rewrite !Rltb_true. destruct train_type; simpl; lra.
Qed.

(** X21.  The violations of a Coaching train are violations whatever the type
    of the train, which has the lower limit: filtering the passes for
    another type and then for Coaching, or the other way round, gives the
    violations of Coaching.  No pass at 40 km/h or less is a violation,
    every pass above 60 km/h is one. *)
Theorem violations_of_coaching_are_violations
        (train_type : TrainType) (sig_res_df : list SignalPass) :
  violations Coaching (violations train_type sig_res_df)
  = violations Coaching sig_res_df
  /\ violations train_type (violations Coaching sig_res_df)
     = violations Coaching sig_res_df
  /\ violations train_type (filter (fun r => Rleb (pass_Speed r) 40) sig_res_df) = []
  /\ violations train_type (filter (fun r => Rltb 60 (pass_Speed r)) sig_res_df)
     = filter (fun r => Rltb 60 (pass_Speed r)) sig_res_df.
Proof.
  unfold violations.
  split; [ | split; [ | split ] ].
  - apply (filter_implied (fun r => Rltb (limit Coaching) (pass_Speed r))
                          (fun r => Rltb (limit train_type) (pass_Speed r))).
    intros r. apply Rltb_limit.
  - apply (filter_implied (fun r => Rltb (limit Coaching) (pass_Speed r))
                          (fun r => Rltb (limit train_type) (pass_Speed r))).
    intros r. apply Rltb_limit.
  - apply (filter_excluded (fun r => Rleb (pass_Speed r) 40)
                           (fun r => Rltb (limit train_type) (pass_Speed r))).
    intros r E. apply Rltb_false. apply Rleb_true in E.
    destruct train_type; simpl; lra.
  - apply (filter_implied (fun r => Rltb 60 (pass_Speed r))
                          (fun r => Rltb (limit train_type) (pass_Speed r))).
    intros r. apply (Rltb_limit train_type).
Qed.

End PassProperties.

(** ** The report of the analysis *)

Module ReportProperties.
Import Telemetry Segmentation Streamlit.

(** X22.  Whenever the analysis of [streamlit_app.py] makes a report, the
    report carries the figures of the ordered frame and the retained
    stoppages: the number it gives is the number of rows of the stoppage
    table, the table lists the stoppages by their start, every one of them
    a stoppage below 2 km/h of at least 2 minutes, and it is replaced by
    the paragraph "No significant stoppages." exactly when there is none.
    The heading of the table names the minimum of 2 minutes, whatever the
    form says. *)
Theorem report_of_analysis
        (fl : Float64) (sort_values : list Row -> list Row)
        (sort_stops : list Stop -> list Stop)
        (form : TripDetails) (loco_file : Frame)
        (signal_file : option (Mapper.upload Mapper.SigTable))
        (ohe_file : option (Mapper.upload Mapper.OheTable))
        (report : HtmlReport) :
  sorts_by by_Start sort_stops ->
  analyze fl sort_values sort_stops form loco_file signal_file ohe_file = inr report ->
  trip_summary report = Kpi.stats fl (sort_frame sort_values loco_file)
  /\ stop_dur (crew_and_train report) = 2
  /\ ((stoppage_count report = 0%nat
       /\ stoppage_analysis report = Paragraph "<p>No significant stoppages.</p>"
       /\ forall s, In s (stops fl 2 (sort_values (rows loco_file))) ->
                    Duration_min s < 2)
      \/ (exists table,
             stoppage_analysis report = Table table
             /\ stoppage_count report = List.length table
             /\ (0 < stoppage_count report)%nat
             /\ Sorted by_Start table
             /\ forall s, In s table <->
                          In s (stops fl 2 (sort_values (rows loco_file)))
                          /\ 2 <= Duration_min s)).
Proof.
  intros Hs.
  unfold analyze, report_arguments, bind, ret.
  destruct (signals_step signal_file ohe_file) as [e | violations_df];
    [ discriminate | ].
  intros E. injection E as <-.
  unfold generate_html_report.
  cbn [trip_summary crew_and_train stoppage_count stoppage_analysis].
  split; [ reflexivity | ]. split; [ reflexivity | ].
  assert (Hin : forall s,
             In s (valid_stops fl sort_values sort_stops loco_file)
             <-> In s (stops fl 2 (sort_values (rows loco_file)))
                 /\ 2 <= Duration_min s).
  { intros s. unfold valid_stops, min_dur_min, stop_thresh, sort_frame. cbn [rows].
    destruct (Hs (retained 2 (stops fl 2 (sort_values (rows loco_file))))) as [Hp _].
    split.
    - intros H. apply (Permutation_in _ Hp) in H.
      unfold retained in H. apply filter_In in H. now rewrite Rleb_true in H.
    - intros H. apply (Permutation_in _ (Permutation_sym Hp)).
      unfold retained. apply filter_In. now rewrite Rleb_true. }
  assert (Hsorted : Sorted by_Start (valid_stops fl sort_values sort_stops loco_file)).
  { unfold valid_stops. apply Hs. }
  destruct (valid_stops fl sort_values sort_stops loco_file) as [ | s0 t ].
  - left. split; [ reflexivity | ]. split; [ reflexivity | ].
    intros s H. destruct (Rlt_le_dec (Duration_min s) 2) as [Hlt | Hle];
      [ exact Hlt | ].
    destruct (proj2 (Hin s) (conj H Hle)).
  - right. exists (s0 :: t). cbn [is_empty negb List.length].
    split; [ reflexivity | ]. split; [ reflexivity | ].
    split; [ lia | ]. split; [ exact Hsorted | exact Hin ].
Qed.

(** The stoppage scenario, without reference files. *)
Lemma report_of_analysis_witness :
  exists report,
    analyze exact_arith (insertion_sort time_leb) (insertion_sort start_leb) blank_form
            scenario_frame None None = inr report
    /\ trip_summary report
       = Kpi.stats exact_arith (sort_frame (insertion_sort time_leb) scenario_frame)
    /\ stop_dur (crew_and_train report) = 2
    /\ ((stoppage_count report = 0%nat
         /\ stoppage_analysis report = Paragraph "<p>No significant stoppages.</p>"
         /\ forall s, In s (stops exact_arith 2 (insertion_sort time_leb (rows scenario_frame))) ->
                      Duration_min s < 2)
        \/ (exists table,
               stoppage_analysis report = Table table
               /\ stoppage_count report = List.length table
               /\ (0 < stoppage_count report)%nat
               /\ Sorted by_Start table
               /\ forall s, In s table <->
                            In s (stops exact_arith 2 (insertion_sort time_leb (rows scenario_frame)))
                            /\ 2 <= Duration_min s)).
Proof.
  eexists. split; [ reflexivity | ].
  apply (report_of_analysis exact_arith (insertion_sort time_leb) (insertion_sort start_leb)
           blank_form scenario_frame None None).
  - exact SortFacts.start_sort_sorts.
  - reflexivity.
Defined.

End ReportProperties.
